(** * goarista: the hybrid [key.Map] and the [path] package

    A shallow embedding of [path/path.go] and of the data structure that
    [key/map_test.go] exercises, with the properties of the package's
    specification stated and proved over it. *)

From Stdlib Require Import ZArith String Ascii List Bool Lia.
From stdpp Require Import base option list strings gmap.

Set Warnings "-register-all".

(** ** Association lists

    Go's built-in maps are represented by the list of their entries; the
    order of the list is the layout chosen by the runtime and no operation
    of the model lets a caller depend on it except iteration, whose order
    Go leaves unspecified. *)

Section alist.
Context {A : Type} `{EqDecision A} {B : Type}.

Fixpoint alist_lookup (a : A) (l : list (A * B)) : option B :=
  match l with
  | [] => None
  | (a', b) :: l' => if decide (a' = a) then Some b else alist_lookup a l'
  end.

(** [m[a] = b]: overwrite the entry of [a], or add one. *)
Fixpoint alist_insert (a : A) (b : B) (l : list (A * B)) : list (A * B) :=
    match l with
    | [] => [(a, b)]
    | (a', b') :: l' =>
        if decide (a' = a) then (a', b) :: l' else (a', b') :: alist_insert a b l'
    end.
End alist.

(** No two elements of the list are related by [eqb]. *)
Fixpoint pairwise_ne {A : Type} (eqb : A → A → bool) (l : list A) : bool :=
  match l with
  | [] => true
  | a :: l' => forallb (λ b, negb (eqb a b)) l' && pairwise_ne eqb l'
  end.

Module key.

(** Values of a natively comparable Go type, the ones a built-in map
    accepts as keys. *)
Inductive native : Type :=
| NBool (b : bool)
| NInt (n : Z)
| NStr (s : string).

#[global] Instance native_eq_dec : EqDecision native.
Proof. solve_decision. Defined.

(** The [Hashable] interface: what a caller's key type supplies when the
    built-in equality is not the one wanted. The hash is a [uint64], which
    the code only compares. *)
Class Hashable (HK : Type) := {
  Hash : HK → Z;
  Equal : HK → HK → bool
}.

(** The contract the specification puts on an implementation of
    [Hashable]: [Equal] is an equivalence and equal keys hash alike. *)
Class HashableLaws (HK : Type) `{Hashable HK} : Prop := {
  Equal_refl : ∀ x : HK, Equal x x = true;
  Equal_sym : ∀ x y : HK, Equal x y = true → Equal y x = true;
  Equal_trans : ∀ x y z : HK, Equal x y = true → Equal y z = true → Equal x z = true;
  Equal_Hash : ∀ x y : HK, Equal x y = true → Hash x = Hash y
}.

(** [dumbHashable] of map_test.go: every value hashes to 1234567890 and two
    values are equal when their [dumb] fields are. The tests only store
    strings in [dumb]; the field ranges over the comparable values, on which
    Go's [==] is defined. *)
Record dumbHashable : Type := { dumb : native }.

#[global] Instance dumbHashable_Hashable : Hashable dumbHashable := {
  Hash _ := 1234567890%Z;
  Equal d o := bool_decide (dumb d = dumb o)
}.

(** Modelled from the spec: the [Key] variant of sections 3 and 4.1, which
    key.go (absent) declares. A key is either a natively comparable value or
    a custom one that brings its own [Hash] and [Equal]. The nil key, which
    [Set] ignores in the first case of [TestMapSet], is not a value of this
    type. *)
Inductive Key (HK : Type) : Type :=
| Native (n : native)
| Custom (h : HK).
Arguments Native {HK} n.
Arguments Custom {HK} h.

(** Modelled from the spec: [Key.Equal] (key.go is absent). Native keys
    compare by the built-in equality, custom keys by their own [Equal], and
    keys of different kinds differ. *)
Definition KeyEqual {HK} `{Hashable HK} (x y : Key HK) : bool :=
  match x, y with
  | Native a, Native b => bool_decide (a = b)
  | Custom a, Custom b => Equal a b
  | _, _ => false
  end.

(** Modelled from the spec: [k.Key().(string)], the underlying value of a
    key when it is a string (key.go is absent). *)
Definition KeyString {HK} (k : Key HK) : option string :=
  match k with
  | Native (NStr s) => Some s
  | _ => None
  end.

(** [key.Path], a slice of keys, as the sequence of keys it holds. *)
Abbreviation Path HK := (list (Key HK)).

(** The [interface{}] values that the constructors of package [path]
    accept: a [key.Key], or a value that a key can wrap. A mapping is
    wrapped as the nested Map it denotes, which is a custom key. *)
Inductive iface (HK : Type) : Type :=
| IKey (k : Key HK)
| INative (n : native)
| IHashable (h : HK).
Arguments IKey {HK} k.
Arguments INative {HK} n.
Arguments IHashable {HK} h.

(** Modelled from the spec: [key.New], the dispatch of section 4.1 (key.go
    is absent). *)
Definition New {HK} (v : iface HK) : Key HK :=
  match v with
  | IKey k => k
  | INative n => Native n
  | IHashable h => Custom h
  end.

(** The [entry] and [Map] structs, as the literals of map_test.go spell
    them: [entry{k, v, next}] and [Map{normal, custom, length}]. *)
Inductive entry (HK V : Type) : Type :=
| Entry (k : HK) (v : V) (next : option (entry HK V)).
Arguments Entry {HK V} k v next.

Record Map (HK V : Type) : Type := mkMap {
  normal : list (native * V);
  custom : list (Z * entry HK V);
  length : nat
}.
Arguments mkMap {HK V} normal custom length.
Arguments normal {HK V} m.
Arguments custom {HK V} m.
Arguments length {HK V} m.

(** [&Map{}] *)
Definition empty {HK V} : Map HK V := mkMap [] [] 0.

Section chain.
Context {HK : Type} `{Hashable HK} {V : Type}.

(** The nodes of a chain, head first. *)
Fixpoint chain_entries (e : entry HK V) : list (HK * V) :=
  match e with
  | Entry k v next =>
      (k, v) :: match next with Some n => chain_entries n | None => [] end
  end.

(** Modelled from the spec: the chain walk of [Map.Get] (map.go is
    absent), section 4.3: the value of the first node whose key is [Equal]
    to the one asked for. *)
Fixpoint chain_get (hk : HK) (e : entry HK V) : option V :=
  match e with
  | Entry k v next =>
      if Equal k hk then Some v
      else match next with Some n => chain_get hk n | None => None end
  end.

(** Modelled from the spec: the chain walk of [Map.Set] (map.go is
    absent), section 4.2: overwrite in place the value of the node whose
    key matches, or append a node at the tail. The boolean tells whether a
    node was appended. *)
Fixpoint chain_set (hk : HK) (x : V) (e : entry HK V) : entry HK V * bool :=
  match e with
  | Entry k v next =>
      if Equal k hk then (Entry k x next, false)
      else match next with
           | Some n => let (n', added) := chain_set hk x n in (Entry k v (Some n'), added)
           | None => (Entry k v (Some (Entry hk x None)), true)
           end
  end.

Section forall_chain.
Variable P : HK → V → bool.

(** [P] holds of every node of the chain. *)
Fixpoint chain_forall (e : entry HK V) : bool :=
  match e with
  | Entry k v next =>
      P k v && match next with Some n => chain_forall n | None => true end
  end.
End forall_chain.
End chain.

Section Map.
Context {HK : Type} `{Hashable HK} {V : Type}.

(** Modelled from the spec: [Map.Set] (map.go is absent), section 4.2. *)
Definition Map_Set (m : Map HK V) (k : Key HK) (x : V) : Map HK V :=
  match k with
  | Native n =>
      mkMap (alist_insert n x (normal m)) (custom m)
            (match alist_lookup n (normal m) with
             | Some _ => length m
             | None => S (length m)
             end)
  | Custom hk =>
      let h := Hash hk in
      match alist_lookup h (custom m) with
      | None =>
          mkMap (normal m) (alist_insert h (Entry hk x None) (custom m)) (S (length m))
      | Some e =>
          let (e', added) := chain_set hk x e in
          mkMap (normal m) (alist_insert h e' (custom m))
                (if added then S (length m) else length m)
      end
  end.

(** Modelled from the spec: [Map.Get] (map.go is absent), section 4.3.
    [Some v] is Go's [(v, true)] and [None] is [(nil, false)]. *)
Definition Map_Get (m : Map HK V) (k : Key HK) : option V :=
  match k with
  | Native n => alist_lookup n (normal m)
  | Custom hk =>
      match alist_lookup (Hash hk) (custom m) with
      | None => None
      | Some e => chain_get hk e
      end
  end.

(** [formMap] of map_test.go. *)
Definition formMap (pairs : list (Key HK * V)) : Map HK V :=
  foldl (λ m en, Map_Set m en.1 en.2) empty pairs.

(** The logical entries of a Map when its two built-in maps are ranged over
    in the orders [ns] and [bs]: the native entries, then every chain from
    head to tail. *)
Definition entries_in (ns : list (native * V)) (bs : list (Z * entry HK V))
    : list (Key HK * V) :=
  map (λ en, (Native en.1, en.2)) ns
  ++ flat_map (λ b, map (λ p, (Custom p.1, p.2)) (chain_entries b.2)) bs.

Definition entries (m : Map HK V) : list (Key HK * V) :=
  entries_in (normal m) (custom m).

(** The invariant of section 3: the keys of each built-in map are distinct,
    every node lies in the bucket of its hash, no two keys of a chain are
    [Equal], and [length] counts the entries. *)
Definition chain_wfb (h : Z) (e : entry HK V) : bool :=
  forallb (λ p, Z.eqb (Hash p.1) h) (chain_entries e)
  && pairwise_ne Equal (chain_entries e).*1.

Definition wfb (m : Map HK V) : bool :=
  bool_decide (NoDup (normal m).*1)
  && bool_decide (NoDup (custom m).*1)
  && forallb (λ b, chain_wfb b.1 b.2) (custom m)
  && Nat.eqb (length m) (List.length (entries m)).

Section Iter.
Context {St Err : Type}.
(** The visitor: it returns nil or an error and may change the state of
    the caller, as the counting closure of [TestMapIter] does. *)
Variable visit : Key HK → V → St → St * option Err.

(** [for k, v := range m.normal] *)
Fixpoint iter_normal (ns : list (native * V)) (s : St) : St * option Err :=
  match ns with
  | [] => (s, None)
  | (n, v) :: ns' =>
      match visit (Native n) v s with
      | (s', Some err) => (s', Some err)
      | (s', None) => iter_normal ns' s'
      end
  end.

(** The walk of one chain, head to tail. *)
Fixpoint iter_chain (e : entry HK V) (s : St) : St * option Err :=
  match e with
  | Entry k v next =>
      match visit (Custom k) v s with
      | (s', Some err) => (s', Some err)
      | (s', None) =>
          match next with
          | Some n => iter_chain n s'
          | None => (s', None)
          end
      end
  end.

(** [for _, hentry := range m.custom] *)
Fixpoint iter_custom (bs : list (Z * entry HK V)) (s : St) : St * option Err :=
  match bs with
  | [] => (s, None)
  | (_, e) :: bs' =>
      match iter_chain e s with
      | (s', Some err) => (s', Some err)
      | (s', None) => iter_custom bs' s'
      end
  end.

(** Modelled from the spec: [Map.Iter] (map.go is absent), section 4.5.
    Go leaves the order of a [range] over a built-in map to the runtime:
    [ns] and [bs] are the orders in which this call meets the entries of
    [m.normal] and the buckets of [m.custom]. *)
Definition Map_Iter (ns : list (native * V)) (bs : list (Z * entry HK V))
    (s : St) : St * option Err :=
  match iter_normal ns s with
  | (s', Some err) => (s', Some err)
  | (s', None) => iter_custom bs s'
  end.

(** Calling the visitor on the entries of a list, one after the other,
    until it returns an error. *)
Fixpoint visit_all (es : list (Key HK * V)) (s : St) : St * option Err :=
  match es with
  | [] => (s, None)
  | (k, v) :: es' =>
      match visit k v s with
      | (s', Some err) => (s', Some err)
      | (s', None) => visit_all es' s'
      end
  end.

(** The visitor that also records each of its calls. *)
Definition logged (k : Key HK) (v : V) (sl : St * list (Key HK * V))
    : (St * list (Key HK * V)) * option Err :=
  let (s', r) := visit k v sl.1 in ((s', sl.2 ++ [(k, v)]), r).
End Iter.

(** [ns] and [bs] are orders in which a [range] can meet the entries of the
    two built-in maps of [m]. *)
Definition range_order (m : Map HK V) (ns : list (native * V))
    (bs : list (Z * entry HK V)) : Prop :=
  ns ≡ₚ normal m ∧ bs ≡ₚ custom m.

Section Equal.
(** The rule of section 4.6 that compares two values. *)
Variable veq : V → V → bool.

(** [o] holds, under a key that matches [k], a value equal to [v]. *)
Definition found_equal (o : Map HK V) (k : Key HK) (v : V) : bool :=
  match Map_Get o k with
  | Some v' => veq v v'
  | None => false
  end.

(** Modelled from the spec: [Map.Equal] (map.go is absent), section
    4.6: the lengths agree and every entry of the receiver has an entry
    of [o] under a matching key, with an equal value. *)
Definition Map_Equal (m o : Map HK V) : bool :=
  Nat.eqb (length m) (length o)
  && forallb (λ en, found_equal o (Native en.1) en.2) (normal m)
  && forallb (λ b, chain_forall (λ k v, found_equal o (Custom k) v) b.2) (custom m).

(** Two lists hold the same pairs: one is the other in another order, up
    to the equality of values. *)
Definition same_pairs (l1 l2 : list (Key HK * V)) : Prop :=
  ∃ l', l1 ≡ₚ l' ∧ Forall2 (λ p q, p.1 = q.1 ∧ veq p.2 q.2 = true) l' l2.
End Equal.
End Map.

(** Modelled from the spec: the values a [Map] stores (section 4.6 and the
    design note on values): nil, comparable scalars and nested Maps. A plain
    Go mapping is stored as the Map that wrapping it yields. *)
Inductive value (HK : Type) : Type :=
| VNil
| VNative (n : native)
| VMap (m : Map HK (value HK)).
Arguments VNil {HK}.
Arguments VNative {HK} n.
Arguments VMap {HK} m.

(** Modelled from the spec: the value rule of section 4.6 (map.go is
    absent): two Maps compare by [Map.Equal], recursively; everything else
    by the built-in equality. *)
Fixpoint value_eq {HK} `{Hashable HK} (a b : value HK) {struct a} : bool :=
  match a, b with
  | VNil, VNil => true
  | VNative x, VNative y => bool_decide (x = y)
  | VMap m, VMap o => Map_Equal value_eq m o
  | _, _ => false
  end.

(** A value is well formed when the Maps nested in it keep the invariant. *)
Fixpoint value_wfb {HK} `{Hashable HK} (a : value HK) : bool :=
  match a with
  | VMap m =>
      wfb m
      && forallb (λ en, value_wfb en.2) (normal m)
      && forallb (λ b, chain_forall (λ _ v, value_wfb v) b.2) (custom m)
  | _ => true
  end.

End key.


(** ** Package [strings] *)

(** [strings.HasPrefix(s, prefix)] *)
Definition strings_HasPrefix (s prefix : string) : bool := String.prefix prefix s.

(** [strings.Split(s, sep)] for a separator of one byte: the substrings
    between the separators, one more than there are separators. *)
Fixpoint strings_Split (s : string) (sep : ascii) : list string :=
  match s with
  | EmptyString => [EmptyString]
  | String c rest =>
      if Ascii.eqb c sep then EmptyString :: strings_Split rest sep
      else match strings_Split rest sep with
           | t :: ts => String c t :: ts
           | [] => [String c EmptyString]
           end
  end.

(** [strings.Count(s, sep)] for a separator of one byte. *)
Fixpoint strings_Count (s : string) (sep : ascii) : nat :=
  match s with
  | EmptyString => 0
  | String c rest => (if Ascii.eqb c sep then 1 else 0) + strings_Count rest sep
  end.

(** [strings.Join(elems, sep)] for a separator of one byte. *)
Fixpoint strings_Join (elems : list string) (sep : ascii) : string :=
  match elems with
  | [] => EmptyString
  | [t] => t
  | t :: ts => (t ++ String sep (strings_Join ts sep))%string
  end.

(** The string that [path.FromString] splits: its argument without one
    leading ['/']. *)
Definition stripped (str : string) : string :=
  match str with
  | String "/" rest => rest
  | _ => str
  end.

(** ** Slices

    The constructors of package [path] allocate and fill slices, and one of
    them returns its argument: they are modelled over a heap of backing
    arrays. A cell of an array holds a key or the nil interface. A run-time
    panic (an index out of range) is [None]. *)

Module slices.
Abbreviation cell HK := (option (key.Key HK)).
Abbreviation heap HK := (gmap nat (list (cell HK))).

(** A slice header; the capacity plays no part in the code modelled. *)
Inductive slice : Type :=
| Nil
| Slice (arr : nat) (off : nat) (len : nat).

Section slices.
Context {HK : Type}.
#[local] Abbreviation cell := (cell HK).
#[local] Abbreviation heap := (heap HK).

Definition len (s : slice) : nat :=
  match s with Nil => 0 | Slice _ _ n => n end.

(** The cells that a slice denotes in a heap. *)
Definition contents (h : heap) (s : slice) : option (list cell) :=
  match s with
  | Nil => Some []
  | Slice a off n =>
      cs ← h !! a;
      if decide (off + n ≤ length cs) then Some (take n (drop off cs)) else None
  end.

(** The keys of a slice, when none of its cells is nil. *)
Definition keys (h : heap) (s : slice) : option (key.Path HK) :=
  cs ← contents h s; mapM id cs.

(** Every slice of the heap [h] keeps its cells in [h']. *)
Definition frame (h h' : heap) : Prop :=
  ∀ s cs, contents h s = Some cs → contents h' s = Some cs.

Definition M (A : Type) : Type := heap → option (A * heap).
Definition ret {A} (a : A) : M A := λ h, Some (a, h).
Definition bind {A B} (m : M A) (f : A → M B) : M B :=
  λ h, match m h with Some (a, h') => f a h' | None => None end.

(** [make(key.Path, n)]: a new array of [n] nil cells. *)
Definition make (n : nat) : M slice :=
  λ h, let a := fresh (dom h) in Some (Slice a 0 n, <[a := replicate n None]> h).

(** [s[i] = c] *)
Definition store (s : slice) (i : nat) (c : cell) : M unit :=
  λ h, match s with
       | Nil => None
       | Slice a off n =>
           cs ← h !! a;
           if decide (i < n ∧ off + n ≤ length cs)
           then Some ((), <[a := <[off + i := c]> cs]> h)
           else None
       end.

(** The stores [s[i] = c0; s[i+1] = c1; ...] of a loop that fills a
    slice. *)
Fixpoint store_list (s : slice) (i : nat) (cs : list cell) : M unit :=
  match cs with
  | [] => ret ()
  | c :: cs' => bind (store s i c) (λ _, store_list s (S i) cs')
  end.

(** [s[i:]] *)
Definition from (s : slice) (i : nat) : M slice :=
  λ h, match s with
       | Nil => if decide (i = 0) then Some (Nil, h) else None
       | Slice a off n =>
           if decide (i ≤ n) then Some (Slice a (off + i) (n - i), h) else None
       end.

(** [copy(dst, src)]: the first [min(len(dst), len(src))] cells of [src]
    overwrite those of [dst]; the result is their number. *)
Definition copy (dst src : slice) : M nat :=
  λ h, cs ← contents h src;
       let n := min (len dst) (len src) in
       match dst with
       | Nil => Some (n, h)
       | Slice a off _ =>
           ds ← h !! a;
           if decide (off + len dst ≤ length ds)
           then Some (n, <[a := take off ds ++ take n cs ++ drop (off + n) ds]> h)
           else None
       end.
End slices.
Arguments M HK A : clear implicits.
End slices.

Notation "'do' x <- m ; k" := (slices.bind m (λ x, k))
  (at level 10, x name, m at level 100, k at level 200,
   format "'[v' 'do'  x  <-  m ; '/' k ']'").

Module path.

(** Modelled from the spec: the [Wildcard] sentinel of package [path]
    (wildcard.go is absent): one distinguished key. *)
Class Sentinel (HK : Type) := Wildcard : key.Key HK.

Section path.
Context {HK : Type} `{key.Hashable HK} `{Sentinel HK}.
#[local] Abbreviation Key := (key.Key HK).
#[local] Abbreviation Path := (key.Path HK).
#[local] Abbreviation slice := slices.slice.
#[local] Abbreviation M := (slices.M HK).

(** *** Functions that read paths

    They are given on the sequences of keys that their arguments hold; an
    index out of range is [None]. *)

Definition Parent (path : Path) : Path :=
  if decide (0 < length path) then take (length path - 1) path else [].

(** The result is [None] for Go's nil key. *)
Definition Base (path : Path) : option Key :=
  if decide (0 < length path) then path !! (length path - 1) else None.

(** [for i := range b { if !b[i].Equal(a[i]) { return false } }; return true] *)
Fixpoint hasPrefix_range (a b : Path) (idx : list nat) : option bool :=
  match idx with
  | [] => Some true
  | i :: idx' =>
      bi ← b !! i;
      ai ← a !! i;
      if negb (key.KeyEqual bi ai) then Some false else hasPrefix_range a b idx'
  end.

Definition hasPrefix (a b : Path) : option bool :=
  hasPrefix_range a b (seq 0 (length b)).

Definition Equal (a b : Path) : option bool :=
  if Nat.eqb (length a) (length b) then hasPrefix a b else Some false.

Fixpoint HasElement (a : Path) (b : Key) : bool :=
  match a with
  | [] => false
  | element :: a' => if key.KeyEqual element b then true else HasElement a' b
  end.

Definition HasPrefix (a b : Path) : option bool :=
  if Nat.leb (length b) (length a) then hasPrefix a b else Some false.

Definition compareElementString (a b : Key) : bool :=
  match key.KeyString b, key.KeyString a with
  | Some bStr, Some aStr => strings_HasPrefix aStr bStr
  | _, _ => key.KeyEqual b a
  end.

(** What [compareElementString] decides: when both keys wrap strings, the
    string of [a] starts with the string of [b]; otherwise [b.Equal(a)]. *)
Definition element_matches (a b : Key) : Prop :=
  match key.KeyString b, key.KeyString a with
  | Some bStr, Some aStr => ∃ rest, aStr = (bStr ++ rest)%string
  | _, _ => key.KeyEqual b a = true
  end.

Definition hasPrefixString (a b : Path) : option bool :=
  if Nat.eqb (length b) 0 then Some true
  else
    ok ← hasPrefix (Parent a) (Parent b);
    if negb ok then Some false
    else
      ai ← a !! (length b - 1);
      bl ← Base b;
      Some (compareElementString ai bl).

Definition HasPrefixString (a b : Path) : option bool :=
  if Nat.leb (length b) (length a) then hasPrefixString a b else Some false.

(** [for i := range b { if !a[i].Equal(Wildcard) && !b[i].Equal(a[i]) { return false } }] *)
Fixpoint matchPrefix_range (a b : Path) (idx : list nat) : option bool :=
  match idx with
  | [] => Some true
  | i :: idx' =>
      ai ← a !! i;
      if negb (key.KeyEqual ai Wildcard)
      then bi ← b !! i;
           if negb (key.KeyEqual bi ai) then Some false else matchPrefix_range a b idx'
      else matchPrefix_range a b idx'
  end.

Definition matchPrefix (a b : Path) : option bool :=
  matchPrefix_range a b (seq 0 (length b)).

Definition Match (a b : Path) : option bool :=
  if Nat.eqb (length a) (length b) then matchPrefix a b else Some false.

Definition MatchPrefix (a b : Path) : option bool :=
  if Nat.leb (length b) (length a) then matchPrefix a b else Some false.

Definition matchPrefixString (a b : Path) : option bool :=
  if Nat.eqb (length b) 0 then Some true
  else
    ok ← matchPrefix (Parent a) (Parent b);
    if negb ok then Some false
    else
      aKey ← a !! (length b - 1);
      if key.KeyEqual aKey Wildcard then Some true
      else bl ← Base b; Some (compareElementString aKey bl).

Definition MatchPrefixString (a b : Path) : option bool :=
  if Nat.leb (length b) (length a) then matchPrefixString a b else Some false.

(** *** Functions that build paths *)

(** The type switch of [copyElements]: a [key.Key] is stored as it is,
    anything else is wrapped by [key.New]. *)
Definition wrap (element : key.iface HK) : Key :=
  match element with
  | key.IKey val => val
  | val => key.New val
  end.

(** [for i, element := range elements { dest[i] = ... }], from index [i]. *)
Fixpoint copyElements_from (dest : slice) (i : nat) (elements : list (key.iface HK))
    : M unit :=
  match elements with
  | [] => slices.ret ()
  | element :: rest =>
      do _ <- slices.store dest i (Some (wrap element));
      copyElements_from dest (S i) rest
  end.

Definition copyElements (dest : slice) (elements : list (key.iface HK)) : M unit :=
  copyElements_from dest 0 elements.

Definition New (elements : list (key.iface HK)) : M slice :=
  do result <- slices.make (length elements);
  do _ <- copyElements result elements;
  slices.ret result.

Definition Append (path : slice) (elements : list (key.iface HK)) : M slice :=
  if Nat.eqb (length elements) 0 then slices.ret path
  else
    let n := slices.len path in
    do result <- slices.make (n + length elements);
    do _ <- slices.copy result path;
    do dest <- slices.from result n;
    do _ <- copyElements dest elements;
    slices.ret result.

(** [for _, path := range paths { i += copy(result[i:], path) }] *)
Fixpoint Join_copy (result : slice) (i : nat) (paths : list slice) : M unit :=
  match paths with
  | [] => slices.ret ()
  | path :: rest =>
      do dest <- slices.from result i;
      do c <- slices.copy dest path;
      Join_copy result (i + c) rest
  end.

Definition Join (paths : list slice) : M slice :=
  let n := foldl (λ n path, n + slices.len path) 0 paths in
  if Nat.eqb n 0 then slices.ret slices.Nil
  else
    do result <- slices.make n;
    do _ <- Join_copy result 0 paths;
    slices.ret result.

Definition Clone (path : slice) : M slice :=
  do result <- slices.make (slices.len path);
  do _ <- slices.copy result path;
  slices.ret result.

(** [for i, element := range elements { result[i] = key.New(element) }] *)
Fixpoint FromString_fill (result : slice) (i : nat) (elements : list string) : M unit :=
  match elements with
  | [] => slices.ret ()
  | element :: rest =>
      do _ <- slices.store result i (Some (key.New (key.INative (key.NStr element))));
      FromString_fill result (S i) rest
  end.

Definition FromString (str : string) : M slice :=
  if String.eqb str "" || String.eqb str "/" then slices.make 0
  else
    let str :=
      match str with
      | String "/" rest => rest
      | _ => str
      end in
    let elements := strings_Split str "/" in
    do result <- slices.make (length elements);
    do _ <- FromString_fill result 0 elements;
    slices.ret result.
(** *** Relations between two paths, for the statements *)

(** The elements of [b] are [Equal] to those of [a] at the same index. *)
Definition agree (a b : Path) : Prop :=
  ∀ i ai bi, a !! i = Some ai → b !! i = Some bi → key.KeyEqual bi ai = true.

(** The elements of [b] match those of the pattern [a] at the same index. *)
Definition agree_wild (a b : Path) : Prop :=
  ∀ i ai bi, a !! i = Some ai → b !! i = Some bi →
             key.KeyEqual ai Wildcard = true ∨ key.KeyEqual bi ai = true.
End path.
End path.

(** Modelled from the spec: the type of the [Wildcard] sentinel
    (wildcard.go is absent), a custom key equal to itself only. *)
Inductive WildcardType : Type := WildcardValue.

#[global] Instance WildcardType_Hashable : key.Hashable WildcardType := {
  Hash _ := 0%Z;
  Equal _ _ := true
}.

#[global] Instance WildcardType_Sentinel : path.Sentinel WildcardType :=
  key.Custom WildcardValue.

(** ** Data of map_test.go *)

(** [dumbHashable{dumb: s}] *)
Definition hashable (s : string) : key.dumbHashable := {| key.dumb := key.NStr s |}.

Definition custom_key (s : string) : key.Key key.dumbHashable :=
  key.Custom (hashable s).

Definition int_val (n : Z) : key.value key.dumbHashable := key.VNative (key.NInt n).

(** A key that wraps a string, and the heap whose array 0 holds the path
    ["a", "b"]. *)
Definition string_key (s : string) : key.Key WildcardType := key.Native (key.NStr s).

Definition heap_ab : slices.heap WildcardType :=
  {[0 := [Some (string_key "a"); Some (string_key "b")]]}.

(** The closure of [TestMapIter], which counts its calls. *)
Definition count_visit (k : key.Key key.dumbHashable) (v : key.value key.dumbHashable)
    (count : nat) : nat * option string :=
  (S count, None).

(** A visitor that fails on one key. *)
Definition fail_on (bad k : key.Key key.dumbHashable) (v : key.value key.dumbHashable)
    (count : nat) : nat * option string :=
  if key.KeyEqual k bad then (count, Some "stop"%string) else (S count, None).

(** The Map with one chain of three nodes of [TestMapIter] and [TestMapDel]. *)
Definition chain234 : key.Map key.dumbHashable (key.value key.dumbHashable) :=
  key.mkMap []
    [(1234567890%Z,
      key.Entry (hashable "hashable2") (key.VNative (key.NInt 42))
        (Some (key.Entry (hashable "hashable3") (key.VNative (key.NInt 42))
           (Some (key.Entry (hashable "hashable4") (key.VNative (key.NInt 42)) None)))))]
    3.

(** * Properties *)

(** ** Association lists *)

Section alist_facts.
Context {A : Type} `{EqDecision A} {B : Type}.
Implicit Types (a : A) (b : B) (l : list (A * B)).

Lemma alist_lookup_insert_eq a b l :
    alist_lookup a (alist_insert a b l) = Some b.
  Proof.
    induction l as [|[a' b'] l IH]; simpl.
    - by rewrite decide_True.
    - destruct (decide (a' = a)) as [->|Hne]; simpl.
      + by rewrite decide_True.
      + by rewrite decide_False.
  Qed.

Lemma alist_lookup_insert_ne a a' b l :
    a ≠ a' → alist_lookup a' (alist_insert a b l) = alist_lookup a' l.
  Proof.
    intros Hne. induction l as [|[c d] l IH]; simpl.
    - by rewrite decide_False.
    - destruct (decide (c = a)) as [->|Hca]; simpl.
      + by rewrite !decide_False.
      + by rewrite IH.
  Qed.

Lemma alist_lookup_None a l : alist_lookup a l = None ↔ a ∉ l.*1.
  Proof.
    induction l as [|[c d] l IH]; simpl.
    - split; [intros _; apply not_elem_of_nil | done].
    - rewrite not_elem_of_cons. destruct (decide (c = a)) as [->|Hca].
      + split; [done | intros [? _]; done].
      + rewrite IH. split; [by intros ?; split | by intros [_ ?]].
  Qed.

Lemma alist_lookup_Some a b l :
    alist_lookup a l = Some b ↔
    ∃ l1 l2, l = l1 ++ (a, b) :: l2 ∧ a ∉ l1.*1.
  Proof.
    induction l as [|[c d] l IH]; simpl.
    - split; [done | intros ([|? ?] & ? & ? & _); done].
    - destruct (decide (c = a)) as [->|Hca].
      + split.
        * intros [= ->]. exists [], l. split; [done | apply not_elem_of_nil].
        * intros ([|[c' d'] l1] & l2 & Heq & Hni); simplify_eq/=; [done|].
          exfalso. apply Hni. left.
      + rewrite IH. split.
        * intros (l1 & l2 & -> & Hni). exists ((c, d) :: l1), l2.
          split; [done|]. simpl. rewrite not_elem_of_cons. done.
        * intros ([|[c' d'] l1] & l2 & Heq & Hni); simplify_eq/=.
          exists l1, l2. split; [done|]. rewrite not_elem_of_cons in Hni. tauto.
  Qed.

Lemma alist_lookup_elem_of a b l : alist_lookup a l = Some b → (a, b) ∈ l.
  Proof.
    intros (l1 & l2 & -> & _)%alist_lookup_Some. set_solver.
  Qed.

Lemma alist_lookup_NoDup a b l :
    NoDup l.*1 → (a, b) ∈ l → alist_lookup a l = Some b.
  Proof.
    induction l as [|[c d] l IH]; simpl; intros Hnd Hin.
    - by apply elem_of_nil in Hin.
    - apply NoDup_cons in Hnd as [Hc Hnd]. apply elem_of_cons in Hin as [[= -> ->]|Hin].
      + by rewrite decide_True.
      + rewrite decide_False; [by apply IH|].
        intros ->. apply Hc. apply list_elem_of_fmap. by exists (a, b).
  Qed.

  (** What [alist_insert] does to the list: it appends when the key is new,
      and otherwise replaces the value where the key stands. *)
Lemma alist_insert_None a b l :
    alist_lookup a l = None → alist_insert a b l = l ++ [(a, b)].
  Proof.
    induction l as [|[c d] l IH]; simpl; [done|].
    destruct (decide (c = a)); [done|]. intros ?. by rewrite IH.
  Qed.

Lemma alist_insert_Some a b b0 l1 l2 :
    a ∉ l1.*1 →
    alist_insert a b (l1 ++ (a, b0) :: l2) = l1 ++ (a, b) :: l2.
  Proof.
    induction l1 as [|[c d] l1 IH]; simpl; intros Hni.
    - by rewrite decide_True.
    - rewrite not_elem_of_cons in Hni. destruct Hni as [Hne Hni].
      rewrite decide_False by done. by rewrite IH.
  Qed.
End alist_facts.

(** ** The test's hashable keeps the contract *)

#[global] Instance dumbHashable_laws : key.HashableLaws key.dumbHashable.
Proof.
  split; simpl; intros.
  - by apply bool_decide_eq_true.
  - apply bool_decide_eq_true. by apply bool_decide_eq_true in H.
  - apply bool_decide_eq_true. apply bool_decide_eq_true in H, H0. congruence.
  - done.
Qed.

(** ** Collision chains *)

Section chain_facts.
Import key.
Context {HK : Type} `{HashableLaws HK} {V : Type}.
Implicit Types (hk k : HK) (x v : V) (e : entry HK V).

Lemma entry_chain_ind (P : entry HK V → Prop) :
  (∀ k v, P (Entry k v None)) →
  (∀ k v n, P n → P (Entry k v (Some n))) →
  ∀ e, P e.
Proof.
  intros Hlast Hstep. fix IH 1.
  intros [k v [n|]]; [apply Hstep, IH | apply Hlast].
Qed.

Lemma Equal_true_l (a b c : HK) : Equal a b = true → Equal a c = Equal b c.
Proof.
  intros Hab. destruct (Equal b c) eqn:Hbc.
  - by apply Equal_trans with b.
  - destruct (Equal a c) eqn:Hac; [|done].
    rewrite <- Hbc. symmetry. apply Equal_trans with a; [by apply Equal_sym | done].
Qed.

Lemma Equal_true_r (a b c : HK) : Equal b c = true → Equal a b = Equal a c.
Proof.
  intros Hbc. destruct (Equal a c) eqn:Hac.
  - apply Equal_trans with c; [done | by apply Equal_sym].
  - destruct (Equal a b) eqn:Hab; [|done].
    rewrite <- Hac. symmetry. by apply Equal_trans with b.
Qed.

Lemma chain_entries_unfold k v next :
  chain_entries (Entry k v next) = (k, v) :: from_option chain_entries [] next.
Proof. by destruct next. Qed.

Lemma chain_get_None hk e :
  chain_get hk e = None ↔ Forall (λ p, Equal p.1 hk = false) (chain_entries e).
Proof.
  induction e as [k v|k v n IH] using entry_chain_ind; simpl.
  - destruct (Equal k hk) eqn:Hk.
    + split; [done|]. intros Hall. apply Forall_cons in Hall as [Hhd _].
      simpl in Hhd. congruence.
    + split; [|done]. intros _. by repeat constructor.
  - destruct (Equal k hk) eqn:Hk.
    + split; [done|]. intros Hall. apply Forall_cons in Hall as [Hhd _].
      simpl in Hhd. congruence.
    + rewrite IH, Forall_cons. simpl. tauto.
Qed.

(** A lookup that succeeds returns the value of the first node of the
    chain whose key matches. *)
Lemma chain_get_Some hk e v :
  chain_get hk e = Some v ↔
  ∃ pre k0 post, chain_entries e = pre ++ (k0, v) :: post ∧
    Equal k0 hk = true ∧ Forall (λ p, Equal p.1 hk = false) pre.
Proof.
  induction e as [k v0|k v0 n IH] using entry_chain_ind; simpl.
  - destruct (Equal k hk) eqn:Hk.
    + split.
      * intros [= ->]. by exists [], k, [].
      * intros ([|[k1 v1] pre] & k0 & post & Heq & Hk0 & Hpre); simplify_eq/=; [done|].
        apply Forall_cons in Hpre as [Hhd _]. simpl in Hhd. congruence.
    + split; [done|].
      intros ([|[k1 v1] pre] & k0 & post & Heq & Hk0 & Hpre); simplify_eq/=.
      * congruence.
      * by destruct pre.
  - destruct (Equal k hk) eqn:Hk.
    + split.
      * intros [= ->]. by exists [], k, (chain_entries n).
      * intros ([|[k1 v1] pre] & k0 & post & Heq & Hk0 & Hpre); simplify_eq/=; [done|].
        apply Forall_cons in Hpre as [Hhd _]. simpl in Hhd. congruence.
    + rewrite IH. split.
      * intros (pre & k0 & post & Heq & Hk0 & Hpre).
        exists ((k, v0) :: pre), k0, post. rewrite Heq. split_and!; [done..|].
        by constructor.
      * intros ([|[k1 v1] pre] & k0 & post & Heq & Hk0 & Hpre); simplify_eq/=.
        { congruence. }
        apply Forall_cons in Hpre as [_ Hpre]. by exists pre, k0, post.
Qed.

(** [Set] on a chain without a match appends the node at the tail. *)
Lemma chain_set_None hk x e :
  Forall (λ p, Equal p.1 hk = false) (chain_entries e) →
  chain_entries (chain_set hk x e).1 = chain_entries e ++ [(hk, x)] ∧
  (chain_set hk x e).2 = true.
Proof.
  induction e as [k v|k v n IH] using entry_chain_ind; simpl;
    intros [Hk Hall]%Forall_cons; simpl in Hk; rewrite Hk; simpl; [done|].
  destruct (IH Hall) as [Hent Hadd].
  destruct (chain_set hk x n) as [n' added]; simpl in *. by rewrite Hent.
Qed.

(** [Set] on a chain with a match overwrites the value of the first
    matching node where it stands. *)
Lemma chain_set_Some hk x e pre k0 v0 post :
  chain_entries e = pre ++ (k0, v0) :: post →
  Equal k0 hk = true →
  Forall (λ p, Equal p.1 hk = false) pre →
  chain_entries (chain_set hk x e).1 = pre ++ (k0, x) :: post ∧
  (chain_set hk x e).2 = false.
Proof.
  revert pre. induction e as [k v|k v n IH] using entry_chain_ind;
    intros pre Heq Hk0 Hpre; simpl in *.
  - destruct pre as [|[k1 v1] pre]; simplify_eq/=.
    + by rewrite Hk0.
    + by destruct pre.
  - destruct pre as [|[k1 v1] pre]; simplify_eq/=.
    + by rewrite Hk0.
    + apply Forall_cons in Hpre as [Hk1 Hpre]. simpl in Hk1. rewrite Hk1.
      destruct (IH pre) as [Hent Hadd]; [done..|].
      destruct (chain_set hk x n) as [n' added]; simpl in *. by rewrite Hent.
Qed.

Lemma chain_set_added hk x e :
  (chain_set hk x e).2 = match chain_get hk e with Some _ => false | None => true end.
Proof.
  destruct (chain_get hk e) as [v|] eqn:Hget.
  - apply chain_get_Some in Hget as (pre & k0 & post & Heq & Hk0 & Hpre).
    by eapply chain_set_Some.
  - apply chain_get_None in Hget. by apply chain_set_None.
Qed.

(** The lookup only depends on the key up to [Equal]. *)
Lemma chain_get_proper hk hk' e :
  Equal hk hk' = true → chain_get hk e = chain_get hk' e.
Proof.
  intros Heq. induction e as [k v|k v n IH] using entry_chain_ind; simpl;
    rewrite (Equal_true_r k hk hk' Heq); [done|]. by rewrite IH.
Qed.

Lemma chain_get_set hk hk' x e :
  chain_get hk' (chain_set hk x e).1 =
  if Equal hk hk' then Some x else chain_get hk' e.
Proof.
  induction e as [k v|k v n IH] using entry_chain_ind; simpl.
  - destruct (Equal k hk) eqn:Hk; simpl.
    + rewrite (Equal_true_l k hk hk' Hk). by destruct (Equal hk hk').
    + by destruct (Equal k hk') eqn:Hk'; destruct (Equal hk hk') eqn:Hh;
        try done; rewrite (Equal_true_r k hk hk' Hh) in Hk; congruence.
  - destruct (Equal k hk) eqn:Hk; simpl.
    + rewrite (Equal_true_l k hk hk' Hk). by destruct (Equal hk hk').
    + destruct (chain_set hk x n) as [n' added]; simpl in *.
      destruct (Equal k hk') eqn:Hk'; [|done].
      destruct (Equal hk hk') eqn:Hh; [|done].
      rewrite (Equal_true_r k hk hk' Hh) in Hk; congruence.
Qed.

Lemma chain_get_elem_of hk e v :
  chain_get hk e = Some v → ∃ k0, Equal k0 hk = true ∧ (k0, v) ∈ chain_entries e.
Proof.
  intros (pre & k0 & post & Heq & Hk0 & _)%chain_get_Some.
  exists k0. split; [done|]. rewrite Heq. set_solver.
Qed.
End chain_facts.

(** ** [Map.Set] and [Map.Get] *)

Section Map_facts.
Import key.
Context {HK : Type} `{HashableLaws HK} {V : Type}.
Implicit Types (hk : HK) (k : Key HK) (x v : V) (m o : Map HK V).

Lemma KeyEqual_refl k : KeyEqual k k = true.
Proof. destruct k; simpl; [by apply bool_decide_eq_true | apply Equal_refl]. Qed.

Lemma KeyEqual_sym k k' : KeyEqual k k' = true → KeyEqual k' k = true.
Proof.
  destruct k, k'; simpl; try done.
  - rewrite !bool_decide_eq_true. congruence.
  - apply Equal_sym.
Qed.

Lemma KeyEqual_trans k1 k2 k3 :
  KeyEqual k1 k2 = true → KeyEqual k2 k3 = true → KeyEqual k1 k3 = true.
Proof.
  destruct k1, k2, k3; simpl; try done.
  - rewrite !bool_decide_eq_true. congruence.
  - apply Equal_trans.
Qed.

(** Reading back after a write: the written value under every key equal to
    the one written, the old answer under the others. *)
Lemma Map_Get_Set m k k' x :
  Map_Get (Map_Set m k x) k' = if KeyEqual k k' then Some x else Map_Get m k'.
Proof.
  destruct k as [n|hk], k' as [n'|hk']; simpl.
  - case_bool_decide as Hn.
    + subst. apply alist_lookup_insert_eq.
    + by apply alist_lookup_insert_ne.
  - done.
  - by destruct (alist_lookup (Hash hk) (custom m)) as [e|];
      [destruct (chain_set hk x e)|].
  - destruct (decide (Hash hk = Hash hk')) as [Hh|Hh].
    + rewrite <- Hh.
      destruct (alist_lookup (Hash hk) (custom m)) as [e|] eqn:He.
      * pose proof (chain_get_set hk hk' x e) as Hgs.
        destruct (chain_set hk x e) as [e' added]; simpl in *.
        by rewrite alist_lookup_insert_eq.
      * simpl. rewrite alist_lookup_insert_eq. simpl. by destruct (Equal hk hk').
    + assert (Equal hk hk' = false) as ->.
      { destruct (Equal hk hk') eqn:Heq; [|done]. by apply Equal_Hash in Heq. }
      destruct (alist_lookup (Hash hk) (custom m)) as [e|] eqn:He.
      * destruct (chain_set hk x e) as [e' added]; simpl.
        by rewrite alist_lookup_insert_ne.
      * simpl. by rewrite alist_lookup_insert_ne.
Qed.

(** [Set] adds one to the length exactly when the key was absent. *)
Lemma Map_Set_length m k x :
  length (Map_Set m k x) =
  match Map_Get m k with Some _ => length m | None => S (length m) end.
Proof.
  destruct k as [n|hk]; simpl; [done|].
  destruct (alist_lookup (Hash hk) (custom m)) as [e|] eqn:He; [|done].
  pose proof (chain_set_added hk x e) as Hadd.
  destruct (chain_set hk x e) as [e' added]; simpl in *. rewrite Hadd.
  by destruct (chain_get hk e).
Qed.

Lemma Map_Get_proper m k k' :
  KeyEqual k k' = true → Map_Get m k = Map_Get m k'.
Proof.
  destruct k as [n|hk], k' as [n'|hk']; simpl; try done.
  - by intros ->%bool_decide_eq_true.
  - intros Heq. rewrite <- (Equal_Hash _ _ Heq).
    destruct (alist_lookup (Hash hk) (custom m)); [|done].
    by apply chain_get_proper.
Qed.

(** The bucket of a custom key after [Set]. *)
Lemma Map_Set_bucket m hk x :
  alist_lookup (Hash hk) (custom (Map_Set m (Custom hk) x)) =
  Some match alist_lookup (Hash hk) (custom m) with
       | Some e => (chain_set hk x e).1
       | None => Entry hk x None
       end.
Proof.
  simpl. destruct (alist_lookup (Hash hk) (custom m)) as [e|].
  - destruct (chain_set hk x e) as [e' added]; simpl. apply alist_lookup_insert_eq.
  - simpl. apply alist_lookup_insert_eq.
Qed.

(** C3. For a custom (hash-bucketed) key [hk]: the second of two [Set]s on
    [hk] leaves the length as the first one left it (and as it was before
    both when the key was already there), [Get] then returns the second
    value, and the node that matches [hk] stands where it stood in its
    chain, with every other node untouched. A [Set] whose key collides with
    a chain and is [Equal] to none of its keys appends one node at the tail
    of that chain and adds one to the length. *)
Theorem Map_Set_overwrite_and_append m hk v1 v2 :
  let m1 := Map_Set m (Custom hk) v1 in
  let m2 := Map_Set m1 (Custom hk) v2 in
  length m2 = length m1 ∧
  (is_Some (Map_Get m (Custom hk)) → length m2 = length m) ∧
  Map_Get m2 (Custom hk) = Some v2 ∧
  (∃ c1 c2 pre (k0 : HK) post,
      alist_lookup (Hash hk) (custom m1) = Some c1 ∧
      alist_lookup (Hash hk) (custom m2) = Some c2 ∧
      Forall (λ p, Equal p.1 hk = false) pre ∧ Equal k0 hk = true ∧
      chain_entries c1 = pre ++ (k0, v1) :: post ∧
      chain_entries c2 = pre ++ (k0, v2) :: post) ∧
  (∀ c, alist_lookup (Hash hk) (custom m) = Some c →
        Forall (λ p, Equal p.1 hk = false) (chain_entries c) →
        ∃ c', alist_lookup (Hash hk) (custom m1) = Some c' ∧
              chain_entries c' = chain_entries c ++ [(hk, v1)] ∧
              length m1 = S (length m)).
Proof.
  intros m1 m2.
  assert (Map_Get m1 (Custom hk) = Some v1) as Hget1.
  { unfold m1. by rewrite Map_Get_Set, KeyEqual_refl. }
  assert (length m2 = length m1) as Hlen.
  { unfold m2. by rewrite Map_Set_length, Hget1. }
  split_and!.
  - done.
  - intros [v0 Hv0]. rewrite Hlen. unfold m1. by rewrite Map_Set_length, Hv0.
  - unfold m2. by rewrite Map_Get_Set, KeyEqual_refl.
  - pose proof (Map_Set_bucket m hk v1) as Hb1. fold m1 in Hb1.
    pose proof (Map_Set_bucket m1 hk v2) as Hb2. fold m2 in Hb2.
    rewrite Hb1 in Hb2. simpl in Hget1. rewrite Hb1 in Hget1.
    apply chain_get_Some in Hget1 as (pre & k0 & post & Heq & Hk0 & Hpre).
    eexists _, _, pre, k0, post. split_and!; [done..|].
    by eapply chain_set_Some.
  - intros c Hc Hall. pose proof (Map_Set_bucket m hk v1) as Hb1. fold m1 in Hb1.
    rewrite Hc in Hb1. eexists. split; [done|].
    split; [by apply chain_set_None|].
    unfold m1. rewrite Map_Set_length. simpl. rewrite Hc.
    by apply chain_get_None in Hall as ->.
Qed.
End Map_facts.

(** ** [Map.Iter] *)

Section Iter_facts.
Import key.
Context {HK : Type} `{Hashable HK} {V St Err : Type}.
Implicit Types (visit : Key HK → V → St → St * option Err) (s : St).
Implicit Types (es pre post : list (Key HK * V)) (m : Map HK V).

Lemma visit_all_app visit es1 es2 s :
  visit_all visit (es1 ++ es2) s =
  match visit_all visit es1 s with
  | (s', Some err) => (s', Some err)
  | (s', None) => visit_all visit es2 s'
  end.
Proof.
  revert s. induction es1 as [|[k v] es1 IH]; intros s; simpl; [done|].
  destruct (visit k v s) as [s' [err|]]; [done | apply IH].
Qed.

Lemma iter_normal_visit_all visit ns s :
  iter_normal visit ns s = visit_all visit (map (λ en, (Native en.1, en.2)) ns) s.
Proof.
  revert s. induction ns as [|[n v] ns IH]; intros s; simpl; [done|].
  destruct (visit (Native n) v s) as [s' [err|]]; [done | apply IH].
Qed.

Lemma iter_chain_visit_all visit (e : entry HK V) s :
  iter_chain visit e s =
  visit_all visit (map (λ p, (Custom p.1, p.2)) (chain_entries e)) s.
Proof.
  revert s. induction e as [k v|k v n IH] using entry_chain_ind; intros s; simpl;
    destruct (visit (Custom k) v s) as [s' [err|]]; done.
Qed.

Lemma iter_custom_visit_all visit bs s :
  iter_custom visit bs s =
  visit_all visit
    (flat_map (λ b, map (λ p, (Custom p.1, p.2)) (chain_entries b.2)) bs) s.
Proof.
  revert s. induction bs as [|[h e] bs IH]; intros s; simpl; [done|].
  rewrite visit_all_app, iter_chain_visit_all.
  destruct (visit_all _ _ s) as [s' [err|]]; [done | apply IH].
Qed.

Lemma visit_all_ok visit es s :
  (∀ k v s0, (k, v) ∈ es → (visit k v s0).2 = None) →
  ∃ s', visit_all visit es s = (s', None).
Proof.
  revert s. induction es as [|[k v] es IH]; intros s Hok; simpl; [by eexists|].
  pose proof (Hok k v s ltac:(left)) as Hk.
  destruct (visit k v s) as [s1 r]. simpl in Hk. subst r.
  apply IH. intros k' v' s0 Hin. apply Hok. by right.
Qed.

(** The nested loops of [Iter] call the visitor on the entries, in turn. *)
Lemma Map_Iter_visit_all visit ns bs s :
  Map_Iter visit ns bs s = visit_all visit (entries_in ns bs) s.
Proof.
  unfold Map_Iter, entries_in.
  rewrite visit_all_app, iter_normal_visit_all.
  destruct (visit_all _ _ s) as [s' [err|]]; [done | apply iter_custom_visit_all].
Qed.

End Iter_facts.

Section Iter_logged.
Import key.
Context {HK : Type} `{Hashable HK} {V St Err : Type}.
Implicit Types (visit : Key HK → V → St → St * option Err) (s : St).
Implicit Types (es pre post : list (Key HK * V)) (m : Map HK V).

Lemma visit_all_logged_ok visit es s s' log :
  visit_all visit es s = (s', None) →
  visit_all (logged visit) es (s, log) = ((s', log ++ es), None).
Proof.
  revert s log. induction es as [|[k v] es IH]; intros s log; simpl.
  - intros [= ->]. by rewrite app_nil_r.
  - unfold logged at 1. simpl. destruct (visit k v s) as [s1 [err|]]; [done|].
    intros Hrest. rewrite (IH _ _ Hrest). by rewrite <- app_assoc.
Qed.

Lemma visit_all_logged_err visit pre k v post s s1 s2 err log :
  visit_all visit pre s = (s1, None) →
  visit k v s1 = (s2, Some err) →
  visit_all visit (pre ++ (k, v) :: post) s = (s2, Some err) ∧
  visit_all (logged visit) (pre ++ (k, v) :: post) (s, log)
  = ((s2, log ++ pre ++ [(k, v)]), Some err).
Proof.
  intros Hpre Hk. split.
  - rewrite visit_all_app, Hpre. simpl. by rewrite Hk.
  - rewrite visit_all_app, (visit_all_logged_ok _ _ _ _ log Hpre). simpl.
    unfold logged. simpl. rewrite Hk. by rewrite <- app_assoc.
Qed.

Lemma entries_in_Permutation m ns bs :
  range_order m ns bs → entries_in ns bs ≡ₚ entries m.
Proof.
  intros [Hns Hbs]. unfold entries, entries_in.
  apply Permutation_app; [by apply Permutation_map | by apply Permutation_flat_map].
Qed.

Lemma wfb_length m : wfb m = true → length m = List.length (entries m).
Proof.
  unfold wfb. rewrite !andb_true_iff. intros (_ & Hlen). by apply Nat.eqb_eq.
Qed.

(** C5. Whatever the order in which the runtime ranges over the two
    built-in maps: when the visitor returns nil on every entry in turn,
    [Iter] returns nil after calling it once on each entry, which is
    [m.length] calls on a Map that keeps its invariant; when the visitor
    returns an error on an entry, having returned nil on those before,
    [Iter] returns that very error, and the calls recorded are those up to
    and including the failing one: no later entry is visited. A visitor
    that returns nil on every entry whatever its state is a case of the
    first. *)
Theorem Map_Iter_visits m ns bs visit s :
  range_order m ns bs →
  (∀ s', visit_all visit (entries_in ns bs) s = (s', None) →
     Map_Iter visit ns bs s = (s', None) ∧
     Map_Iter (logged visit) ns bs (s, []) = ((s', entries_in ns bs), None) ∧
     entries_in ns bs ≡ₚ entries m ∧
     (wfb m = true → List.length (entries_in ns bs) = length m)) ∧
  (∀ pre k v post s1 s2 err,
     entries_in ns bs = pre ++ (k, v) :: post →
     visit_all visit pre s = (s1, None) →
     visit k v s1 = (s2, Some err) →
     Map_Iter visit ns bs s = (s2, Some err) ∧
     Map_Iter (logged visit) ns bs (s, []) = ((s2, pre ++ [(k, v)]), Some err)) ∧
  ((∀ k v s0, (k, v) ∈ entries m → (visit k v s0).2 = None) →
   ∃ s', Map_Iter visit ns bs s = (s', None) ∧
         Map_Iter (logged visit) ns bs (s, []) = ((s', entries_in ns bs), None)).
Proof.
  intros Hord. split_and!.
  - intros s' Hall. rewrite !Map_Iter_visit_all.
    pose proof (entries_in_Permutation m ns bs Hord) as Hperm.
    split_and!; [done | by apply (visit_all_logged_ok _ _ _ _ []) | done |].
    intros Hwf. rewrite (wfb_length m Hwf). by apply Permutation_length.
  - intros pre k v post s1 s2 err Hes Hpre Hk. rewrite !Map_Iter_visit_all, Hes.
    by apply (visit_all_logged_err visit pre k v post s s1 s2 err []).
  - intros Hok. destruct (visit_all_ok visit (entries_in ns bs) s) as [s' Hs'].
    { intros k v s0 Hin. apply Hok. by rewrite <- (entries_in_Permutation m ns bs). }
    exists s'. rewrite !Map_Iter_visit_all. split; [done|].
    by apply (visit_all_logged_ok _ _ _ _ []).
Qed.
End Iter_logged.

(** ** Lists without two related elements *)

Section pairwise_facts.
Context {A : Type} (eqb : A → A → bool).
Implicit Types (a : A) (l : list A).

Lemma pairwise_ne_cons a l :
  pairwise_ne eqb (a :: l) = true ↔
  (∀ b, b ∈ l → eqb a b = false) ∧ pairwise_ne eqb l = true.
Proof.
  simpl. rewrite andb_true_iff, forallb_forall.
  split; intros [Hhd Htl]; (split; [|done]).
  - intros b Hb%list_elem_of_In. apply Hhd in Hb. by apply negb_true_iff.
  - intros b Hb%list_elem_of_In. apply negb_true_iff. by apply Hhd.
Qed.

Lemma pairwise_ne_app l1 l2 :
  pairwise_ne eqb (l1 ++ l2) = true ↔
  pairwise_ne eqb l1 = true ∧ pairwise_ne eqb l2 = true ∧
  ∀ a b, a ∈ l1 → b ∈ l2 → eqb a b = false.
Proof.
  induction l1 as [|a l1 IH].
  - simpl. split; [intros ?; split_and!; [done..|] | tauto].
    intros a b Ha. by apply elem_of_nil in Ha.
  - rewrite <- app_comm_cons, !pairwise_ne_cons, IH. split.
    + intros (Hhd & H1 & H2 & Hx). split_and!; [|done..|].
      * intros b Hb. apply Hhd. apply elem_of_app. by left.
      * intros a' b [->|Ha']%elem_of_cons Hb.
        -- apply Hhd. apply elem_of_app. by right.
        -- by apply Hx.
    + intros ((Hhd & H1) & H2 & Hx). split_and!; [|done..|].
      * intros b [Hb|Hb]%elem_of_app; [by apply Hhd|]. apply Hx; [left | done].
      * intros a' b Ha' Hb. apply Hx; [by right | done].
Qed.

Lemma pairwise_ne_fmap {B : Type} (f : B → A) (eqb' : B → B → bool) (l : list B) :
  (∀ x y, eqb (f x) (f y) = eqb' x y) →
  pairwise_ne eqb (f <$> l) = pairwise_ne eqb' l.
Proof.
  intros Hf. induction l as [|b l IH]; csimpl; [done|]. rewrite IH. f_equal.
  clear IH. induction l as [|c l IHl]; csimpl; [done|]. by rewrite Hf, IHl.
Qed.

Lemma pairwise_ne_Permutation l l' :
  (∀ a b, eqb a b = false → eqb b a = false) →
  l ≡ₚ l' → pairwise_ne eqb l = true → pairwise_ne eqb l' = true.
Proof.
  intros Hsym Hperm. induction Hperm as [|a l l' Hperm IH|a b l|l1 l2 l3 _ IH1 _ IH2].
  - done.
  - rewrite !pairwise_ne_cons. intros [Hhd Htl]. split; [|by apply IH].
    intros b Hb. apply Hhd. by rewrite Hperm.
  - rewrite !pairwise_ne_cons. intros (Hb & Ha & Hl). split_and!; [| |done].
    + intros c [->|Hc]%elem_of_cons; [|by apply Ha].
      apply Hsym, Hb. left.
    + intros c Hc. apply Hb. by right.
  - auto.
Qed.
End pairwise_facts.

(** ** The invariant of a Map *)

Section wf_facts.
Import key.
Context {HK : Type} `{HashableLaws HK} {V : Type}.
Implicit Types (hk : HK) (k : Key HK) (x v : V) (m o : Map HK V).
Implicit Types (e : entry HK V).

Lemma KeyEqual_false_sym k k' : KeyEqual k k' = false → KeyEqual k' k = false.
Proof.
  intros Hne. destruct (KeyEqual k' k) eqn:Heq; [|done].
  apply KeyEqual_sym in Heq. congruence.
Qed.

Lemma elem_of_entries k v m :
  (k, v) ∈ entries m ↔
  (∃ n, k = Native n ∧ (n, v) ∈ normal m) ∨
  (∃ hk h e, k = Custom hk ∧ (h, e) ∈ custom m ∧ (hk, v) ∈ chain_entries e).
Proof.
  unfold entries, entries_in. rewrite elem_of_app, list_elem_of_fmap.
  rewrite list_elem_of_In, in_flat_map. split.
  - intros [([n v'] & [= -> ->] & Hin)|([h e] & Hin & Hch)]; [left; eauto|right].
    apply list_elem_of_In, list_elem_of_fmap in Hch as ([hk v'] & [= -> ->] & Hch).
    apply list_elem_of_In in Hin. by exists hk, h, e.
  - intros [(n & -> & Hin)|(hk & h & e & -> & Hin & Hch)].
    + left. by exists (n, v).
    + right. exists (h, e). split; [by apply list_elem_of_In|].
      apply list_elem_of_In, list_elem_of_fmap. by exists (hk, v).
Qed.

Lemma wfb_spec m :
  wfb m = true ↔
  NoDup (normal m).*1 ∧ NoDup (custom m).*1 ∧
  (∀ h e, (h, e) ∈ custom m → chain_wfb h e = true) ∧
  length m = List.length (entries m).
Proof.
  unfold wfb. rewrite !andb_true_iff, !bool_decide_eq_true, Nat.eqb_eq, forallb_forall.
  split.
  - intros (((? & ?) & Hch) & ?). split_and!; [done..| |done].
    intros h e Hin%list_elem_of_In. by apply Hch in Hin.
  - intros (? & ? & Hch & ?). split_and!; [done..| |done].
    intros [h e] Hin%list_elem_of_In. by apply Hch.
Qed.

Lemma chain_wfb_spec h e :
  chain_wfb h e = true ↔
  (∀ hk v, (hk, v) ∈ chain_entries e → Hash hk = h) ∧
  pairwise_ne Equal (chain_entries e).*1 = true.
Proof.
  unfold chain_wfb. rewrite andb_true_iff, forallb_forall.
  split; intros [Hh Hd]; (split; [|done]).
  - intros hk v Hin%list_elem_of_In. apply Hh in Hin. by apply Z.eqb_eq in Hin.
  - intros [hk v] Hin%list_elem_of_In. apply Z.eqb_eq. by eapply Hh.
Qed.

(** In a chain without two [Equal] keys, every node is the one its own key
    finds. *)
Lemma chain_get_distinct hk v e :
  pairwise_ne Equal (chain_entries e).*1 = true →
  (hk, v) ∈ chain_entries e → chain_get hk e = Some v.
Proof.
  intros Hd (pre & post & Heq)%list_elem_of_split.
  apply chain_get_Some. exists pre, hk, post. split_and!; [done | apply Equal_refl |].
  rewrite Heq, fmap_app, fmap_cons in Hd.
  apply pairwise_ne_app in Hd as (_ & _ & Hx).
  apply Forall_forall. intros [k0 v0] Hin. apply Hx; [|left].
  apply list_elem_of_fmap. by exists (k0, v0).
Qed.

(** On a Map that keeps the invariant, every entry is found under its own
    key. *)
Lemma entries_Map_Get m k v :
  wfb m = true → (k, v) ∈ entries m → Map_Get m k = Some v.
Proof.
  intros (Hn & Hc & Hch & _)%wfb_spec
    [(n & -> & Hin)|(hk & h & e & -> & Hin & Hk)]%elem_of_entries; simpl.
  - by apply alist_lookup_NoDup.
  - pose proof (Hch _ _ Hin) as [Hh Hd]%chain_wfb_spec.
    rewrite (Hh _ _ Hk), (alist_lookup_NoDup _ _ _ Hc Hin).
    by apply chain_get_distinct.
Qed.

(** What [Get] finds is the value of an entry whose key matches. *)
Lemma Map_Get_entries m k v :
  Map_Get m k = Some v → ∃ k', KeyEqual k' k = true ∧ (k', v) ∈ entries m.
Proof.
  destruct k as [n|hk]; simpl.
  - intros Hin%alist_lookup_elem_of. exists (Native n).
    split; [apply KeyEqual_refl|]. apply elem_of_entries. left. eauto.
  - destruct (alist_lookup (Hash hk) (custom m)) as [e|] eqn:He; [|done].
    intros (k0 & Hk0 & Hin)%chain_get_elem_of. exists (Custom k0). split; [done|].
    apply elem_of_entries. right. exists k0, (Hash hk), e.
    split_and!; [done| |done]. by apply alist_lookup_elem_of.
Qed.

Lemma chain_forall_spec (P : HK → V → bool) e :
  chain_forall P e = true ↔ ∀ hk v, (hk, v) ∈ chain_entries e → P hk v = true.
Proof.
  induction e as [k v|k v n IH] using entry_chain_ind; simpl.
  - rewrite andb_true_r. split.
    + by intros HP hk v' [[= -> ->]|?%elem_of_nil]%elem_of_cons.
    + intros HP. apply HP. left.
  - rewrite andb_true_iff, IH. split.
    + intros [HP Hn] hk v' [[= -> ->]|?]%elem_of_cons; [done | by apply Hn].
    + intros HP. split; [apply HP; left|]. intros hk v' Hin. apply HP. by right.
Qed.

Section Equal_spec.
Variable veq : V → V → bool.

(** [Map.Equal], read entry by entry. *)
Lemma Map_Equal_spec m o :
  Map_Equal veq m o = true ↔
  length m = length o ∧
  ∀ k v, (k, v) ∈ entries m → found_equal veq o k v = true.
Proof.
  unfold Map_Equal. rewrite !andb_true_iff, Nat.eqb_eq, !forallb_forall. split.
  - intros [[Hlen Hn] Hc]. split; [done|].
    intros k v [(n & -> & Hin)|(hk & h & e & -> & Hin & Hk)]%elem_of_entries.
    + by apply list_elem_of_In, Hn in Hin.
    + apply list_elem_of_In, Hc in Hin. simpl in Hin.
      by eapply chain_forall_spec in Hin.
  - intros [Hlen Hall]. split_and!; [done| |].
    + intros [n v] Hin%list_elem_of_In. apply Hall, elem_of_entries. left. eauto.
    + intros [h e] Hin%list_elem_of_In. apply chain_forall_spec. intros hk v Hk.
      apply Hall, elem_of_entries. right. by exists hk, h, e.
Qed.
End Equal_spec.
End wf_facts.

Section alist_insert_facts.
Context {A : Type} `{EqDecision A} {B : Type}.
Implicit Types (a : A) (b : B) (l : list (A * B)).

Lemma alist_insert_keys a b l :
  (alist_insert a b l).*1 =
  match alist_lookup a l with Some _ => l.*1 | None => l.*1 ++ [a] end.
Proof.
  destruct (alist_lookup a l) as [b0|] eqn:Hl.
  - apply alist_lookup_Some in Hl as (l1 & l2 & -> & Hni).
    rewrite (alist_insert_Some _ _ _ _ _ Hni). by rewrite !fmap_app.
  - rewrite (alist_insert_None _ _ _ Hl). by rewrite fmap_app.
Qed.

Lemma alist_insert_NoDup a b l : NoDup l.*1 → NoDup (alist_insert a b l).*1.
Proof.
  intros Hnd. rewrite alist_insert_keys.
  destruct (alist_lookup a l) as [b0|] eqn:Hl; [done|].
  apply alist_lookup_None in Hl. apply NoDup_app. split_and!; [done| |].
  - intros c Hc ->%list_elem_of_singleton. done.
  - apply NoDup_singleton.
Qed.

Lemma elem_of_alist_insert a b l p :
  p ∈ alist_insert a b l → p = (a, b) ∨ p ∈ l.
Proof.
  destruct (alist_lookup a l) as [b0|] eqn:Hl.
  - apply alist_lookup_Some in Hl as (l1 & l2 & -> & Hni).
    rewrite (alist_insert_Some _ _ _ _ _ Hni), !elem_of_app, !elem_of_cons. tauto.
  - rewrite (alist_insert_None _ _ _ Hl), elem_of_app, list_elem_of_singleton. tauto.
Qed.

Lemma alist_insert_length a b l :
  List.length (alist_insert a b l) =
  match alist_lookup a l with Some _ => List.length l | None => S (List.length l) end.
Proof.
  rewrite <- !(length_fmap fst), alist_insert_keys.
  destruct (alist_lookup a l); [done|]. rewrite length_app. simpl. lia.
Qed.
End alist_insert_facts.

Section Set_wf.
Import key.
Context {HK : Type} `{HashableLaws HK} {V : Type}.
Implicit Types (hk : HK) (k : Key HK) (x v : V) (m o : Map HK V).
Implicit Types (e : entry HK V).

Lemma chain_set_entries hk x e :
  match chain_get hk e with
  | Some v0 => ∃ pre (k0 : HK) post,
      chain_entries e = pre ++ (k0, v0) :: post ∧
      chain_entries (chain_set hk x e).1 = pre ++ (k0, x) :: post
  | None => chain_entries (chain_set hk x e).1 = chain_entries e ++ [(hk, x)] ∧
            Forall (λ p, Equal p.1 hk = false) (chain_entries e)
  end.
Proof.
  destruct (chain_get hk e) as [v0|] eqn:Hget.
  - apply chain_get_Some in Hget as (pre & k0 & post & Heq & Hk0 & Hpre).
    exists pre, k0, post. split; [done|]. by eapply chain_set_Some.
  - apply chain_get_None in Hget. split; [|done]. by apply chain_set_None.
Qed.

Lemma chain_set_wfb hk x e :
  chain_wfb (Hash hk) e = true → chain_wfb (Hash hk) (chain_set hk x e).1 = true.
Proof.
  rewrite !chain_wfb_spec. intros [Hh Hd]. pose proof (chain_set_entries hk x e) as Hset.
  destruct (chain_get hk e) as [v0|].
  - destruct Hset as (pre & k0 & post & Heq & ->). rewrite Heq in Hh, Hd. split.
    + intros k' v' Hin. apply elem_of_app in Hin as [Hin|Hin].
      * eapply Hh, elem_of_app. by left.
      * apply elem_of_cons in Hin as [[= -> ->]|Hin].
        -- apply (Hh k0 v0), elem_of_app. right. left.
        -- eapply Hh, elem_of_app. right. by right.
    + by rewrite fmap_app, fmap_cons in *.
  - destruct Hset as [-> Hall]. split.
    + intros k' v' [Hin|[= -> ->]%list_elem_of_singleton]%elem_of_app; eauto.
    + rewrite fmap_app. apply pairwise_ne_app. split_and!; [done..|].
      intros a b ([a' v'] & -> & Hin)%list_elem_of_fmap ->%list_elem_of_singleton.
      by apply (proj1 (Forall_forall _ _) Hall (a', v')).
Qed.

Lemma chain_set_length hk x e :
  List.length (chain_entries (chain_set hk x e).1) =
  match chain_get hk e with
  | Some _ => List.length (chain_entries e)
  | None => S (List.length (chain_entries e))
  end.
Proof.
  pose proof (chain_set_entries hk x e) as Hset. destruct (chain_get hk e).
  - destruct Hset as (pre & k0 & post & -> & ->). by rewrite !length_app.
  - destruct Hset as [-> _]. rewrite length_app. simpl. lia.
Qed.

(** [Set] adds an entry exactly when the key was absent. *)
Lemma Map_Set_entries_length m k x :
  List.length (entries (Map_Set m k x)) =
  match Map_Get m k with
  | Some _ => List.length (entries m)
  | None => S (List.length (entries m))
  end.
Proof.
  unfold entries, entries_in. rewrite !length_app, !length_map.
  destruct k as [n|hk]; simpl.
  - rewrite alist_insert_length. by destruct (alist_lookup n (normal m)).
  - destruct (alist_lookup (Hash hk) (custom m)) as [e|] eqn:He.
    + pose proof (chain_set_length hk x e) as Hlen.
      destruct (chain_set hk x e) as [e' added]; simpl in *.
      apply alist_lookup_Some in He as (l1 & l2 & Heq & Hni). rewrite Heq.
      rewrite (alist_insert_Some _ _ _ _ _ Hni), !flat_map_app, !length_app. simpl.
      rewrite !length_app, !length_map, Hlen. destruct (chain_get hk e); lia.
    + simpl. rewrite (alist_insert_None _ _ _ He), flat_map_app, length_app. simpl. lia.
Qed.

(** [Set] keeps the invariant. *)
Lemma Map_Set_wfb m k x : wfb m = true → wfb (Map_Set m k x) = true.
Proof.
  rewrite !wfb_spec. intros (Hn & Hc & Hch & Hlen). split_and!.
  - destruct k as [n|hk]; simpl; [by apply alist_insert_NoDup|].
    by destruct (alist_lookup (Hash hk) (custom m)) as [e|];
      [destruct (chain_set hk x e)|].
  - destruct k as [n|hk]; simpl; [done|].
    by destruct (alist_lookup (Hash hk) (custom m)) as [e|];
      [destruct (chain_set hk x e)|]; apply alist_insert_NoDup.
  - destruct k as [n|hk]; simpl; [done|]. intros h e.
    destruct (alist_lookup (Hash hk) (custom m)) as [e0|] eqn:He.
    + pose proof (chain_set_wfb hk x e0) as Hwf.
      destruct (chain_set hk x e0) as [e' added]; simpl in *.
      intros [[= -> ->]|Hin]%elem_of_alist_insert; [|by apply Hch].
      apply Hwf, Hch. by apply alist_lookup_elem_of.
    + simpl. intros [[= -> ->]|Hin]%elem_of_alist_insert; [|by apply Hch].
      unfold chain_wfb. simpl. by rewrite Z.eqb_refl.
  - rewrite Map_Set_entries_length, Map_Set_length, Hlen.
    by destruct (Map_Get m k).
Qed.

Lemma empty_wfb : wfb (@empty HK V) = true.
Proof. done. Qed.

Lemma formMap_snoc (l : list (Key HK * V)) k x :
  formMap (l ++ [(k, x)]) = Map_Set (formMap l) k x.
Proof. unfold formMap. by rewrite foldl_app. Qed.

(** Every Map that [formMap] builds keeps the invariant. *)
Lemma formMap_wfb (l : list (Key HK * V)) : wfb (formMap l) = true.
Proof.
  induction l as [|[k x] l IH] using rev_ind; [done|].
  rewrite formMap_snoc. by apply Map_Set_wfb.
Qed.

(** What [Get] finds in a Map built by [formMap] comes from a pair of the
    list. *)
Lemma Map_Get_formMap_inv (l : list (Key HK * V)) k v :
  Map_Get (formMap l) k = Some v → ∃ k0, (k0, v) ∈ l ∧ KeyEqual k0 k = true.
Proof.
  induction l as [|[k1 x1] l IH] using rev_ind; [by destruct k|].
  rewrite formMap_snoc, Map_Get_Set. destruct (KeyEqual k1 k) eqn:Hk1.
  - intros [= ->]. exists k1. split; [|done]. apply elem_of_app. right. left.
  - intros (k0 & Hin & Hk0)%IH. exists k0. split; [|done]. apply elem_of_app. by left.
Qed.

Lemma Map_Get_formMap_None (l : list (Key HK * V)) k :
  (∀ k' v', (k', v') ∈ l → KeyEqual k' k = false) → Map_Get (formMap l) k = None.
Proof.
  intros Hne. destruct (Map_Get (formMap l) k) as [v|] eqn:Hget; [|done].
  apply Map_Get_formMap_inv in Hget as (k0 & Hin & Hk0).
  apply Hne in Hin. congruence.
Qed.

(** When no two keys of the list are [Equal], each pair is found. *)
Lemma Map_Get_formMap (l : list (Key HK * V)) k0 v0 k :
  pairwise_ne KeyEqual l.*1 = true →
  (k0, v0) ∈ l → KeyEqual k0 k = true → Map_Get (formMap l) k = Some v0.
Proof.
  induction l as [|[k1 x1] l IH] using rev_ind; intros Hd Hin Hk0.
  - by apply elem_of_nil in Hin.
  - rewrite fmap_app in Hd. apply pairwise_ne_app in Hd as (Hd & _ & Hx).
    rewrite formMap_snoc, Map_Get_Set.
    apply elem_of_app in Hin as [Hin|[= -> ->]%list_elem_of_singleton].
    + assert (KeyEqual k0 k1 = false) as Hne.
      { apply Hx; [|left]. apply list_elem_of_fmap. by exists (k0, v0). }
      destruct (KeyEqual k1 k) eqn:Hk1; [|by apply IH].
      assert (KeyEqual k0 k1 = true); [|congruence].
      eapply KeyEqual_trans; [done|]. by apply KeyEqual_sym.
    + by rewrite Hk0.
Qed.

Lemma formMap_length (l : list (Key HK * V)) :
  pairwise_ne KeyEqual l.*1 = true → length (formMap l) = List.length l.
Proof.
  induction l as [|[k1 x1] l IH] using rev_ind; intros Hd; [done|].
  rewrite fmap_app in Hd. apply pairwise_ne_app in Hd as (Hd & _ & Hx).
  rewrite formMap_snoc, Map_Set_length, Map_Get_formMap_None.
  - rewrite IH, length_app by done. simpl. lia.
  - intros k' v' Hin. apply Hx; [|left]. apply list_elem_of_fmap. by exists (k', v').
Qed.
End Set_wf.

(** ** Counting: an injection between lists of the same length is onto *)

Section pigeonhole.
Context {A : Type} (eqb : A → A → bool).
Hypothesis eqb_sym : ∀ a b, eqb a b = true → eqb b a = true.
Hypothesis eqb_trans : ∀ a b c, eqb a b = true → eqb b c = true → eqb a c = true.

Lemma eqb_false_sym a b : eqb a b = false → eqb b a = false.
Proof using eqb_sym.
  intros Hne. destruct (eqb b a) eqn:Heq; [|done]. apply eqb_sym in Heq. congruence.
Qed.

Lemma pairwise_ne_pigeonhole (l1 l2 : list A) :
  pairwise_ne eqb l1 = true → pairwise_ne eqb l2 = true →
  List.length l2 ≤ List.length l1 →
  (∀ a, a ∈ l1 → ∃ b, b ∈ l2 ∧ eqb a b = true) →
  ∀ b, b ∈ l2 → ∃ a, a ∈ l1 ∧ eqb a b = true.
Proof using eqb_sym eqb_trans.
  revert l2. induction l1 as [|a l1 IH]; intros l2 Hd1 Hd2 Hlen Hinj b Hb.
  - destruct l2; simpl in Hlen; [by apply elem_of_nil in Hb | lia].
  - apply pairwise_ne_cons in Hd1 as [Ha Hd1].
    destruct (Hinj a) as (b0 & Hb0 & Hab0); [left|].
    apply list_elem_of_split in Hb0 as (p & q & ->).
    assert (pairwise_ne eqb (b0 :: p ++ q) = true) as Hd2'.
    { eapply pairwise_ne_Permutation; [apply eqb_false_sym| |exact Hd2].
      by rewrite Permutation_middle. }
    apply pairwise_ne_cons in Hd2' as [_ Hd2'].
    rewrite length_app in Hlen. simpl in Hlen.
    assert (∀ a', a' ∈ l1 → ∃ b', b' ∈ p ++ q ∧ eqb a' b' = true) as Hinj'.
    { intros a' Ha'. destruct (Hinj a') as (b' & Hb' & Hab'); [by right|].
      exists b'. split; [|done].
      rewrite elem_of_app, elem_of_cons in Hb'. rewrite elem_of_app.
      destruct Hb' as [?|[->|?]]; [by left| |by right].
      apply Ha in Ha'. assert (eqb a a' = true); [|congruence].
      eapply eqb_trans; [done|]. by apply eqb_sym. }
    specialize (IH (p ++ q) Hd1 Hd2').
    rewrite length_app in IH. specialize (IH ltac:(lia) Hinj').
    rewrite elem_of_app, elem_of_cons in Hb. destruct Hb as [Hb|[->|Hb]].
    + destruct (IH b) as (a' & Ha' & Hab'); [apply elem_of_app; by left|].
      exists a'. split; [by right | done].
    + exists a. split; [left | done].
    + destruct (IH b) as (a' & Ha' & Hab'); [apply elem_of_app; by right|].
      exists a'. split; [by right | done].
Qed.
End pigeonhole.

(** ** [Map.Equal] *)

Section Equal_facts.
Import key.
Context {HK : Type} `{HashableLaws HK} {V : Type}.
Implicit Types (hk : HK) (k : Key HK) (x v : V) (m o : Map HK V).
Implicit Types (e : entry HK V) (l : list (Key HK * V)).

Lemma NoDup_pairwise_ne (ns : list native) :
  NoDup ns → pairwise_ne (λ a b, bool_decide (a = b)) ns = true.
Proof.
  induction 1 as [|n ns Hn _ IH]; [done|]. apply pairwise_ne_cons. split; [|done].
  intros b Hb. apply bool_decide_eq_false. by intros ->.
Qed.

Lemma chains_keys_distinct (bs : list (Z * entry HK V)) :
  NoDup bs.*1 →
  (∀ h e, (h, e) ∈ bs → chain_wfb h e = true) →
  pairwise_ne Equal
    (flat_map (λ b : Z * entry HK V, (chain_entries b.2).*1) bs) = true.
Proof.
  induction bs as [|[h e] bs IH]; simpl; intros Hnd Hch; [done|].
  apply NoDup_cons in Hnd as [Hh Hnd].
  pose proof (Hch h e ltac:(left)) as [Hhash Hd]%chain_wfb_spec.
  apply pairwise_ne_app. split_and!; [done | |].
  - apply IH; [done|]. intros h' e' Hin. apply Hch. by right.
  - intros a b ([a' va] & -> & Ha)%list_elem_of_fmap Hb.
    apply list_elem_of_In, in_flat_map in Hb as ([h' e'] & Hin & Hb).
    apply list_elem_of_In in Hin.
    apply list_elem_of_In, list_elem_of_fmap in Hb as ([b' vb] & -> & Hb). simpl in *.
    destruct (Equal a' b') eqn:Heq; [|done]. apply Equal_Hash in Heq.
    pose proof (Hch h' e' ltac:(by right)) as [Hhash' _]%chain_wfb_spec.
    rewrite (Hhash _ _ Ha), (Hhash' _ _ Hb) in Heq. subst h'.
    exfalso. apply Hh. apply list_elem_of_fmap. by exists (h, e').
Qed.

Lemma entries_keys m :
  (entries m).*1 =
  (Native <$> (normal m).*1)
  ++ (Custom <$> flat_map (λ b : Z * entry HK V, (chain_entries b.2).*1) (custom m)).
Proof.
  unfold entries, entries_in. rewrite fmap_app. f_equal.
  - rewrite <- !list_fmap_compose. by apply list_fmap_ext.
  - induction (custom m) as [|[h e] bs IH]; simpl; [done|].
    rewrite !fmap_app, IH. f_equal.
    rewrite <- !list_fmap_compose. by apply list_fmap_ext.
Qed.

(** On a Map that keeps the invariant no two entries have [Equal] keys. *)
Lemma entries_keys_distinct m :
  wfb m = true → pairwise_ne KeyEqual (entries m).*1 = true.
Proof.
  intros (Hn & Hc & Hch & _)%wfb_spec. rewrite entries_keys.
  apply pairwise_ne_app. split_and!.
  - rewrite (pairwise_ne_fmap _ Native (λ a b, bool_decide (a = b))) by done.
    by apply NoDup_pairwise_ne.
  - rewrite (pairwise_ne_fmap _ Custom Equal) by done.
    by apply chains_keys_distinct.
  - by intros a b (n & -> & _)%list_elem_of_fmap (hk & -> & _)%list_elem_of_fmap.
Qed.

Section veq.
Variable veq : V → V → bool.

(** A Map that keeps the invariant equals itself as soon as its values
    equal themselves. *)
Lemma Map_Equal_refl m :
  wfb m = true →
  (∀ k v, (k, v) ∈ entries m → veq v v = true) →
  Map_Equal veq m m = true.
Proof.
  intros Hwf Hv. apply Map_Equal_spec. split; [done|]. intros k v Hin.
  unfold found_equal. rewrite (entries_Map_Get _ _ _ Hwf Hin). by eapply Hv.
Qed.

(** [Equal] can be turned around. *)
Lemma Map_Equal_sym m o :
  wfb m = true → wfb o = true →
  (∀ k v k' v', (k, v) ∈ entries m → (k', v') ∈ entries o →
                veq v v' = true → veq v' v = true) →
  Map_Equal veq m o = true → Map_Equal veq o m = true.
Proof.
  intros Hm Ho Hv [Hlen Hall]%Map_Equal_spec. apply Map_Equal_spec.
  split; [done|]. intros k' v' Hin'.
  pose (R := λ p q : Key HK * V, KeyEqual p.1 q.1).
  destruct (pairwise_ne_pigeonhole R) with (l1 := entries m) (l2 := entries o)
    (b := (k', v')) as ([k v] & Hin & Hkk'); unfold R; simpl.
  - intros ??. apply KeyEqual_sym.
  - intros ???. apply KeyEqual_trans.
  - rewrite <- (pairwise_ne_fmap KeyEqual fst) by done. by apply entries_keys_distinct.
  - rewrite <- (pairwise_ne_fmap KeyEqual fst) by done. by apply entries_keys_distinct.
  - rewrite <- (wfb_length m Hm), <- (wfb_length o Ho). lia.
  - intros [k v] Hin. specialize (Hall k v Hin). unfold found_equal in Hall.
    destruct (Map_Get o k) as [v''|] eqn:Hget; [|done].
    apply Map_Get_entries in Hget as (k'' & Hk'' & Hin'').
    exists (k'', v''). split; [done|]. by apply KeyEqual_sym.
  - done.
  - simpl in Hkk'. unfold found_equal.
    rewrite <- (Map_Get_proper m k k' Hkk'), (entries_Map_Get _ _ _ Hm Hin).
    specialize (Hall k v Hin). unfold found_equal in Hall.
    rewrite (Map_Get_proper o k k' Hkk'), (entries_Map_Get _ _ _ Ho Hin') in Hall.
    by eapply Hv.
Qed.

(** The Maps that [formMap] builds from the same pairs, with keys that
    are pairwise not [Equal], are [Equal] whatever the order of the [Set]s. *)
Lemma Map_Equal_formMap l1 l2 :
  pairwise_ne KeyEqual l1.*1 = true → same_pairs veq l1 l2 →
  Map_Equal veq (formMap l1) (formMap l2) = true.
Proof.
  intros Hd1 (l' & Hperm & Hall).
  assert (l2.*1 = l'.*1) as Hkeys.
  { clear Hperm. induction Hall as [|p q l' l2 [Hpq _] _ IH]; [done|].
    csimpl. by rewrite Hpq, IH. }
  assert (pairwise_ne KeyEqual l2.*1 = true) as Hd2.
  { rewrite Hkeys. eapply pairwise_ne_Permutation; [|by apply fmap_Permutation|done].
    intros ??. apply KeyEqual_false_sym. }
  apply Map_Equal_spec. split.
  - rewrite !formMap_length by done.
    rewrite (Permutation_length Hperm). by eapply Forall2_length.
  - intros k v Hin. apply entries_Map_Get in Hin; [|apply formMap_wfb].
    apply Map_Get_formMap_inv in Hin as (k0 & Hin & Hk0).
    rewrite Hperm in Hin. apply list_elem_of_lookup in Hin as [i Hi].
    destruct (Forall2_lookup_l _ _ _ _ _ Hall Hi) as ([k0' v'] & Hi' & Hk & Hv).
    simpl in *. subst k0'. unfold found_equal.
    rewrite (Map_Get_formMap l2 k0 v' k); [done..| |done].
    by eapply list_elem_of_lookup_2.
Qed.
End veq.
End Equal_facts.

(** ** Values and nested Maps *)

Section value_facts.
Import key.
Context {HK : Type} `{HashableLaws HK}.
Implicit Types (k : Key HK) (a b v : value HK) (m o : Map HK (value HK)).

(** Induction on a value, with the hypothesis for every value stored in a
    nested Map. *)
Lemma value_nested_ind (P : value HK → Prop) :
  P VNil →
  (∀ n, P (VNative n)) →
  (∀ m, (∀ k v, (k, v) ∈ entries m → P v) → P (VMap m)) →
  ∀ a, P a.
Proof.
  intros Hnil Hnat Hmap. fix IH 1. intros [|n|[ns cs len]]; [done..|].
  apply Hmap.
  assert (Forall (λ en, P en.2) ns) as Hns.
  { clear -IH. induction ns as [|[n v] ns IHns]; constructor; [apply IH | apply IHns]. }
  assert (Forall (λ b : Z * entry HK (value HK),
            Forall (λ p, P p.2) (chain_entries b.2)) cs) as Hcs.
  { clear -IH. induction cs as [|[h e] cs IHcs]; constructor; [|apply IHcs].
    simpl. revert e. fix IHe 1. intros [k v [n|]]; simpl.
    - constructor; [apply IH | apply IHe].
    - constructor; [apply IH | constructor]. }
  intros k v [(n & -> & Hin)|(hk & h & e & -> & Hin & Hk)]%elem_of_entries;
    simpl in *.
  - by apply (proj1 (Forall_forall _ _) Hns (n, v)).
  - apply (proj1 (Forall_forall _ _) Hcs) in Hin.
    by apply (proj1 (Forall_forall _ _) Hin (hk, v)).
Qed.

Lemma value_wfb_VMap m :
  value_wfb (VMap m) = true ↔
  wfb m = true ∧ ∀ k v, (k, v) ∈ entries m → value_wfb v = true.
Proof.
  simpl. rewrite !andb_true_iff, !forallb_forall. split.
  - intros [[Hwf Hn] Hc]. split; [done|].
    intros k v [(n & -> & Hin)|(hk & h & e & -> & Hin & Hk)]%elem_of_entries.
    + by apply list_elem_of_In, Hn in Hin.
    + apply list_elem_of_In, Hc in Hin. simpl in Hin.
      by eapply (chain_forall_spec (λ _ v, value_wfb v)) in Hin.
  - intros [Hwf Hall]. split_and!; [done| |].
    + intros [n v] Hin%list_elem_of_In. apply (Hall (Native n)), elem_of_entries.
      left. eauto.
    + intros [h e] Hin%list_elem_of_In.
      apply (chain_forall_spec (λ _ v, value_wfb v)). intros hk v Hk.
      apply (Hall (Custom hk)), elem_of_entries. right. by exists hk, h, e.
Qed.

(** A well-formed value equals itself. *)
Lemma value_eq_refl a : value_wfb a = true → value_eq a a = true.
Proof.
  induction a as [|n|m IH] using value_nested_ind; intros Hwf.
  - done.
  - simpl. by apply bool_decide_eq_true.
  - apply value_wfb_VMap in Hwf as [Hwf Hall].
    change (Map_Equal value_eq m m = true). apply Map_Equal_refl; [done|].
    intros k v Hin. eapply IH; [done|]. by eapply Hall.
Qed.

(** The equality of well-formed values can be turned around. *)
Lemma value_eq_sym a b :
  value_wfb a = true → value_wfb b = true →
  value_eq a b = true → value_eq b a = true.
Proof.
  revert b. induction a as [|n|m IH] using value_nested_ind;
    intros [|n'|o] Ha Hb; try done.
  - simpl. rewrite !bool_decide_eq_true. congruence.
  - apply value_wfb_VMap in Ha as [Hm Hma]. apply value_wfb_VMap in Hb as [Ho Hoa].
    change (Map_Equal value_eq m o = true → Map_Equal value_eq o m = true).
    apply Map_Equal_sym; [done..|].
    intros k v k' v' Hin Hin'. eapply IH; [done| |]; eauto.
Qed.

(** A Map built by [Set] from well-formed values is a well-formed value. *)
Lemma formMap_value_wfb (l : list (Key HK * value HK)) :
  forallb value_wfb l.*2 = true → value_wfb (VMap (formMap l)) = true.
Proof.
  intros Hwf. apply value_wfb_VMap. split; [apply formMap_wfb|].
  intros k v Hin. apply entries_Map_Get in Hin; [|apply formMap_wfb].
  apply Map_Get_formMap_inv in Hin as (k0 & Hin & _).
  rewrite forallb_forall in Hwf. apply Hwf, list_elem_of_In, list_elem_of_fmap.
  by exists (k0, v).
Qed.

End value_facts.

(** ** Package [strings] *)

Section strings_facts.
Open Scope string_scope.

Lemma append_String c (p r : string) : String c p ++ r = String c (p ++ r).
Proof. reflexivity. Qed.

Lemma strings_HasPrefix_spec (s p : string) :
  strings_HasPrefix s p = true ↔ ∃ rest, s = p ++ rest.
Proof.
  unfold strings_HasPrefix. revert s. induction p as [|c p IH]; intros s.
  - split; [by exists s | by destruct s].
  - destruct s as [|d s]; simpl.
    + split; [done | by intros [rest ?]].
    + setoid_rewrite append_String. destruct (ascii_dec c d) as [->|Hne].
      * rewrite IH. split; intros [rest Hrest]; exists rest; congruence.
      * split; [done | intros [rest Hrest]; congruence].
Qed.

Lemma strings_Split_length s sep :
  length (strings_Split s sep) = S (strings_Count s sep).
Proof.
  induction s as [|c s IH]; simpl; [done|].
  destruct (Ascii.eqb c sep); simpl; [by rewrite IH|].
  destruct (strings_Split s sep); simpl in *; [done | lia].
Qed.

Lemma strings_Join_Split s sep : strings_Join (strings_Split s sep) sep = s.
Proof.
  induction s as [|c s IH]; simpl; [done|].
  destruct (Ascii.eqb c sep) eqn:Hc.
  - apply Ascii.eqb_eq in Hc as ->.
    pose proof (strings_Split_length s sep) as Hlen.
    destruct (strings_Split s sep) as [|t ts]; [done|].
    simpl in *. by rewrite IH.
  - pose proof (strings_Split_length s sep) as Hlen.
    destruct (strings_Split s sep) as [|t [|t' ts]]; [done|..]; simpl in *;
      by rewrite <- IH.
Qed.

Lemma strings_Split_no_sep s sep :
  Forall (λ t, strings_Count t sep = 0) (strings_Split s sep).
Proof.
  induction s as [|c s IH]; simpl; [by repeat constructor|].
  destruct (Ascii.eqb c sep) eqn:Hc; [by constructor|].
  destruct (strings_Split s sep) as [|t ts]; [|apply Forall_cons in IH as [Ht Hts]];
    constructor; simpl; rewrite ?Hc; done.
Qed.
End strings_facts.

(** ** The functions of package [path] that read paths *)

Section path_read.
Context {HK : Type} `{key.Hashable HK} `{path.Sentinel HK}.
Implicit Types (a b : key.Path HK) (ai bi : key.Key HK).
#[local] Abbreviation KeyEqual := key.KeyEqual.
#[local] Abbreviation Wildcard := path.Wildcard.

Lemma Parent_take a : path.Parent a = take (length a - 1) a.
Proof.
  unfold path.Parent. case_decide as Hlen; [done|].
  destruct a; simpl in *; [done | lia].
Qed.

Lemma Parent_length a : length (path.Parent a) = length a - 1.
Proof. rewrite Parent_take, length_take. lia. Qed.

Lemma Parent_lookup a i : i < length a - 1 → path.Parent a !! i = a !! i.
Proof. intros Hi. rewrite Parent_take. by apply lookup_take_lt. Qed.

Lemma Base_last a : path.Base a = last a.
Proof.
  unfold path.Base. rewrite last_lookup. case_decide as Hlen.
  - f_equal. lia.
  - destruct a; simpl in *; [done | lia].
Qed.

Lemma hasPrefix_range_spec a b idx :
  Forall (λ i, i < length b ∧ i < length a) idx →
  ∃ r, path.hasPrefix_range a b idx = Some r ∧
       (r = true ↔ ∀ i bi ai, i ∈ idx → b !! i = Some bi → a !! i = Some ai →
                              KeyEqual bi ai = true).
Proof.
  induction idx as [|i idx IH]; intros Hidx.
  - exists true. split; [done|]. split; [|done]. intros _ i bi ai Hi.
    by apply elem_of_nil in Hi.
  - apply Forall_cons in Hidx as [[Hib Hia] Hidx].
    destruct (lookup_lt_is_Some_2 b i Hib) as [bi Hbi].
    destruct (lookup_lt_is_Some_2 a i Hia) as [ai Hai].
    cbn [path.hasPrefix_range]. rewrite Hbi, Hai. simpl.
    destruct (KeyEqual bi ai) eqn:Heq; simpl.
    + destruct (IH Hidx) as (r & -> & Hr). exists r. split; [done|].
      rewrite Hr. split.
      * intros Hall j bj aj [->|Hj]%elem_of_cons Hbj Haj; [congruence|eauto].
      * intros Hall j bj aj Hj. apply Hall. by right.
    + exists false. split; [done|]. split; [done|]. intros Hall.
      rewrite <- Heq. apply (Hall i); [left|done..].
Qed.

Lemma hasPrefix_spec a b :
  length b ≤ length a →
  ∃ r, path.hasPrefix a b = Some r ∧
       (r = true ↔ ∀ i bi ai, b !! i = Some bi → a !! i = Some ai →
                              KeyEqual bi ai = true).
Proof.
  intros Hlen. destruct (hasPrefix_range_spec a b (seq 0 (length b))) as (r & Hr & Hspec).
  { apply Forall_forall. intros i Hi%elem_of_seq. lia. }
  exists r. split; [done|]. rewrite Hspec. split.
  - intros Hall i bi ai Hbi. apply (Hall i); [|done]. apply elem_of_seq.
    apply lookup_lt_Some in Hbi. lia.
  - intros Hall i bi ai _. apply (Hall i).
Qed.

Lemma matchPrefix_range_spec a b idx :
  Forall (λ i, i < length b ∧ i < length a) idx →
  ∃ r, path.matchPrefix_range a b idx = Some r ∧
       (r = true ↔ ∀ i ai bi, i ∈ idx → a !! i = Some ai → b !! i = Some bi →
                              KeyEqual ai Wildcard = true ∨ KeyEqual bi ai = true).
Proof.
  induction idx as [|i idx IH]; intros Hidx.
  - exists true. split; [done|]. split; [|done]. intros _ i bi ai Hi.
    by apply elem_of_nil in Hi.
  - apply Forall_cons in Hidx as [[Hib Hia] Hidx].
    destruct (lookup_lt_is_Some_2 b i Hib) as [bi Hbi].
    destruct (lookup_lt_is_Some_2 a i Hia) as [ai Hai].
    destruct (IH Hidx) as (r & Hr & Hspec).
    cbn [path.matchPrefix_range]. rewrite Hai. simpl.
    destruct (KeyEqual ai Wildcard) eqn:Hw; simpl.
    + exists r. split; [done|]. rewrite Hspec. split.
      * intros Hall j aj bj [->|Hj]%elem_of_cons Haj Hbj; [|eauto].
        left. congruence.
      * intros Hall j aj bj Hj. apply Hall. by right.
    + rewrite Hbi. simpl. destruct (KeyEqual bi ai) eqn:Heq; simpl.
      * exists r. split; [done|]. rewrite Hspec. split.
        -- intros Hall j aj bj [->|Hj]%elem_of_cons Haj Hbj; [|eauto].
           right. congruence.
        -- intros Hall j aj bj Hj. apply Hall. by right.
      * exists false. split; [done|]. split; [done|]. intros Hall.
        destruct (Hall i ai bi) as [?|?]; [left|done..|congruence|congruence].
Qed.

Lemma matchPrefix_spec a b :
  length b ≤ length a →
  ∃ r, path.matchPrefix a b = Some r ∧
       (r = true ↔ ∀ i ai bi, a !! i = Some ai → b !! i = Some bi →
                              KeyEqual ai Wildcard = true ∨ KeyEqual bi ai = true).
Proof.
  intros Hlen.
  destruct (matchPrefix_range_spec a b (seq 0 (length b))) as (r & Hr & Hspec).
  { apply Forall_forall. intros i Hi%elem_of_seq. lia. }
  exists r. split; [done|]. rewrite Hspec. split.
  - intros Hall i ai bi Hai Hbi. apply (Hall i); [|done..]. apply elem_of_seq.
    apply lookup_lt_Some in Hbi. lia.
  - intros Hall i ai bi _. apply (Hall i).
Qed.

Lemma compareElementString_spec (al bl : key.Key HK) :
  path.compareElementString al bl = true ↔ path.element_matches al bl.
Proof.
  unfold path.compareElementString, path.element_matches.
  destruct (key.KeyString bl), (key.KeyString al); try done.
  apply strings_HasPrefix_spec.
Qed.
End path_read.

Section path_match.
Context {HK : Type} `{key.Hashable HK} `{path.Sentinel HK}.
Implicit Types (a b : key.Path HK) (ai bi al bl : key.Key HK).
#[local] Abbreviation KeyEqual := key.KeyEqual.
#[local] Abbreviation Wildcard := path.Wildcard.
#[local] Abbreviation str s := (key.Native (key.NStr s)).

(** The shape shared by [hasPrefixString] and [matchPrefixString]: the
    elements of [b] before the last are compared with those of [a]. *)
Lemma before_last_Parent (P : key.Key HK → key.Key HK → Prop) a b :
  length b ≤ length a →
  (∀ i ai bi, path.Parent a !! i = Some ai → path.Parent b !! i = Some bi → P ai bi) ↔
  (∀ i ai bi, i < length b - 1 → a !! i = Some ai → b !! i = Some bi → P ai bi).
Proof.
  intros Hlen. split.
  - intros Hall i ai bi Hi Hai Hbi. apply (Hall i); rewrite Parent_lookup; [done|lia|done|lia].
  - intros Hall i ai bi Hai Hbi.
    assert (i < length b - 1) as Hi.
    { apply lookup_lt_Some in Hbi. by rewrite Parent_length in Hbi. }
    rewrite Parent_lookup in Hai, Hbi by lia. by apply (Hall i).
Qed.

Lemma HasPrefixString_iff a b :
  ∃ r, path.HasPrefixString a b = Some r ∧
    (r = true ↔
     length b ≤ length a ∧
     (∀ i ai bi, i < length b - 1 → a !! i = Some ai → b !! i = Some bi →
                 KeyEqual bi ai = true) ∧
     (∀ al bl, a !! (length b - 1) = Some al → last b = Some bl →
               path.element_matches al bl)).
Proof.
  unfold path.HasPrefixString. destruct (Nat.leb_spec (length b) (length a)) as [Hlen|Hlen];
    [|exists false; split; [done|]; split; [done | lia]].
  unfold path.hasPrefixString. destruct (Nat.eqb_spec (length b) 0) as [Hb|Hb].
  { exists true. split; [done|]. split; [|done]. intros _.
    apply length_zero_iff_nil in Hb as ->. split_and!; [done| |done].
    intros i ai bi Hi. simpl in Hi. lia. }
  destruct (hasPrefix_spec (path.Parent a) (path.Parent b)) as (r0 & -> & Hr0).
  { rewrite !Parent_length. lia. }
  simpl.
  assert (r0 = true ↔ ∀ i ai bi, i < length b - 1 → a !! i = Some ai →
            b !! i = Some bi → KeyEqual bi ai = true) as Hr0'.
  { rewrite Hr0, <- (before_last_Parent (λ ai bi, KeyEqual bi ai = true) a b Hlen).
    split; intros Hall i ai bi ??; by apply (Hall i). }
  destruct r0; simpl.
  - destruct (lookup_lt_is_Some_2 a (length b - 1)) as [al Hal]; [lia|].
    destruct (lookup_lt_is_Some_2 b (length b - 1)) as [bl Hbl]; [lia|].
    rewrite Hal, Base_last, last_lookup. simpl.
    replace (pred (length b)) with (length b - 1) by lia. rewrite Hbl. simpl.
    eexists. split; [done|]. rewrite compareElementString_spec. split.
    + intros Hm. split_and!; [done|by apply Hr0'|]. intros al' bl' ??. by simplify_eq.
    + intros (_ & _ & Hlast). by apply Hlast.
  - exists false. split; [done|]. split; [done|]. intros (_ & Hall & _).
    by apply Hr0' in Hall.
Qed.

Lemma Match_iff a b :
  ∃ r, path.Match a b = Some r ∧
    (r = true ↔
     length a = length b ∧
     ∀ i ai bi, a !! i = Some ai → b !! i = Some bi →
                KeyEqual ai Wildcard = true ∨ KeyEqual bi ai = true).
Proof.
  unfold path.Match. destruct (Nat.eqb_spec (length a) (length b)) as [Hlen|Hlen];
    [|exists false; split; [done|]; split; [done | by intros [? _]]].
  destruct (matchPrefix_spec a b) as (r & -> & Hr); [lia|].
  exists r. split; [done|]. rewrite Hr. tauto.
Qed.

Lemma MatchPrefix_iff a b :
  ∃ r, path.MatchPrefix a b = Some r ∧
    (r = true ↔
     length b ≤ length a ∧
     ∀ i ai bi, a !! i = Some ai → b !! i = Some bi →
                KeyEqual ai Wildcard = true ∨ KeyEqual bi ai = true).
Proof.
  unfold path.MatchPrefix. destruct (Nat.leb_spec (length b) (length a)) as [Hlen|Hlen];
    [|exists false; split; [done|]; split; [done | lia]].
  destruct (matchPrefix_spec a b Hlen) as (r & -> & Hr).
  exists r. split; [done|]. rewrite Hr. tauto.
Qed.

Lemma MatchPrefixString_iff a b :
  ∃ r, path.MatchPrefixString a b = Some r ∧
    (r = true ↔
     length b ≤ length a ∧
     (∀ i ai bi, i < length b - 1 → a !! i = Some ai → b !! i = Some bi →
                 KeyEqual ai Wildcard = true ∨ KeyEqual bi ai = true) ∧
     (∀ al bl, a !! (length b - 1) = Some al → last b = Some bl →
               KeyEqual al Wildcard = true ∨ path.element_matches al bl)).
Proof.
  unfold path.MatchPrefixString.
  destruct (Nat.leb_spec (length b) (length a)) as [Hlen|Hlen];
    [|exists false; split; [done|]; split; [done | lia]].
  unfold path.matchPrefixString. destruct (Nat.eqb_spec (length b) 0) as [Hb|Hb].
  { exists true. split; [done|]. split; [|done]. intros _.
    apply length_zero_iff_nil in Hb as ->. split_and!; [done| |done].
    intros i ai bi Hi. simpl in Hi. lia. }
  destruct (matchPrefix_spec (path.Parent a) (path.Parent b)) as (r0 & -> & Hr0).
  { rewrite !Parent_length. lia. }
  simpl.
  rewrite (before_last_Parent
             (λ ai bi, KeyEqual ai Wildcard = true ∨ KeyEqual bi ai = true) a b Hlen)
    in Hr0.
  destruct r0; simpl.
  - destruct (lookup_lt_is_Some_2 a (length b - 1)) as [al Hal]; [lia|].
    destruct (lookup_lt_is_Some_2 b (length b - 1)) as [bl Hbl]; [lia|].
    rewrite Hal. simpl. destruct (KeyEqual al Wildcard) eqn:Hw.
    + exists true. split; [done|]. split; [|done]. intros _.
      split_and!; [done|by apply Hr0|]. intros al' bl' ??. left. by simplify_eq.
    + rewrite Base_last, last_lookup.
      replace (pred (length b)) with (length b - 1) by lia. rewrite Hbl. simpl.
      eexists. split; [done|]. rewrite compareElementString_spec. split.
      * intros Hm. split_and!; [done|by apply Hr0|]. intros al' bl' ??.
        right. by simplify_eq.
      * intros (_ & _ & Hlast). by destruct (Hlast al bl) as [?|?]; [..|congruence|].
  - exists false. split; [done|]. split; [done|]. intros (_ & Hall & _).
    by apply Hr0 in Hall.
Qed.

(** C1. [HasPrefixString(a, b)] returns, and returns true exactly when [b]
    is no longer than [a], every element of [b] before the last is [Equal]
    to the element of [a] at its index, and the last element of [b] matches
    the element of [a] at its index: as a prefix of it when both wrap
    strings, by [Equal] otherwise. An empty [b] always matches. *)
Theorem HasPrefixString_spec a b :
  (∃ r, path.HasPrefixString a b = Some r ∧
     (r = true ↔
      length b ≤ length a ∧
      (∀ i ai bi, i < length b - 1 → a !! i = Some ai → b !! i = Some bi →
                  KeyEqual bi ai = true) ∧
      (∀ al bl, a !! (length b - 1) = Some al → last b = Some bl →
                match key.KeyString bl, key.KeyString al with
                | Some bStr, Some aStr => ∃ rest, aStr = (bStr ++ rest)%string
                | _, _ => KeyEqual bl al = true
                end))) ∧
  path.HasPrefixString a [] = Some true ∧
  path.HasPrefixString [str "net"; str "iface0"] [str "net"; str "ifa"]
    = Some true ∧
  path.HasPrefixString [str "net"; str "iface0"] [str "net"; str "eth"]
    = Some false.
Proof.
  split_and!; [apply HasPrefixString_iff | done..].
Qed.
End path_match.

Section path_wildcard.
Context {HK : Type} `{key.Hashable HK} `{path.Sentinel HK}.
Implicit Types (a b : key.Path HK) (ai bi al bl : key.Key HK).
#[local] Abbreviation KeyEqual := key.KeyEqual.
#[local] Abbreviation Wildcard := path.Wildcard.
#[local] Abbreviation str s := (key.Native (key.NStr s) : key.Key WildcardType).
#[local] Abbreviation star := (path.Wildcard : key.Key WildcardType).

(** C2. [Match(a, b)] returns true exactly when the two paths have the
    same length and at every index the element of [a] is [Equal] to the
    [Wildcard] or the element of [b] is [Equal] to it; [MatchPrefix] asks
    for [len(b) <= len(a)] instead and checks the indices of [b]. *)
Theorem Match_MatchPrefix_spec a b :
  (∃ r, path.Match a b = Some r ∧
     (r = true ↔
      length a = length b ∧
      ∀ i ai bi, a !! i = Some ai → b !! i = Some bi →
                 KeyEqual ai Wildcard = true ∨ KeyEqual bi ai = true)) ∧
  (∃ r, path.MatchPrefix a b = Some r ∧
     (r = true ↔
      length b ≤ length a ∧
      ∀ i ai bi, a !! i = Some ai → b !! i = Some bi →
                 KeyEqual ai Wildcard = true ∨ KeyEqual bi ai = true)) ∧
  path.MatchPrefix [star; str "b"] [str "a"; str "b"] = Some true ∧
  path.Match [star; str "b"] [str "a"; str "c"] = Some false.
Proof.
  split_and!; [apply Match_iff | apply MatchPrefix_iff | done..].
Qed.

(** C8, as the code has it. Only the elements of the pattern [a] are
    compared with the [Wildcard]. In [Match] and [MatchPrefix] at every
    index, and in [MatchPrefixString] at every index before the last of
    [b], the test is [a[i].Equal(Wildcard) || b[i].Equal(a[i])]. At the last
    index of [b], [MatchPrefixString] tests
    [a[i].Equal(Wildcard) || compareElementString(a[i], b[i])], which
    accepts a string of [b] that is a prefix of the string of [a]. A
    [Wildcard] in [b] is an ordinary key, and the three relations are not
    symmetric. *)
Theorem Wildcard_only_in_pattern a b :
  (∃ r, path.Match a b = Some r ∧
     (r = true ↔
      length a = length b ∧
      ∀ i ai bi, a !! i = Some ai → b !! i = Some bi →
                 KeyEqual ai Wildcard = true ∨ KeyEqual bi ai = true)) ∧
  (∃ r, path.MatchPrefix a b = Some r ∧
     (r = true ↔
      length b ≤ length a ∧
      ∀ i ai bi, a !! i = Some ai → b !! i = Some bi →
                 KeyEqual ai Wildcard = true ∨ KeyEqual bi ai = true)) ∧
  (∃ r, path.MatchPrefixString a b = Some r ∧
     (r = true ↔
      length b ≤ length a ∧
      (∀ i ai bi, i < length b - 1 → a !! i = Some ai → b !! i = Some bi →
                  KeyEqual ai Wildcard = true ∨ KeyEqual bi ai = true) ∧
      (∀ al bl, a !! (length b - 1) = Some al → last b = Some bl →
                KeyEqual al Wildcard = true ∨
                path.compareElementString al bl = true))) ∧
  (path.Match [star] [str "a"] = Some true ∧
   path.Match [str "a"] [star] = Some false) ∧
  (path.MatchPrefix [star] [str "a"] = Some true ∧
   path.MatchPrefix [str "a"] [star] = Some false) ∧
  (path.MatchPrefixString [star] [str "a"] = Some true ∧
   path.MatchPrefixString [str "a"] [star] = Some false).
Proof.
  split_and!; [apply Match_iff | apply MatchPrefix_iff | | done..].
  destruct (MatchPrefixString_iff a b) as (r & Hr & Hspec).
  exists r. split; [done|]. rewrite Hspec.
  by setoid_rewrite compareElementString_spec.
Qed.
End path_wildcard.

(** ** Slices and the heap *)

Section slices_facts.
Context {HK : Type}.
Implicit Types (h : slices.heap HK) (s : slices.slice) (cs ds : list (slices.cell HK)).
Implicit Types (c : slices.cell HK) (ks : key.Path HK).

Lemma make_spec n h :
  let a := fresh (dom h) in
  slices.make n h = Some (slices.Slice a 0 n, <[a := replicate n None]> h) ∧
  h !! a = None.
Proof.
  intros a. split; [done|]. apply not_elem_of_dom. apply is_fresh.
Qed.

Lemma store_list_spec a off n i ds cs h :
  h !! a = Some cs → off + n ≤ length cs → i + length ds ≤ n →
  slices.store_list (slices.Slice a off n) i ds h
  = Some ((), <[a := take (off + i) cs ++ ds ++ drop (off + i + length ds) cs]> h).
Proof.
  revert i cs h. induction ds as [|d ds IH]; intros i cs h Ha Hn Hi; simpl in *.
  - unfold slices.ret. rewrite Nat.add_0_r, take_drop. by rewrite insert_id.
  - unfold slices.bind, slices.store. rewrite Ha. simpl.
    rewrite decide_True by lia.
    rewrite (IH (S i) (<[off + i := d]> cs)); [|by rewrite lookup_insert_eq|
      by rewrite length_insert|lia].
    rewrite insert_insert_eq. do 3 f_equal.
    replace (off + S i) with (S (off + i)) by lia.
    rewrite (take_S_r _ _ d) by (apply list_lookup_insert_eq; lia).
    rewrite take_insert_ge by lia. rewrite drop_insert_lt by lia.
    rewrite <- app_assoc. simpl. do 4 f_equal. lia.
Qed.

Lemma contents_insert_ne h a cs s :
  h !! a = None → is_Some (slices.contents h s) →
  slices.contents (<[a := cs]> h) s = slices.contents h s.
Proof.
  intros Ha [ds Hs]. destruct s as [|a' off n]; [done|]. simpl in *.
  destruct (decide (a = a')) as [->|Hne]; [by rewrite Ha in Hs|].
  by rewrite lookup_insert_ne.
Qed.

Lemma contents_insert_eq h a cs n :
  n = length cs → slices.contents (<[a := cs]> h) (slices.Slice a 0 n) = Some cs.
Proof.
  intros ->. simpl. rewrite lookup_insert_eq. simpl.
  rewrite decide_True by lia. by rewrite drop_0, firstn_all.
Qed.

Lemma contents_length h s cs : slices.contents h s = Some cs → length cs = slices.len s.
Proof.
  destruct s as [|a off n]; simpl; [by intros [= <-]|].
  destruct (h !! a) as [ds|]; simpl; [|done]. case_decide; [|done].
  intros [= <-]. rewrite length_take, length_drop. lia.
Qed.

Lemma keys_contents h s ks :
  slices.keys h s = Some ks ↔ slices.contents h s = Some (Some <$> ks).
Proof.
  unfold slices.keys. destruct (slices.contents h s) as [cs|]; simpl; [|done].
  split.
  - intros Hks%mapM_Some. f_equal. clear -Hks.
    induction Hks as [|c k cs ks Hk _ IH]; [done|].
    simpl in Hk. subst c. csimpl. by rewrite IH.
  - intros [= ->]. apply mapM_Some. apply Forall2_fmap_l, Forall_Forall2_diag.
    by apply Forall_true.
Qed.

Lemma keys_length h s ks : slices.keys h s = Some ks → length ks = slices.len s.
Proof.
  intros Hc%keys_contents%contents_length. by rewrite length_fmap in Hc.
Qed.

(** [copy] into a slice of a fresh array that is long enough. *)
Lemma copy_spec a off n src cs ds h :
  h !! a = Some ds → off + n ≤ length ds →
  slices.contents h src = Some cs → length cs ≤ n →
  slices.copy (slices.Slice a off n) src h
  = Some (length cs, <[a := take off ds ++ cs ++ drop (off + length cs) ds]> h).
Proof.
  intros Ha Hn Hsrc Hlen. unfold slices.copy. rewrite Hsrc. simpl. rewrite Ha. simpl.
  rewrite decide_True by done.
  pose proof (contents_length _ _ _ Hsrc) as Hl. rewrite <- Hl.
  rewrite Nat.min_r by lia. by rewrite firstn_all.
Qed.
End slices_facts.

(** ** The functions of package [path] that build paths *)

Section path_build.
Context {HK : Type} `{key.Hashable HK} `{path.Sentinel HK}.
Implicit Types (h : slices.heap HK) (s : slices.slice) (cs ds : list (slices.cell HK)).
Implicit Types (ks : key.Path HK) (elements : list (key.iface HK)).

Lemma frame_insert h a cs : h !! a = None → slices.frame h (<[a := cs]> h).
Proof.
  intros Ha s ds Hs. rewrite <- Hs. apply contents_insert_ne; [done|]. by rewrite Hs.
Qed.

Lemma frame_keys h h' s ks : slices.frame h h' → slices.keys h s = Some ks → slices.keys h' s = Some ks.
Proof. rewrite !keys_contents. intros Hf. apply Hf. Qed.

Lemma copyElements_from_store_list dest i elements h :
  path.copyElements_from dest i elements h
  = slices.store_list dest i ((λ e, Some (path.wrap e)) <$> elements) h.
Proof.
  revert i h. induction elements as [|e elements IH]; intros i h; csimpl; [done|].
  unfold slices.bind. destruct (slices.store dest i _ h) as [[[] h']|]; [apply IH|done].
Qed.

Lemma FromString_fill_store_list (result : slices.slice) i (tokens : list string) h :
  path.FromString_fill (HK:=HK) result i tokens h
  = slices.store_list result i
      ((λ t, Some (key.New (key.INative (key.NStr t)))) <$> tokens) h.
Proof.
  revert i h. induction tokens as [|t tokens IH]; intros i h; csimpl; [done|].
  unfold slices.bind. destruct (slices.store result i _ h) as [[[] h']|]; [apply IH|done].
Qed.

(** Filling a slice that [make] has just allocated. *)
Lemma make_store_list h cs :
  let a := fresh (dom h) in
  slices.store_list (slices.Slice a 0 (length cs)) 0 cs
    (<[a := replicate (length cs) None]> h)
  = Some ((), <[a := cs]> h).
Proof.
  intros a. rewrite (store_list_spec a 0 (length cs) 0 cs (replicate (length cs) None));
    [|by rewrite lookup_insert_eq|by rewrite length_replicate|lia].
  rewrite insert_insert_eq. simpl. rewrite drop_ge by (rewrite length_replicate; lia).
  by rewrite app_nil_r.
Qed.

Lemma New_spec elements h :
  let a := fresh (dom h) in
  let ks := path.wrap <$> elements in
  path.New elements h = Some (slices.Slice a 0 (length elements), <[a := Some <$> ks]> h).
Proof.
  intros a ks.
  pose proof (make_spec (length elements) h) as [Hmake _]. simpl in Hmake. fold a in Hmake.
  pose proof (make_store_list h ((λ e, Some (path.wrap e)) <$> elements)) as Hfill.
  rewrite length_fmap in Hfill. simpl in Hfill. fold a in Hfill.
  unfold path.New, slices.bind, path.copyElements. rewrite Hmake.
  rewrite copyElements_from_store_list, Hfill.
  unfold ks. by rewrite <- list_fmap_compose.
Qed.

Lemma Append_run path elements cs h :
  slices.contents h path = Some cs → elements ≠ [] →
  let a := fresh (dom h) in
  path.Append path elements h
  = Some (slices.Slice a 0 (length cs + length elements),
          <[a := cs ++ ((λ e, Some (path.wrap e)) <$> elements)]> h).
Proof.
  intros Hp Hne a. unfold path.Append.
  destruct elements as [|e0 els]; [done|]. set (elements := e0 :: els) in *.
  replace (Nat.eqb (length elements) 0) with false by done.
  pose proof (contents_length _ _ _ Hp) as Hlen. rewrite <- Hlen.
  set (n := length cs). set (m := length elements).
  pose proof (make_spec (n + m) h) as [Hmake Ha]. simpl in Hmake, Ha. fold a in Hmake, Ha.
  unfold slices.bind. rewrite Hmake.
  rewrite (copy_spec a 0 (n + m) path cs (replicate (n + m) None));
    [|by rewrite lookup_insert_eq|by rewrite length_replicate|
     by rewrite contents_insert_ne; [|done|rewrite Hp]|unfold n; lia].
  rewrite insert_insert_eq. unfold slices.from. rewrite decide_True by lia.
  unfold path.copyElements. rewrite copyElements_from_store_list.
  rewrite (store_list_spec _ _ _ _ _ (cs ++ drop n (replicate (n + m) None)));
    [|by rewrite lookup_insert_eq|
     rewrite length_app, length_drop, length_replicate; unfold n; lia|
     rewrite length_fmap; unfold m; lia].
  rewrite insert_insert_eq. unfold slices.ret. do 3 f_equal.
  rewrite take_app_length' by (unfold n; lia). f_equal.
  rewrite length_fmap. rewrite drop_ge; [by rewrite app_nil_r|].
  rewrite length_app, length_drop, length_replicate. unfold n, m. lia.
Qed.

(** C7. [Append] with no element returns the very slice it was given and
    touches nothing. With elements it returns a slice of a new array, as
    long as the path and the elements together, that holds the keys of the
    path followed by the wrapped elements; the path and every other slice
    keep their cells. *)
Theorem Append_spec h path ks elements :
  slices.keys h path = Some ks →
  path.Append path [] h = Some (path, h) ∧
  (elements ≠ [] →
   ∃ a h',
     path.Append path elements h
       = Some (slices.Slice a 0 (length ks + length elements), h') ∧
     h !! a = None ∧
     slices.keys h' (slices.Slice a 0 (length ks + length elements))
       = Some (ks ++ (path.wrap <$> elements)) ∧
     slices.keys h' path = Some ks ∧
     slices.frame h h').
Proof.
  intros Hks. split; [done|]. intros Hne.
  pose proof (proj1 (keys_contents _ _ _) Hks) as Hcs.
  pose proof (Append_run path elements _ h Hcs Hne) as Hrun. simpl in Hrun.
  rewrite length_fmap in Hrun.
  pose proof (make_spec 0 h) as [_ Ha]. simpl in Ha.
  eexists _, _. split; [exact Hrun|]. split; [done|].
  assert (slices.frame h (<[fresh (dom h) := (Some <$> ks) ++
            ((λ e, Some (path.wrap e)) <$> elements)]> h)) as Hframe
    by by apply frame_insert.
  split_and!; [|by eapply frame_keys|done].
  apply keys_contents. rewrite contents_insert_eq.
  - by rewrite fmap_app, <- list_fmap_compose.
  - by rewrite length_app, !length_fmap.
Qed.
End path_build.

Section path_join.
Context {HK : Type} `{key.Hashable HK} `{path.Sentinel HK}.
Implicit Types (h : slices.heap HK) (s : slices.slice) (cs ds : list (slices.cell HK)).
Implicit Types (ks : key.Path HK) (paths : list slices.slice).

Lemma Join_total_length h paths (css : list (list (slices.cell HK))) n0 :
  Forall2 (λ p cs, slices.contents h p = Some cs) paths css →
  foldl (λ n path, n + slices.len path) n0 paths = n0 + length (concat css).
Proof.
  intros Hall. revert n0. induction Hall as [|p cs paths css Hp _ IH]; intros n0; simpl.
  - lia.
  - rewrite IH, length_app, (contents_length _ _ _ Hp). lia.
Qed.

(** The loop of [Join] lays the paths one after the other in the new
    array. *)
Lemma Join_copy_spec a n h0 paths (css : list (list (slices.cell HK))) :
  h0 !! a = None →
  Forall2 (λ p cs, slices.contents h0 p = Some cs) paths css →
  ∀ i ds, length ds = n → i + length (concat css) ≤ n →
  path.Join_copy (slices.Slice a 0 n) i paths (<[a := ds]> h0)
  = Some ((), <[a := take i ds ++ concat css ++ drop (i + length (concat css)) ds]> h0).
Proof.
  intros Ha Hall. induction Hall as [|p cs paths css Hp _ IH]; intros i ds Hds Hi;
    simpl in *.
  - unfold slices.ret. by rewrite Nat.add_0_r, take_drop.
  - rewrite length_app in Hi. unfold slices.bind, slices.from.
    rewrite decide_True by lia.
    rewrite (copy_spec a (0 + i) (n - i) p cs ds);
      [|by rewrite lookup_insert_eq|lia|
       by rewrite contents_insert_ne; [|done|rewrite Hp]|lia].
    rewrite insert_insert_eq. simpl.
    rewrite IH; [|rewrite !length_app, length_take, length_drop; lia|lia].
    do 3 f_equal.
    rewrite (take_app_add' (take i ds)) by (rewrite length_take; lia).
    rewrite take_app_length, <- !app_assoc. do 3 f_equal.
    rewrite length_app.
    replace (i + length cs + length (concat css))
      with (i + (length cs + length (concat css))) by lia.
    rewrite (drop_app_add' (take i ds)) by (rewrite length_take; lia).
    rewrite drop_app_add' by done. rewrite drop_drop. f_equal. lia.
Qed.

Lemma Join_run h paths (css : list (list (slices.cell HK))) :
  Forall2 (λ p cs, slices.contents h p = Some cs) paths css →
  path.Join paths h =
  if Nat.eqb (length (concat css)) 0 then Some (slices.Nil, h)
  else Some (slices.Slice (fresh (dom h)) 0 (length (concat css)),
             <[fresh (dom h) := concat css]> h).
Proof.
  intros Hall. unfold path.Join. rewrite (Join_total_length h paths css 0 Hall). simpl.
  destruct (Nat.eqb_spec (length (concat css)) 0) as [Hn|Hn]; [done|].
  pose proof (make_spec (length (concat css)) h) as [Hmake Ha]. simpl in Hmake, Ha.
  unfold slices.bind. rewrite Hmake.
  rewrite (Join_copy_spec _ _ h paths css Ha Hall);
    [|by rewrite length_replicate|lia].
  unfold slices.ret. do 3 f_equal. simpl.
  rewrite drop_ge by (rewrite length_replicate; lia). by rewrite app_nil_r.
Qed.

(** C9. [Join] returns a path that holds the keys of its arguments, one
    argument after the other, so that its length is the sum of theirs; the
    arguments and every other slice keep their cells. Without arguments or
    with empty paths only it returns nil. *)
Theorem Join_spec h paths (kss : list (key.Path HK)) :
  Forall2 (λ p ks, slices.keys h p = Some ks) paths kss →
  ∃ res h',
    path.Join paths h = Some (res, h') ∧
    slices.keys h' res = Some (concat kss) ∧
    slices.len res = sum_list (length <$> kss) ∧
    slices.frame h h' ∧
    (Forall (λ ks, ks = []) kss → res = slices.Nil ∧ h' = h).
Proof.
  intros Hall.
  set (cells := λ ks : key.Path HK, Some <$> ks).
  assert (Forall2 (λ p cs, slices.contents h p = Some cs) paths (cells <$> kss))
    as Hcs.
  { apply Forall2_fmap_r. eapply Forall2_impl; [done|]. intros p ks.
    by rewrite keys_contents. }
  pose proof (Join_run h paths _ Hcs) as Hrun.
  assert (concat (cells <$> kss) = Some <$> concat kss) as Hcat.
  { clear. induction kss as [|ks kss IH]; csimpl; [done|]. by rewrite fmap_app, IH. }
  rewrite Hcat, length_fmap in Hrun.
  assert (length (concat kss) = sum_list (length <$> kss)) as Hsum.
  { clear. induction kss as [|ks kss IH]; csimpl; [done|]. rewrite length_app. lia. }
  assert (Forall (λ ks, ks = []) kss → concat kss = []) as Hnil.
  { clear. induction 1 as [|ks kss -> _ IH]; [done|]. done. }
  destruct (Nat.eqb_spec (length (concat kss)) 0) as [Hn|Hn].
  - apply length_zero_iff_nil in Hn as Hn'. exists slices.Nil, h.
    split_and!; [exact Hrun|by rewrite Hn'|simpl; lia|by intros ??|done].
  - pose proof (make_spec 0 h) as [_ Ha]. simpl in Ha.
    eexists _, _. split; [exact Hrun|]. split_and!.
    + apply keys_contents, contents_insert_eq. by rewrite length_fmap.
    + simpl. lia.
    + by apply frame_insert.
    + intros Hempty%Hnil. rewrite Hempty in Hn. done.
Qed.
End path_join.

Section path_FromString.
Context {HK : Type} `{key.Hashable HK} `{path.Sentinel HK}.
Implicit Types (h : slices.heap HK) (str : string).
#[local] Abbreviation token := (λ t : string, key.New (HK:=HK) (key.INative (key.NStr t))).
Open Scope string_scope.

Lemma strings_Split_app_sep (s1 s2 : string) sep :
  strings_Split (s1 ++ String sep s2) sep
  = (strings_Split s1 sep ++ strings_Split s2 sep)%list.
Proof.
  induction s1 as [|c s1 IH].
  - change ("" ++ String sep s2) with (String sep s2). simpl.
    by rewrite Ascii.eqb_refl.
  - rewrite append_String. simpl. rewrite IH.
    destruct (Ascii.eqb c sep); [done|].
    pose proof (strings_Split_length s1 sep) as Hlen.
    by destruct (strings_Split s1 sep).
Qed.

(** The keys that [FromString] stores. *)
Lemma FromString_run str h :
  let ks := if String.eqb str "" || String.eqb str "/" then []
            else token <$> strings_Split (stripped str) "/" in
  path.FromString str h
  = Some (slices.Slice (fresh (dom h)) 0 (length ks), <[fresh (dom h) := Some <$> ks]> h).
Proof.
  intros ks. unfold path.FromString, ks.
  destruct (String.eqb str "" || String.eqb str "/"); [done|].
  change (match str with String "/"%char rest => rest | _ => str end)
    with (stripped str).
  set (elements := strings_Split (stripped str) "/").
  pose proof (make_spec (length elements) h) as [Hmake _]. simpl in Hmake.
  unfold slices.bind. rewrite Hmake, FromString_fill_store_list.
  pose proof (make_store_list h ((λ t, Some (token t)) <$> elements)) as Hfill.
  rewrite length_fmap in Hfill. cbv zeta in Hfill. rewrite Hfill.
  unfold slices.ret. by rewrite length_fmap, <- list_fmap_compose.
Qed.

Lemma FromString_keys str h :
  ∃ res h',
    path.FromString str h = Some (res, h') ∧ slices.frame h h' ∧
    slices.keys h' res
    = Some (if String.eqb str "" || String.eqb str "/" then []
            else token <$> strings_Split (stripped str) "/").
Proof.
  pose proof (FromString_run str h) as Hrun. simpl in Hrun.
  pose proof (make_spec 0 h) as [_ Ha]. simpl in Ha.
  eexists _, _. split; [exact Hrun|]. split; [by apply frame_insert|].
  apply keys_contents, contents_insert_eq. by rewrite length_fmap.
Qed.

(** C6. [FromString] returns on every input. On [""] and on ["/"] the path
    is empty. On any other string it holds, in order, the wrapped tokens of
    the string without one leading ['/']; the tokens are the pieces between
    the ['/'] of that string (joined by ['/'] they give it back, and none
    holds a ['/']). [FromString("a/b")] has two elements and is [Equal] to
    [New("a", "b")]. *)
Theorem FromString_spec str h :
  (∃ res h' ks,
     path.FromString str h = Some (res, h') ∧
     slices.keys h' res = Some ks ∧
     ((str = "" ∨ str = "/") → ks = []) ∧
     (str ≠ "" → str ≠ "/" →
      ks = token <$> strings_Split (stripped str) "/")) ∧
  (∀ rest, stripped (String "/" rest) = rest) ∧
  (∀ c rest, c ≠ "/"%char → stripped (String c rest) = String c rest) ∧
  (∀ s, strings_Join (strings_Split s "/") "/" = s ∧
        Forall (λ t, strings_Count t "/" = 0) (strings_Split s "/")) ∧
  (∃ r1 h1 r2 h2 k1 k2,
     path.FromString "a/b" h = Some (r1, h1) ∧
     path.New [key.INative (key.NStr "a"); key.INative (key.NStr "b")] h1
       = Some (r2, h2) ∧
     slices.keys h2 r1 = Some k1 ∧ slices.keys h2 r2 = Some k2 ∧
     length k1 = 2 ∧ path.Equal k1 k2 = Some true).
Proof.
  split_and!.
  - destruct (FromString_keys str h) as (res & h' & Hrun & _ & Hks).
    eexists _, _, _. split; [exact Hrun|]. split; [exact Hks|]. split.
    + by intros [-> | ->].
    + intros H1%String.eqb_neq H2%String.eqb_neq. by rewrite H1, H2.
  - done.
  - intros c rest Hc. unfold stripped.
    destruct c as [[] [] [] [] [] [] [] []]; done.
  - intros s. split; [apply strings_Join_Split | apply strings_Split_no_sep].
  - destruct (FromString_keys "a/b" h) as (r1 & h1 & Hrun & _ & Hks). simpl in Hks.
    pose proof (New_spec [key.INative (key.NStr "a"); key.INative (key.NStr "b")] h1)
      as Hnew. simpl in Hnew.
    pose proof (make_spec 0 h1) as [_ Ha]. simpl in Ha.
    eexists r1, h1, _, _, _, [token "a"; token "b"].
    split; [exact Hrun|]. split; [exact Hnew|]. split_and!.
    + eapply frame_keys; [by apply frame_insert | exact Hks].
    + by apply keys_contents, contents_insert_eq.
    + done.
    + done.
Qed.

(** C10. On an input other than [""] and ["/"], [FromString] strips one
    leading ['/'] at most and returns one more element than the stripped
    string has ['/']; a separator that follows another one or that ends the
    string yields an element that wraps [""]. *)
Theorem FromString_length str h :
  str ≠ "" → str ≠ "/" →
  (∃ res h' ks,
     path.FromString str h = Some (res, h') ∧
     slices.keys h' res = Some ks ∧
     ks = token <$> strings_Split (stripped str) "/" ∧
     length ks = S (strings_Count (stripped str) "/")) ∧
  (∀ rest, stripped (String "/" rest) = rest) ∧
  (∀ s1 s2, strings_Split (s1 ++ String "/" s2) "/"
            = (strings_Split s1 "/" ++ strings_Split s2 "/")%list) ∧
  strings_Split "" "/" = [""] ∧
  (∃ res h', path.FromString "a//b" h = Some (res, h') ∧
             slices.keys h' res = Some [token "a"; token ""; token "b"]) ∧
  (∃ res h', path.FromString "//" h = Some (res, h') ∧
             slices.keys h' res = Some [token ""; token ""]).
Proof.
  intros H1%String.eqb_neq H2%String.eqb_neq. split_and!.
  - destruct (FromString_keys str h) as (res & h' & Hrun & _ & Hks).
    rewrite H1, H2 in Hks. simpl in Hks.
    eexists _, _, _. split; [exact Hrun|]. split; [exact Hks|]. split; [done|].
    by rewrite length_fmap, strings_Split_length.
  - done.
  - intros s1 s2. apply strings_Split_app_sep.
  - done.
  - destruct (FromString_keys "a//b" h) as (res & h' & Hrun & _ & Hks). eauto.
  - destruct (FromString_keys "//" h) as (res & h' & Hrun & _ & Hks). eauto.
Qed.
End path_FromString.

(** ** The cases of map_test.go and of the specification *)

Section cases.
Import key.
#[local] Abbreviation K := (Key dumbHashable).
#[local] Abbreviation Val := (value dumbHashable).
#[local] Abbreviation M := (Map dumbHashable Val).
#[local] Abbreviation str_key s := (Native (NStr s) : K).
#[local] Abbreviation int n := (VNative (NInt n) : Val).
#[local] Abbreviation bool_val b := (VNative (NBool b) : Val).
#[local] Abbreviation str_val s := (VNative (NStr s) : Val).
#[local] Abbreviation bucket := 1234567890%Z.

(** [TestMapEqual] *)
Example TestMapEqual_empty :
  Map_Equal value_eq (empty : M) (mkMap [] [] 0) = true.
Proof. reflexivity. Qed.

Example TestMapEqual_length_check :
  Map_Equal value_eq (empty : M) (mkMap [] [] 1) = false.
Proof. reflexivity. Qed.

Example TestMapEqual_normal :
  Map_Equal value_eq (mkMap [(NStr "a", int 1)] [] 1 : M)
    (formMap [(str_key "a", int 1)]) = true ∧
  Map_Equal value_eq (mkMap [(NStr "a", str_val "b")] [] 1 : M)
    (formMap [(str_key "b", str_val "b")]) = false ∧
  Map_Equal value_eq (mkMap [(NStr "a", str_val "b")] [] 1 : M)
    (formMap [(str_key "a", bool_val false)]) = false ∧
  Map_Equal value_eq (mkMap [(NStr "a", int 1); (NStr "b", bool_val true)] [] 2 : M)
    (formMap [(str_key "a", int 1); (str_key "b", bool_val true)]) = true.
Proof. by vm_compute. Qed.

Example TestMapEqual_nested :
  Map_Equal value_eq
    (mkMap [(NStr "a", VMap (formMap [(str_key "b", int 3)]))] [] 1 : M)
    (formMap [(str_key "a", VMap (formMap [(str_key "b", int 3)]))]) = true ∧
  Map_Equal value_eq
    (mkMap [(NStr "a", VMap (formMap [(str_key "b", int 3)]))] [] 1 : M)
    (formMap [(str_key "a", VMap (formMap [(str_key "b", int 4)]))]) = false ∧
  Map_Equal value_eq
    (mkMap [(NStr "foo", VMap (mkMap [(NStr "a", int 1)] [] 1))] [] 1 : M)
    (mkMap [(NStr "foo", VMap (mkMap [(NStr "a", int 1)] [] 1))] [] 1) = true.
Proof. by vm_compute. Qed.

Example TestMapEqual_same_bucket :
  Map_Equal value_eq
    (mkMap []
       [(bucket, Entry (hashable "hashable1") (int 1)
                   (Some (Entry (hashable "hashable2") (int 2)
                      (Some (Entry (hashable "hashable3") (int 3) None)))))] 3 : M)
    (formMap [(custom_key "hashable3", int 3); (custom_key "hashable2", int 2);
              (custom_key "hashable1", int 1)]) = true.
Proof. by vm_compute. Qed.

(** [TestMapSet] *)
Example TestMapSet_cases :
  Map_Set (empty : M) (str_key "a") (int 1) = mkMap [(NStr "a", int 1)] [] 1 ∧
  Map_Set (mkMap [(NStr "a", int 1)] [] 1 : M) (str_key "a") (int 1)
    = mkMap [(NStr "a", int 1)] [] 1 ∧
  Map_Set (empty : M) (custom_key "hashable1") (int 42)
    = mkMap [] [(bucket, Entry (hashable "hashable1") (int 42) None)] 1 ∧
  Map_Set (mkMap [] [(bucket, Entry (hashable "hashable1") (int 42) None)] 1 : M)
      (custom_key "hashable1") (int 0)
    = mkMap [] [(bucket, Entry (hashable "hashable1") (int 0) None)] 1 ∧
  Map_Set (mkMap [] [(bucket, Entry (hashable "hashable2") (int 42) None)] 1 : M)
      (custom_key "hashable3") (int 42)
    = mkMap [] [(bucket, Entry (hashable "hashable2") (int 42)
                           (Some (Entry (hashable "hashable3") (int 42) None)))] 2 ∧
  Map_Set (mkMap [] [(bucket, Entry (hashable "hashable2") (int 42)
                           (Some (Entry (hashable "hashable3") (int 42) None)))] 2 : M)
      (custom_key "hashable4") (int 42)
    = mkMap [] [(bucket, Entry (hashable "hashable2") (int 42)
                           (Some (Entry (hashable "hashable3") (int 42)
                              (Some (Entry (hashable "hashable4") (int 42) None)))))] 3.
Proof. by vm_compute. Qed.

(** [TestMapSetGet] *)
Example TestMapSetGet_cases :
  let m1 : M := formMap [(str_key "a", int 1); (str_key "b", int 1);
                         (Native (NInt 42), str_val "foobar");
                         (custom_key "hashable1", int 1)] in
  Map_Get m1 (str_key "a") = Some (int 1) ∧
  Map_Get m1 (Native (NInt 42)) = Some (str_val "foobar") ∧
  Map_Get m1 (custom_key "hashable1") = Some (int 1) ∧
  Map_Get m1 (custom_key "hashable2") = None ∧
  Map_Get (Map_Set m1 (custom_key "hashable2") (int 2)) (custom_key "hashable2")
    = Some (int 2) ∧
  Map_Get (Map_Set m1 (custom_key "hashable2") (int 2)) (custom_key "hashable42")
    = None.
Proof. by vm_compute. Qed.

Example TestMapIter_chain :
  Map_Iter count_visit (normal chain234) (custom chain234) 0 = (3, None) ∧
  Map_Iter (fail_on (custom_key "hashable3")) (normal chain234) (custom chain234) 0
    = (1, Some "stop"%string) ∧
  Map_Iter (logged (fail_on (custom_key "hashable3")))
      (normal chain234) (custom chain234) (0, [])
    = ((1, [(custom_key "hashable2", int 42); (custom_key "hashable3", int 42)]),
       Some "stop"%string).
Proof. by vm_compute. Qed.
End cases.

(** ** The theorems at concrete inputs *)

(** Two [Set]s of [hashable5] on the chain of [hashable2], [hashable3] and
    [hashable4]: the first appends a fourth node, the second overwrites it. *)
Lemma Map_Set_overwrite_and_append_witness :
  key.length (key.Map_Set (key.Map_Set chain234 (custom_key "hashable5")
                             (int_val 1))
                (custom_key "hashable5") (int_val 2)) = 4 ∧
  key.Map_Get (key.Map_Set (key.Map_Set chain234 (custom_key "hashable5")
                              (int_val 1))
                 (custom_key "hashable5") (int_val 2))
    (custom_key "hashable5") = Some (int_val 2).
Proof.
  pose proof (Map_Set_overwrite_and_append chain234 (hashable "hashable5")
                (int_val 1) (int_val 2))
    as (Hlen & _ & Hget & _).
  split; [exact (eq_trans Hlen (eq_refl 4)) | exact Hget].
Defined.



(** [Iter] over the chain of three nodes, with the counting visitor and
    with a visitor that fails on the second node. *)
Lemma Map_Iter_visits_witness :
  key.Map_Iter count_visit (key.normal chain234) (key.custom chain234) 0 = (3, None) ∧
  key.Map_Iter (key.logged (fail_on (custom_key "hashable3")))
    (key.normal chain234) (key.custom chain234) (0, [])
  = ((1, [(custom_key "hashable2", int_val 42);
          (custom_key "hashable3", int_val 42)]),
     Some "stop"%string).
Proof.
  split.
  - destruct (Map_Iter_visits chain234 (key.normal chain234) (key.custom chain234)
                count_visit 0) as [Hok _]; [split; reflexivity|].
    apply (Hok 3). reflexivity.
  - destruct (Map_Iter_visits chain234 (key.normal chain234) (key.custom chain234)
                (fail_on (custom_key "hashable3")) 0) as [_ [Herr _]];
      [split; reflexivity|].
    apply (Herr [(custom_key "hashable2", int_val 42)]
             (custom_key "hashable3") (int_val 42)
             [(custom_key "hashable4", int_val 42)]
             1 1 "stop"%string); reflexivity.
Defined.

(** [Append] on the path ["a", "b"] held by array 0. *)
Lemma Append_spec_witness :
  path.Append (slices.Slice 0 0 2) []
    heap_ab
  = Some (slices.Slice 0 0 2,
          heap_ab) ∧
  ∃ a h',
    path.Append (slices.Slice 0 0 2) [key.INative (key.NStr "c")]
      heap_ab
    = Some (slices.Slice a 0 3, h') ∧
    slices.keys h' (slices.Slice a 0 3)
    = Some [string_key "a"; string_key "b";
            string_key "c"] ∧
    slices.keys h' (slices.Slice 0 0 2)
    = Some [string_key "a"; string_key "b"].
Proof.
  destruct (Append_spec
              heap_ab
              (slices.Slice 0 0 2)
              [string_key "a"; string_key "b"]
              [key.INative (key.NStr "c")]) as [Hnone Hsome]; [reflexivity|].
  split; [exact Hnone|].
  destruct Hsome as (a & h' & Hrun & _ & Hres & Hpath & _); [discriminate|].
  exists a, h'. split; [exact Hrun|]. split; [exact Hres | exact Hpath].
Defined.

(** [Join] of the path ["a", "b"], the nil path and the same path again. *)
Lemma Join_spec_witness :
  ∃ res h',
    path.Join [slices.Slice 0 0 2; slices.Nil; slices.Slice 0 0 2]
      heap_ab
    = Some (res, h') ∧
    slices.keys h' res
    = Some [string_key "a"; string_key "b";
            string_key "a"; string_key "b"] ∧
    slices.len res = 4.
Proof.
  destruct (Join_spec
              heap_ab
              [slices.Slice 0 0 2; slices.Nil; slices.Slice 0 0 2]
              [[string_key "a"; string_key "b"]; [];
               [string_key "a"; string_key "b"]])
    as (res & h' & Hrun & Hkeys & Hlen & _).
  { repeat (constructor; [reflexivity|]). constructor. }
  exists res, h'. split; [exact Hrun|]. split; [exact Hkeys | exact Hlen].
Defined.

(** [FromString("a//b")] on the empty heap. *)
Lemma FromString_length_witness :
  ∃ res h' ks,
    path.FromString "a//b" (∅ : slices.heap WildcardType) = Some (res, h') ∧
    slices.keys h' res = Some ks ∧ length ks = 3.
Proof.
  destruct (FromString_length "a//b" (∅ : slices.heap WildcardType))
    as [(res & h' & ks & Hrun & Hkeys & _ & Hlen) _]; [discriminate..|].
  exists res, h', ks. split; [exact Hrun|]. split; [exact Hkeys | exact Hlen].
Defined.

(** The test that C8 states for every index fails at the last index of
    [MatchPrefixString]: the call returns true although the element of [a]
    is not [Equal] to the [Wildcard] and the element of [b] is not [Equal]
    to the element of [a]. *)
Lemma MatchPrefixString_last_not_Equal :
  path.MatchPrefixString
    [string_key "iface0"]
    [string_key "ifa"] = Some true ∧
  key.KeyEqual (string_key "iface0") path.Wildcard
  = false ∧
  key.KeyEqual (string_key "ifa")
    (string_key "iface0") = false.
Proof. split_and!; reflexivity. Qed.

(** * More of package [path] *)

(** ** Reading an [option bool] result *)

Section option_bool.
Implicit Types (o : option bool) (P Q : Prop).

Lemma option_true_iff o P : (∃ r, o = Some r ∧ (r = true ↔ P)) → (o = Some true ↔ P).
Proof.
  intros (r & -> & Hr). rewrite <- Hr. split; [by intros [= ->] | by intros ->].
Qed.

Lemma option_bool_ext o1 o2 P Q :
  (∃ r, o1 = Some r ∧ (r = true ↔ P)) → (∃ r, o2 = Some r ∧ (r = true ↔ Q)) →
  (P ↔ Q) → o1 = o2.
Proof.
  intros (r1 & -> & H1) (r2 & -> & H2) HPQ. f_equal.
  destruct r1, r2; try done.
  - assert (false = true) by tauto. done.
  - assert (false = true) by tauto. done.
Qed.
End option_bool.

(** ** [Equal], [HasPrefix] and [HasElement] *)

Section path_plain.
Context {HK : Type} `{key.Hashable HK} `{path.Sentinel HK}.
Implicit Types (a b c : key.Path HK) (ai bi al bl e : key.Key HK).
#[local] Abbreviation KeyEqual := key.KeyEqual.
#[local] Abbreviation Wildcard := path.Wildcard.

Lemma Equal_iff a b :
  ∃ r, path.Equal a b = Some r ∧ (r = true ↔ length a = length b ∧ path.agree a b).
Proof.
  unfold path.Equal. destruct (Nat.eqb_spec (length a) (length b)) as [Hlen|Hlen];
    [|exists false; split; [done|]; split; [done | by intros [? _]]].
  destruct (hasPrefix_spec a b) as (r & -> & Hr); [lia|].
  exists r. split; [done|]. rewrite Hr. unfold path.agree. split.
  - intros Hall. split; [done|]. intros i ai bi ??. by apply (Hall i).
  - intros [_ Hall] i bi ai ??. by apply (Hall i).
Qed.

Lemma HasPrefix_iff a b :
  ∃ r, path.HasPrefix a b = Some r ∧ (r = true ↔ length b ≤ length a ∧ path.agree a b).
Proof.
  unfold path.HasPrefix. destruct (Nat.leb_spec (length b) (length a)) as [Hlen|Hlen];
    [|exists false; split; [done|]; split; [done | lia]].
  destruct (hasPrefix_spec a b Hlen) as (r & -> & Hr).
  exists r. split; [done|]. rewrite Hr. unfold path.agree. split.
  - intros Hall. split; [done|]. intros i ai bi ??. by apply (Hall i).
  - intros [_ Hall] i bi ai ??. by apply (Hall i).
Qed.

Lemma Equal_true a b :
  path.Equal a b = Some true ↔ length a = length b ∧ path.agree a b.
Proof. apply option_true_iff, Equal_iff. Qed.

Lemma HasPrefix_true a b :
  path.HasPrefix a b = Some true ↔ length b ≤ length a ∧ path.agree a b.
Proof. apply option_true_iff, HasPrefix_iff. Qed.

Lemma Match_true a b :
  path.Match a b = Some true ↔ length a = length b ∧ path.agree_wild a b.
Proof. apply option_true_iff, Match_iff. Qed.

Lemma MatchPrefix_true a b :
  path.MatchPrefix a b = Some true ↔ length b ≤ length a ∧ path.agree_wild a b.
Proof. apply option_true_iff, MatchPrefix_iff. Qed.

Lemma HasPrefixString_true a b :
  path.HasPrefixString a b = Some true ↔
  length b ≤ length a ∧
  (∀ i ai bi, i < length b - 1 → a !! i = Some ai → b !! i = Some bi →
              KeyEqual bi ai = true) ∧
  (∀ al bl, a !! (length b - 1) = Some al → last b = Some bl →
            path.element_matches al bl).
Proof. apply option_true_iff, HasPrefixString_iff. Qed.

Lemma MatchPrefixString_true a b :
  path.MatchPrefixString a b = Some true ↔
  length b ≤ length a ∧
  (∀ i ai bi, i < length b - 1 → a !! i = Some ai → b !! i = Some bi →
              KeyEqual ai Wildcard = true ∨ KeyEqual bi ai = true) ∧
  (∀ al bl, a !! (length b - 1) = Some al → last b = Some bl →
            KeyEqual al Wildcard = true ∨ path.element_matches al bl).
Proof. apply option_true_iff, MatchPrefixString_iff. Qed.

Lemma agree_take a b : path.agree a b → path.agree (take (length b) a) b.
Proof.
  intros Hall i ai bi Hai Hbi. apply (Hall i); [|done].
  by apply lookup_take_Some in Hai as [? _].
Qed.

Lemma agree_take_inv a b : path.agree (take (length b) a) b → path.agree a b.
Proof.
  intros Hall i ai bi Hai Hbi. apply (Hall i); [|done].
  apply lookup_take_Some. split; [done|]. by apply lookup_lt_Some in Hbi.
Qed.

(** X1. [Equal] always returns, and returns true exactly on two paths of
    the same length whose elements are pairwise [Equal]. *)
Theorem path_Equal_characterised a b :
  ∃ r, path.Equal a b = Some r ∧
       (r = true ↔
        length a = length b ∧
        ∀ i ai bi, a !! i = Some ai → b !! i = Some bi → KeyEqual bi ai = true).
Proof. apply Equal_iff. Qed.

(** X2. [HasPrefix] always returns, and returns true exactly when [b] is
    no longer than [a] and its elements are [Equal] to the first ones of
    [a]: that is, when the first [len(b)] elements of [a] form a path
    [Equal] to [b]. The empty path is a prefix of every path. *)
Theorem path_HasPrefix_characterised a b :
  (∃ r, path.HasPrefix a b = Some r ∧
        (r = true ↔
         length b ≤ length a ∧
         ∀ i ai bi, a !! i = Some ai → b !! i = Some bi → KeyEqual bi ai = true)) ∧
  (path.HasPrefix a b = Some true ↔
   length b ≤ length a ∧ path.Equal (take (length b) a) b = Some true) ∧
  path.HasPrefix a [] = Some true.
Proof.
  split_and!; [apply HasPrefix_iff| |done].
  rewrite HasPrefix_true, Equal_true, length_take. split.
  - intros [Hlen Hall]. split_and!; [done|lia|by apply agree_take].
  - intros (Hlen & _ & Hall). split; [done|]. by apply agree_take_inv.
Qed.

Lemma HasElement_true a e :
  path.HasElement a e = true ↔ ∃ i ai, a !! i = Some ai ∧ KeyEqual ai e = true.
Proof.
  induction a as [|x a IH]; simpl.
  - split; [done | by intros (i & ai & ? & _)].
  - destruct (KeyEqual x e) eqn:Hx.
    + split; [|done]. intros _. by exists 0, x.
    + rewrite IH. split.
      * intros (i & ai & Hi & Hai). by exists (S i), ai.
      * intros ([|i] & ai & Hi & Hai); simplify_eq/=; [congruence|]. by exists i, ai.
Qed.

(** X3. [HasElement(a, b)] is true exactly when some element of [a] is
    [Equal] to [b]: never on the empty path, and on a concatenation when
    one of the two parts has the element. *)
Theorem path_HasElement_spec a c e :
  (path.HasElement a e = true ↔ ∃ i ai, a !! i = Some ai ∧ KeyEqual ai e = true) ∧
  path.HasElement [] e = false ∧
  path.HasElement (a ++ c) e = path.HasElement a e || path.HasElement c e.
Proof.
  split_and!; [apply HasElement_true | done |].
  induction a as [|x a IH]; simpl; [done|]. by destruct (KeyEqual x e).
Qed.

End path_plain.

(** ** How the matching functions relate *)

Section path_hierarchy.
Context {HK : Type} `{key.Hashable HK} `{path.Sentinel HK}.
Implicit Types (a b c : key.Path HK) (ai bi al bl e : key.Key HK).
#[local] Abbreviation KeyEqual := key.KeyEqual.
#[local] Abbreviation Wildcard := path.Wildcard.

Lemma append_empty_r (s : string) : (s ++ "")%string = s.
Proof. induction s as [|c s IH]; [done|]. by rewrite append_String, IH. Qed.

(** Two [Equal] keys pass [compareElementString]. *)
Lemma KeyEqual_element_matches al bl :
  KeyEqual bl al = true → path.element_matches al bl.
Proof.
  unfold path.element_matches.
  destruct bl as [[| |bs]|], al as [[| |as']|]; simpl; try done.
  intros [= ->]%bool_decide_eq_true. exists ""%string. by rewrite append_empty_r.
Qed.

Lemma hasPrefix_range_app a b idx1 idx2 :
  path.hasPrefix_range a b (idx1 ++ idx2) =
  match path.hasPrefix_range a b idx1 with
  | Some true => path.hasPrefix_range a b idx2
  | r => r
  end.
Proof.
  induction idx1 as [|i idx1 IH]; [done|]. cbn [app path.hasPrefix_range].
  destruct (b !! i) as [bi|]; [|done]. destruct (a !! i) as [ai|]; [|done].
  simpl. by destruct (KeyEqual bi ai).
Qed.

Lemma matchPrefix_range_app a b idx1 idx2 :
  path.matchPrefix_range a b (idx1 ++ idx2) =
  match path.matchPrefix_range a b idx1 with
  | Some true => path.matchPrefix_range a b idx2
  | r => r
  end.
Proof.
  induction idx1 as [|i idx1 IH]; [done|]. cbn [app path.matchPrefix_range].
  destruct (a !! i) as [ai|]; [|done]. simpl.
  destruct (KeyEqual ai Wildcard); simpl; [done|].
  destruct (b !! i) as [bi|]; [|done]. simpl. by destruct (KeyEqual bi ai).
Qed.

(** The loops on a path [a] that is shorter than [b]: they stop at the
    first element that fails the test, and index [a] out of range when there
    is none. *)
Lemma hasPrefix_short a b :
  length a < length b →
  (path.hasPrefix a b = None ∧ path.agree a b) ∨
  (path.hasPrefix a b = Some false ∧ ¬ path.agree a b).
Proof.
  intros Hlen. unfold path.hasPrefix.
  assert (seq 0 (length b) = seq 0 (length a) ++ seq (length a) (length b - length a))
    as -> by (rewrite <- seq_app; f_equal; lia).
  rewrite hasPrefix_range_app.
  destruct (hasPrefix_range_spec a b (seq 0 (length a))) as (r & -> & Hr).
  { apply Forall_forall. intros i Hi%elem_of_seq. lia. }
  destruct (length b - length a) as [|n] eqn:Hn; [lia|]. simpl.
  destruct (lookup_lt_is_Some_2 b (length a)) as [bi Hbi]; [lia|].
  rewrite Hbi, (lookup_ge_None_2 a (length a)) by lia. simpl.
  destruct r.
  - left. split; [done|]. intros i ai bi' Hai Hbi'.
    apply (proj1 Hr eq_refl i); [|done..]. apply elem_of_seq.
    apply lookup_lt_Some in Hai. lia.
  - right. split; [done|]. intros Hall. assert (false = true); [|done].
    apply Hr. intros i bi' ai _ Hbi' Hai. by apply (Hall i).
Qed.

Lemma matchPrefix_short a b :
  length a < length b →
  (path.matchPrefix a b = None ∧ path.agree_wild a b) ∨
  (path.matchPrefix a b = Some false ∧ ¬ path.agree_wild a b).
Proof.
  intros Hlen. unfold path.matchPrefix.
  assert (seq 0 (length b) = seq 0 (length a) ++ seq (length a) (length b - length a))
    as -> by (rewrite <- seq_app; f_equal; lia).
  rewrite matchPrefix_range_app.
  destruct (matchPrefix_range_spec a b (seq 0 (length a))) as (r & -> & Hr).
  { apply Forall_forall. intros i Hi%elem_of_seq. lia. }
  destruct (length b - length a) as [|n] eqn:Hn; [lia|]. simpl.
  rewrite (lookup_ge_None_2 a (length a)) by lia. simpl.
  destruct r.
  - left. split; [done|]. intros i ai bi Hai Hbi.
    apply (proj1 Hr eq_refl i); [|done..]. apply elem_of_seq.
    apply lookup_lt_Some in Hai. lia.
  - right. split; [done|]. intros Hall. assert (false = true); [|done].
    apply Hr. intros i ai bi _ Hai Hbi. by apply (Hall i).
Qed.

(** The loops on a path [a] that is long enough. *)
Lemma hasPrefix_long a b :
  length b ≤ length a →
  (path.hasPrefix a b = Some true ∧ path.agree a b) ∨
  (path.hasPrefix a b = Some false ∧ ¬ path.agree a b).
Proof.
  intros Hlen. destruct (hasPrefix_spec a b Hlen) as (r & -> & Hr). destruct r.
  - left. split; [done|]. intros i ai bi ??. by apply (proj1 Hr eq_refl i).
  - right. split; [done|]. intros Hall. assert (false = true); [|done].
    apply Hr. intros i bi ai ??. by apply (Hall i).
Qed.

Lemma matchPrefix_long a b :
  length b ≤ length a →
  (path.matchPrefix a b = Some true ∧ path.agree_wild a b) ∨
  (path.matchPrefix a b = Some false ∧ ¬ path.agree_wild a b).
Proof.
  intros Hlen. destruct (matchPrefix_spec a b Hlen) as (r & -> & Hr). destruct r.
  - left. split; [done|]. intros i ai bi ??. by apply (proj1 Hr eq_refl i).
  - right. split; [done|]. intros Hall. assert (false = true); [|done].
    apply Hr. intros i ai bi ??. by apply (Hall i).
Qed.

(** X5. The unexported loops [hasPrefix] and [matchPrefix] index [a] with
    the indices of [b]: they panic exactly when [a] is shorter than [b] and
    every element of [a] passes the test, and they return otherwise. The
    length tests of the exported functions exclude that case. *)
Theorem hasPrefix_matchPrefix_panic a b :
  (path.hasPrefix a b = None ↔ length a < length b ∧ path.agree a b) ∧
  (path.matchPrefix a b = None ↔ length a < length b ∧ path.agree_wild a b) ∧
  (length b ≤ length a →
   is_Some (path.hasPrefix a b) ∧ is_Some (path.matchPrefix a b)).
Proof.
  split_and!.
  - destruct (decide (length b ≤ length a)) as [Hlen|Hlen].
    + destruct (hasPrefix_long a b Hlen) as [[-> _]|[-> _]]; (split; [done | lia]).
    + destruct (hasPrefix_short a b) as [[-> ?]|[-> ?]]; [lia| |]; split; try done.
      * intros _. split; [lia | done].
      * by intros [_ ?].
  - destruct (decide (length b ≤ length a)) as [Hlen|Hlen].
    + destruct (matchPrefix_long a b Hlen) as [[-> _]|[-> _]]; (split; [done | lia]).
    + destruct (matchPrefix_short a b) as [[-> ?]|[-> ?]]; [lia| |]; split; try done.
      * intros _. split; [lia | done].
      * by intros [_ ?].
  - intros Hlen. split.
    + by destruct (hasPrefix_long a b Hlen) as [[-> _]|[-> _]].
    + by destruct (matchPrefix_long a b Hlen) as [[-> _]|[-> _]].
Qed.

(** X25. The unexported [hasPrefixString] and [matchPrefixString] panic
    exactly when [a] is shorter than [b] and the elements of [a] before its
    last one pass the test of the loop; the last element of [a] is not
    looked at in that case. *)
Theorem hasPrefixString_matchPrefixString_panic a b :
  (path.hasPrefixString a b = None ↔
   length a < length b ∧ path.agree (path.Parent a) (path.Parent b)) ∧
  (path.matchPrefixString a b = None ↔
   length a < length b ∧ path.agree_wild (path.Parent a) (path.Parent b)).
Proof.
  pose proof (Parent_length a) as Hpa. pose proof (Parent_length b) as Hpb.
  destruct (decide (length b = 0)) as [Hb|Hb].
  { unfold path.hasPrefixString, path.matchPrefixString. rewrite Hb. simpl.
    split; (split; [done | lia]). }
  assert (∃ bl, path.Base b = Some bl) as [bl Hbl].
  { unfold path.Base. rewrite decide_True by lia. apply lookup_lt_is_Some_2. lia. }
  assert (Nat.eqb (length b) 0 = false) as Hb' by by apply Nat.eqb_neq.
  split.
  - unfold path.hasPrefixString. rewrite Hb', Hbl.
    destruct (decide (length (path.Parent b) ≤ length (path.Parent a))) as [Hlen|Hlen].
    + destruct (hasPrefix_long _ _ Hlen) as [[-> Hall]|[-> Hall]]; simpl.
      * destruct (a !! (length b - 1)) as [al|] eqn:Hal; simpl.
        -- apply lookup_lt_Some in Hal. split; [done | lia].
        -- apply lookup_ge_None in Hal. split; [|done]. intros _. split; [lia | done].
      * split; [done | by intros [_ ?]].
    + destruct (hasPrefix_short (path.Parent a) (path.Parent b)) as [[-> Hall]|[-> Hall]];
        [lia| |]; simpl.
      * split; [|done]. intros _. split; [lia | done].
      * split; [done | by intros [_ ?]].
  - unfold path.matchPrefixString. rewrite Hb', Hbl.
    destruct (decide (length (path.Parent b) ≤ length (path.Parent a))) as [Hlen|Hlen].
    + destruct (matchPrefix_long _ _ Hlen) as [[-> Hall]|[-> Hall]]; simpl.
      * destruct (a !! (length b - 1)) as [al|] eqn:Hal; simpl.
        -- apply lookup_lt_Some in Hal. split; [|lia].
           by destruct (KeyEqual al Wildcard).
        -- apply lookup_ge_None in Hal. split; [|done]. intros _. split; [lia | done].
      * split; [done | by intros [_ ?]].
    + destruct (matchPrefix_short (path.Parent a) (path.Parent b)) as [[-> Hall]|[-> Hall]];
        [lia| |]; simpl.
      * split; [|done]. intros _. split; [lia | done].
      * split; [done | by intros [_ ?]].
Qed.

Lemma agree_agree_wild a b : path.agree a b → path.agree_wild a b.
Proof. intros Hall i ai bi ??. right. by apply (Hall i). Qed.

(** X6. Each plain test accepts what the stricter one accepts: two
    [Equal] paths pass [HasPrefix], and whatever passes [HasPrefix] passes
    [HasPrefixString]. *)
Theorem plain_tests_widen a b :
  (path.Equal a b = Some true → path.HasPrefix a b = Some true) ∧
  (path.HasPrefix a b = Some true → path.HasPrefixString a b = Some true).
Proof.
  rewrite Equal_true, HasPrefix_true, HasPrefixString_true. split.
  - intros [Hlen Hall]. split; [lia | done].
  - intros [Hlen Hall]. split_and!; [done| |].
    + intros i ai bi _ ??. by apply (Hall i).
    + intros al bl Hal Hbl. apply KeyEqual_element_matches.
      rewrite last_lookup in Hbl. apply (Hall (length b - 1)); [done|].
      by replace (length b - 1) with (pred (length b)) by lia.
Qed.

(** X7. The wildcard tests accept what the plain tests accept, and each
    accepts what the stricter wildcard test accepts: [Equal] implies
    [Match], [HasPrefix] implies [MatchPrefix], [HasPrefixString] implies
    [MatchPrefixString], [Match] implies [MatchPrefix] and [MatchPrefix]
    implies [MatchPrefixString]. *)
Theorem wildcard_tests_widen a b :
  (path.Equal a b = Some true → path.Match a b = Some true) ∧
  (path.HasPrefix a b = Some true → path.MatchPrefix a b = Some true) ∧
  (path.HasPrefixString a b = Some true → path.MatchPrefixString a b = Some true) ∧
  (path.Match a b = Some true → path.MatchPrefix a b = Some true) ∧
  (path.MatchPrefix a b = Some true → path.MatchPrefixString a b = Some true).
Proof.
  rewrite Equal_true, HasPrefix_true, HasPrefixString_true, Match_true,
    MatchPrefix_true, MatchPrefixString_true. split_and!.
  - intros [Hlen Hall]. split; [done | by apply agree_agree_wild].
  - intros [Hlen Hall]. split; [done | by apply agree_agree_wild].
  - intros (Hlen & Hall & Hlast). split_and!; [done| |].
    + intros i ai bi Hi ??. right. by apply (Hall i).
    + intros al bl ??. right. by apply Hlast.
  - intros [Hlen Hall]. split; [lia | done].
  - intros [Hlen Hall]. split_and!; [done| |].
    + intros i ai bi _ ??. by apply (Hall i).
    + intros al bl Hal Hbl. rewrite last_lookup in Hbl.
      destruct (Hall (length b - 1) al bl) as [?|?]; [done| |by left|].
      * by replace (length b - 1) with (pred (length b)) by lia.
      * right. by apply KeyEqual_element_matches.
Qed.

(** X8. On a pattern without an element [Equal] to the [Wildcard], the
    wildcard tests are the plain tests. *)
Theorem no_wildcard_plain a b :
  Forall (λ ai, KeyEqual ai Wildcard = false) a →
  path.Match a b = path.Equal a b ∧
  path.MatchPrefix a b = path.HasPrefix a b ∧
  path.MatchPrefixString a b = path.HasPrefixString a b.
Proof.
  intros Hnw.
  assert (∀ i ai, a !! i = Some ai → KeyEqual ai Wildcard = true → False) as Hno.
  { intros i ai Hai Hw. apply list_elem_of_lookup_2 in Hai.
    apply (proj1 (Forall_forall _ _) Hnw) in Hai. congruence. }
  assert (path.agree_wild a b ↔ path.agree a b) as Hagree.
  { split; [|apply agree_agree_wild]. intros Hall i ai bi Hai Hbi.
    destruct (Hall i ai bi Hai Hbi) as [Hw|?]; [|done]. by destruct (Hno i ai). }
  split_and!.
  - eapply option_bool_ext; [apply Match_iff | apply Equal_iff | by rewrite Hagree].
  - eapply option_bool_ext; [apply MatchPrefix_iff | apply HasPrefix_iff |].
    fold (path.agree_wild a b). by rewrite Hagree.
  - eapply option_bool_ext; [apply MatchPrefixString_iff | apply HasPrefixString_iff |].
    split; intros (Hlen & Hall & Hlast); (split_and!; [done| |]).
    + intros i ai bi Hi Hai Hbi.
      destruct (Hall i ai bi Hi Hai Hbi) as [Hw|?]; [|done]. by destruct (Hno i ai).
    + intros al bl Hal Hbl.
      destruct (Hlast al bl Hal Hbl) as [Hw|?]; [|done].
      by destruct (Hno (length b - 1) al).
    + intros i ai bi Hi ??. right. by apply (Hall i).
    + intros al bl ??. right. by apply Hlast.
Qed.

(** X9. When the [Wildcard] is [Equal] to itself, a pattern of [n]
    wildcards matches every path: of at most [n] elements for [MatchPrefix]
    and [MatchPrefixString], of exactly [n] elements for [Match]. *)
Theorem all_wildcards_match n b :
  KeyEqual Wildcard Wildcard = true →
  (length b ≤ n →
   path.MatchPrefix (replicate n Wildcard) b = Some true ∧
   path.MatchPrefixString (replicate n Wildcard) b = Some true) ∧
  (length b = n → path.Match (replicate n Wildcard) b = Some true).
Proof.
  intros Hw.
  assert (∀ i ai, replicate n Wildcard !! i = Some ai → KeyEqual ai Wildcard = true)
    as Hall.
  { by intros i ai [-> _]%lookup_replicate. }
  rewrite MatchPrefix_true, MatchPrefixString_true, Match_true, length_replicate.
  split.
  - intros Hlen. split_and!; [done| |done| |].
    + intros i ai bi Hai _. left. by eapply Hall.
    + intros i ai bi _ Hai _. left. by eapply Hall.
    + intros al bl Hal _. left. by eapply Hall.
  - intros <-. split; [done|]. intros i ai bi Hai _. left. by eapply Hall.
Qed.

(** X10. A prefix test that succeeds still succeeds when the path [a]
    grows at its end and when [b] is cut to its first [n] elements. *)
Theorem prefix_tests_monotone a b c n :
  (path.HasPrefix a b = Some true → path.HasPrefix (a ++ c) (take n b) = Some true) ∧
  (path.MatchPrefix a b = Some true →
   path.MatchPrefix (a ++ c) (take n b) = Some true) ∧
  (path.HasPrefixString a b = Some true →
   path.HasPrefixString (a ++ c) (take n b) = Some true) ∧
  (path.MatchPrefixString a b = Some true →
   path.MatchPrefixString (a ++ c) (take n b) = Some true).
Proof.
  rewrite !HasPrefix_true, !MatchPrefix_true, !HasPrefixString_true,
    !MatchPrefixString_true, !length_app, !length_take.
  assert (∀ i ai bi, length b ≤ length a → (a ++ c) !! i = Some ai →
            take n b !! i = Some bi → a !! i = Some ai ∧ b !! i = Some bi ∧ i < n)
    as Hlook.
  { intros i ai bi Hlen Hai [Hbi Hi]%lookup_take_Some.
    rewrite lookup_app_l in Hai; [done|]. apply lookup_lt_Some in Hbi. lia. }
  split_and!.
  - intros [Hlen Hall]. split; [lia|]. intros i ai bi Hai Hbi.
    destruct (Hlook i ai bi Hlen Hai Hbi) as (? & ? & _). by apply (Hall i).
  - intros [Hlen Hall]. split; [lia|]. intros i ai bi Hai Hbi.
    destruct (Hlook i ai bi Hlen Hai Hbi) as (? & ? & _). by apply (Hall i).
  - intros (Hlen & Hall & Hlast). split_and!; [lia| |].
    + intros i ai bi Hi Hai Hbi.
      destruct (Hlook i ai bi Hlen Hai Hbi) as (? & ? & _). apply (Hall i); [lia|done..].
    + intros al bl Hal Hbl. rewrite last_lookup, length_take in Hbl.
      replace (pred (n `min` length b)) with (n `min` length b - 1) in Hbl by lia.
      destruct (Hlook _ al bl Hlen Hal Hbl) as (Hal' & Hbl' & Hn).
      destruct (decide (n < length b)) as [Hlt|Hge].
      * apply KeyEqual_element_matches. apply (Hall (n `min` length b - 1)); [lia|done..].
      * replace (n `min` length b - 1) with (length b - 1) in * by lia.
        apply Hlast; [done|]. rewrite last_lookup.
        by replace (pred (length b)) with (length b - 1) by lia.
  - intros (Hlen & Hall & Hlast). split_and!; [lia| |].
    + intros i ai bi Hi Hai Hbi.
      destruct (Hlook i ai bi Hlen Hai Hbi) as (? & ? & _). apply (Hall i); [lia|done..].
    + intros al bl Hal Hbl. rewrite last_lookup, length_take in Hbl.
      replace (pred (n `min` length b)) with (n `min` length b - 1) in Hbl by lia.
      destruct (Hlook _ al bl Hlen Hal Hbl) as (Hal' & Hbl' & Hn).
      destruct (decide (n < length b)) as [Hlt|Hge].
      * destruct (Hall (n `min` length b - 1) al bl) as [?|?]; [lia|done..|by left|].
        right. by apply KeyEqual_element_matches.
      * replace (n `min` length b - 1) with (length b - 1) in * by lia.
        apply Hlast; [done|]. rewrite last_lookup.
        by replace (pred (length b)) with (length b - 1) by lia.
Qed.
End path_hierarchy.

(** ** The tests under the contract of [Hashable] *)

#[global] Instance WildcardType_laws : key.HashableLaws WildcardType.
Proof. by split. Qed.

Section path_laws.
Context {HK : Type} `{key.HashableLaws HK} `{path.Sentinel HK}.
Implicit Types (a b c : key.Path HK) (ai bi al bl e : key.Key HK).
#[local] Abbreviation KeyEqual := key.KeyEqual.
#[local] Abbreviation Wildcard := path.Wildcard.

Lemma agree_refl a : path.agree a a.
Proof. intros i ai bi Hai Hbi. simplify_eq. apply KeyEqual_refl. Qed.

Lemma agree_sym a b : path.agree a b → path.agree b a.
Proof. intros Hall i bi ai Hbi Hai. apply KeyEqual_sym. by apply (Hall i). Qed.

Lemma agree_trans a b c :
  length c ≤ length b → path.agree a b → path.agree b c → path.agree a c.
Proof.
  intros Hlen Hab Hbc i ai ci Hai Hci.
  destruct (lookup_lt_is_Some_2 b i) as [bi Hbi].
  { apply lookup_lt_Some in Hci. lia. }
  apply KeyEqual_trans with bi; [by apply (Hbc i) | by apply (Hab i)].
Qed.

Lemma path_Equal_sym a b : path.Equal a b = Some true → path.Equal b a = Some true.
Proof. rewrite !Equal_true. intros [Hlen Hall]. split; [done | by apply agree_sym]. Qed.

Lemma KeyEqual_Native_r k n : KeyEqual k (key.Native n) = true → k = key.Native n.
Proof. destruct k; simpl; [|done]. by intros ->%bool_decide_eq_true. Qed.

Lemma KeyEqual_Native_l k n : KeyEqual (key.Native n) k = true → k = key.Native n.
Proof. destruct k; simpl; [|done]. by intros ->%bool_decide_eq_true. Qed.

(** [compareElementString] cannot tell two [Equal] keys apart. *)
Lemma element_matches_proper al al' bl bl' :
  KeyEqual al' al = true → KeyEqual bl' bl = true →
  path.element_matches al bl → path.element_matches al' bl'.
Proof.
  intros Ha Hb. destruct al as [na|x], bl as [nb|y].
  - by rewrite (KeyEqual_Native_r _ _ Ha), (KeyEqual_Native_r _ _ Hb).
  - unfold path.element_matches. by simpl.
  - unfold path.element_matches. by destruct nb.
  - destruct al' as [|x'], bl' as [|y']; try done.
    unfold path.element_matches. simpl in *. intros Hyx.
    apply key.Equal_trans with y; [done|].
    apply key.Equal_trans with x; [done|]. by apply key.Equal_sym.
Qed.

Lemma lookup_agree a a' i (ai' : key.Key HK) :
  length a = length a' → path.agree a a' → a' !! i = Some ai' →
  ∃ ai, a !! i = Some ai ∧ KeyEqual ai' ai = true.
Proof.
  intros Hlen Hall Hai'. destruct (lookup_lt_is_Some_2 a i) as [ai Hai].
  { apply lookup_lt_Some in Hai'. lia. }
  exists ai. split; [done|]. by apply (Hall i).
Qed.

Lemma last_agree b b' (bl' : key.Key HK) :
  length b = length b' → path.agree b b' → last b' = Some bl' →
  ∃ bl, last b = Some bl ∧ KeyEqual bl' bl = true.
Proof.
  rewrite !last_lookup. intros Hlen Hall Hbl'. rewrite Hlen.
  by apply (lookup_agree b b').
Qed.

(** One direction of the congruence, for each characterisation. *)
Lemma tests_respect_Equal_1 a a' b b' :
  length a = length a' → path.agree a a' → path.agree a' a →
  length b = length b' → path.agree b b' → path.agree b' b →
  (path.agree a b → path.agree a' b') ∧
  (path.agree_wild a b → path.agree_wild a' b') ∧
  ((∀ i ai bi, i < length b - 1 → a !! i = Some ai → b !! i = Some bi →
               KeyEqual bi ai = true) →
   (∀ i ai bi, i < length b - 1 → a' !! i = Some ai → b' !! i = Some bi →
               KeyEqual bi ai = true)) ∧
  ((∀ i ai bi, i < length b - 1 → a !! i = Some ai → b !! i = Some bi →
               KeyEqual ai Wildcard = true ∨ KeyEqual bi ai = true) →
   (∀ i ai bi, i < length b - 1 → a' !! i = Some ai → b' !! i = Some bi →
               KeyEqual ai Wildcard = true ∨ KeyEqual bi ai = true)) ∧
  ((∀ al bl, a !! (length b - 1) = Some al → last b = Some bl →
             path.element_matches al bl) →
   (∀ al bl, a' !! (length b - 1) = Some al → last b' = Some bl →
             path.element_matches al bl)) ∧
  ((∀ al bl, a !! (length b - 1) = Some al → last b = Some bl →
             KeyEqual al Wildcard = true ∨ path.element_matches al bl) →
   (∀ al bl, a' !! (length b - 1) = Some al → last b' = Some bl →
             KeyEqual al Wildcard = true ∨ path.element_matches al bl)).
Proof.
  intros Hla Ha Ha' Hlb Hb Hb'.
  assert (∀ i ai' bi', a' !! i = Some ai' → b' !! i = Some bi' →
            ∃ ai bi, a !! i = Some ai ∧ b !! i = Some bi ∧
                     KeyEqual ai' ai = true ∧ KeyEqual bi' bi = true) as Hback.
  { intros i ai' bi' Hai' Hbi'.
    destruct (lookup_agree a a' i ai') as (ai & ? & ?); [done..|].
    destruct (lookup_agree b b' i bi') as (bi & ? & ?); [done..|].
    by exists ai, bi. }
  assert (∀ ai ai' bi bi', KeyEqual ai' ai = true → KeyEqual bi' bi = true →
            KeyEqual bi ai = true → KeyEqual bi' ai' = true) as Heq.
  { intros ai ai' bi bi' Hai Hbi Hba.
    apply KeyEqual_trans with bi; [done|].
    apply KeyEqual_trans with ai; [done | by apply KeyEqual_sym]. }
  assert (∀ ai ai', KeyEqual ai' ai = true → KeyEqual ai Wildcard = true →
            KeyEqual ai' Wildcard = true) as Hw.
  { intros ai ai' ??. by apply KeyEqual_trans with ai. }
  split_and!.
  - intros Hall i ai' bi' Hai' Hbi'.
    destruct (Hback i ai' bi') as (ai & bi & ? & ? & ? & ?); [done..|].
    apply Heq with ai bi; [done..|]. by apply (Hall i).
  - intros Hall i ai' bi' Hai' Hbi'.
    destruct (Hback i ai' bi') as (ai & bi & ? & ? & ? & ?); [done..|].
    destruct (Hall i ai bi) as [?|?]; [done..| |].
    + left. by apply Hw with ai.
    + right. by apply Heq with ai bi.
  - intros Hall i ai' bi' Hi Hai' Hbi'.
    destruct (Hback i ai' bi') as (ai & bi & ? & ? & ? & ?); [done..|].
    apply Heq with ai bi; [done..|]. by apply (Hall i).
  - intros Hall i ai' bi' Hi Hai' Hbi'.
    destruct (Hback i ai' bi') as (ai & bi & ? & ? & ? & ?); [done..|].
    destruct (Hall i ai bi) as [?|?]; [done..| |].
    + left. by apply Hw with ai.
    + right. by apply Heq with ai bi.
  - intros Hlast al' bl' Hal' Hbl'.
    destruct (lookup_agree a a' (length b - 1) al') as (al & ? & ?); [done..|].
    destruct (last_agree b b' bl') as (bl & ? & ?); [done..|].
    apply element_matches_proper with al bl; [done..|]. by apply Hlast.
  - intros Hlast al' bl' Hal' Hbl'.
    destruct (lookup_agree a a' (length b - 1) al') as (al & ? & ?); [done..|].
    destruct (last_agree b b' bl') as (bl & ? & ?); [done..|].
    destruct (Hlast al bl) as [?|?]; [done..| |].
    + left. by apply Hw with al.
    + right. by apply element_matches_proper with al bl.
Qed.

(** X11. Under the contract of [Hashable] ([Equal] of custom keys is an
    equivalence), [Equal] of paths is an equivalence: it is reflexive, it
    gives the same answer with its arguments exchanged, and it is
    transitive. *)
Theorem path_Equal_equivalence a b c :
  path.Equal a a = Some true ∧
  path.Equal a b = path.Equal b a ∧
  (path.Equal a b = Some true → path.Equal b c = Some true →
   path.Equal a c = Some true).
Proof.
  split_and!.
  - apply Equal_true. split; [done | apply agree_refl].
  - eapply option_bool_ext; [apply Equal_iff | apply Equal_iff |].
    split; intros [Hlen Hall]; (split; [done | by apply agree_sym]).
  - rewrite !Equal_true. intros [Hab Hall] [Hbc Hall']. split; [lia|].
    apply agree_trans with b; [lia | done..].
Qed.

(** X12. Under the contract of [Hashable], [HasPrefix] orders paths: every
    path has itself, its [Parent] and each path it extends as a prefix;
    prefixes of prefixes are prefixes; and two paths that are prefixes of
    each other are [Equal]. *)
Theorem path_HasPrefix_order a b c :
  path.HasPrefix a a = Some true ∧
  path.HasPrefix a (path.Parent a) = Some true ∧
  path.HasPrefix (a ++ c) a = Some true ∧
  (path.HasPrefix a b = Some true → path.HasPrefix b c = Some true →
   path.HasPrefix a c = Some true) ∧
  (path.HasPrefix a b = Some true → path.HasPrefix b a = Some true →
   path.Equal a b = Some true).
Proof.
  rewrite !HasPrefix_true, Equal_true. split; [|split; [|split; [|split]]].
  - split; [done | apply agree_refl].
  - rewrite Parent_length. split; [lia|]. intros i ai bi Hai Hbi.
    rewrite Parent_take in Hbi. apply lookup_take_Some in Hbi as [Hbi _].
    simplify_eq. apply KeyEqual_refl.
  - rewrite length_app. split; [lia|]. intros i ai bi Hai Hbi.
    rewrite lookup_app_l in Hai by (by apply lookup_lt_Some in Hbi).
    simplify_eq. apply KeyEqual_refl.
  - intros [Hab Hall] [Hbc Hall']. split; [lia|]. by apply agree_trans with b.
  - intros [Hab Hall] [Hba _]. split; [lia | done].
Qed.

End path_laws.

(** ** More of the constructors *)

Section path_heap.
Context {HK : Type} `{key.Hashable HK} `{path.Sentinel HK}.
Implicit Types (h : slices.heap HK) (s : slices.slice) (cs ds : list (slices.cell HK)).
Implicit Types (c : slices.cell HK) (ks : key.Path HK) (elements : list (key.iface HK)).

Lemma Clone_run path cs h :
  slices.contents h path = Some cs →
  path.Clone path h
  = Some (slices.Slice (fresh (dom h)) 0 (slices.len path), <[fresh (dom h) := cs]> h).
Proof.
  intros Hp. unfold path.Clone.
  pose proof (contents_length _ _ _ Hp) as Hlen. rewrite <- Hlen.
  pose proof (make_spec (length cs) h) as [Hmake Ha]. simpl in Hmake, Ha.
  unfold slices.bind. rewrite Hmake.
  rewrite (copy_spec _ 0 (length cs) path cs (replicate (length cs) None));
    [|by rewrite lookup_insert_eq|by rewrite length_replicate|
     by rewrite contents_insert_ne; [|done|rewrite Hp]|lia].
  rewrite insert_insert_eq. unfold slices.ret. do 3 f_equal. simpl.
  rewrite drop_ge by (rewrite length_replicate; lia). by rewrite app_nil_r.
Qed.

(** A store through a slice changes the array of that slice only. *)
Lemma store_other_array a off n i c h h' s :
  slices.store (slices.Slice a off n) i c h = Some ((), h') →
  (∀ off' n', s ≠ slices.Slice a off' n') →
  slices.contents h' s = slices.contents h s.
Proof.
  unfold slices.store. destruct (h !! a) as [ds|]; simpl; [|done].
  case_decide; [|done]. intros [= <-] Hs.
  destruct s as [|a' off' n']; [done|]. simpl.
  rewrite lookup_insert_ne; [done|]. intros ->. by destruct (Hs off' n').
Qed.

Lemma contents_not_fresh h s cs off n :
  slices.contents h s = Some cs → s ≠ slices.Slice (fresh (dom h)) off n.
Proof.
  pose proof (make_spec 0 h) as [_ Ha]. simpl in Ha.
  intros Hs ->. simpl in Hs. by rewrite Ha in Hs.
Qed.

(** What holds of a result in an array that the heap did not have: a store
    through it leaves a slice of the heap alone, and a store through a slice
    of the heap leaves it alone. *)
Lemma fresh_result_independent h path cs n ds :
  slices.contents h path = Some cs → n = length ds →
  let res := slices.Slice (fresh (dom h)) 0 n in
  let h1 := <[fresh (dom h) := ds]> h in
  ∀ i c h2,
    (slices.store res i c h1 = Some ((), h2) → slices.contents h2 path = Some cs) ∧
    (slices.store path i c h1 = Some ((), h2) → slices.contents h2 res = Some ds).
Proof.
  intros Hp -> res h1 i c h2.
  pose proof (make_spec 0 h) as [_ Ha]. simpl in Ha.
  assert (slices.contents h1 path = Some cs) as Hp1.
  { unfold h1. rewrite contents_insert_ne; [done..|by rewrite Hp]. }
  assert (slices.contents h1 res = Some ds) as Hr1 by by apply contents_insert_eq.
  split; intros Hst.
  - rewrite <- Hp1. eapply store_other_array; [exact Hst|].
    intros off' n'. by eapply contents_not_fresh.
  - rewrite <- Hr1. destruct path as [|a off n]; [done|].
    eapply store_other_array; [exact Hst|]. intros off' n' [= Heq].
    subst a. simpl in Hp. by rewrite Ha in Hp.
Qed.

(** X14. [New] returns on every input a slice of an array that the heap did
    not have, never the nil slice, that holds the wrapped elements in order;
    every slice of the heap keeps its cells. An element that is a key
    already is stored as it is, so [New] of keys holds these keys. *)
Theorem New_result elements h :
  (∃ a h',
     path.New elements h = Some (slices.Slice a 0 (length elements), h') ∧
     h !! a = None ∧
     slices.keys h' (slices.Slice a 0 (length elements)) = Some (path.wrap <$> elements) ∧
     slices.frame h h') ∧
  (∀ ks, path.wrap <$> (key.IKey <$> ks) = ks).
Proof.
  split.
  - pose proof (New_spec elements h) as Hrun. simpl in Hrun.
    pose proof (make_spec 0 h) as [_ Ha]. simpl in Ha.
    eexists _, _. split; [exact Hrun|]. split_and!; [done| |by apply frame_insert].
    apply keys_contents, contents_insert_eq. by rewrite !length_fmap.
  - intros ks. rewrite <- list_fmap_compose. induction ks as [|k ks IH]; [done|].
    csimpl. by rewrite IH.
Qed.

(** X15. [Clone] of a slice of the heap returns a slice of an array that
    the heap did not have, as long as the path and with the same cells; it
    is never the nil slice, also when the path is nil. The path and every
    other slice keep their cells. *)
Theorem Clone_result path cs h :
  slices.contents h path = Some cs →
  ∃ a h',
    path.Clone path h = Some (slices.Slice a 0 (slices.len path), h') ∧
    h !! a = None ∧
    slices.contents h' (slices.Slice a 0 (slices.len path)) = Some cs ∧
    slices.contents h' path = Some cs ∧
    slices.frame h h'.
Proof.
  intros Hp. pose proof (make_spec 0 h) as [_ Ha]. simpl in Ha.
  pose proof (frame_insert h _ cs Ha) as Hframe.
  eexists _, _. split; [by apply Clone_run|]. split_and!; [done| |by apply Hframe|done].
  apply contents_insert_eq. symmetry. by eapply contents_length.
Qed.

(** X16. The clone and the path are independent: a later store through the
    clone does not change the cells of the path, and a later store through
    the path does not change the cells of the clone. *)
Theorem Clone_independent path cs h res h1 i c h2 :
  slices.contents h path = Some cs → path.Clone path h = Some (res, h1) →
  (slices.store res i c h1 = Some ((), h2) → slices.contents h2 path = Some cs) ∧
  (slices.store path i c h1 = Some ((), h2) → slices.contents h2 res = Some cs).
Proof.
  intros Hp. rewrite (Clone_run path cs h Hp). intros [= <- <-].
  apply (fresh_result_independent h path cs (slices.len path) cs Hp).
  symmetry. by eapply contents_length.
Qed.

(** X17. When [Append] is given elements, its result and the path are
    independent: a later store through the result does not change the cells
    of the path, and a later store through the path does not change the
    cells of the result. *)
Theorem Append_independent path cs elements h res h1 i c h2 :
  slices.contents h path = Some cs → elements ≠ [] →
  path.Append path elements h = Some (res, h1) →
  (slices.store res i c h1 = Some ((), h2) → slices.contents h2 path = Some cs) ∧
  (slices.store path i c h1 = Some ((), h2) →
   slices.contents h2 res = Some (cs ++ ((λ e, Some (path.wrap e)) <$> elements))).
Proof.
  intros Hp Hne. rewrite (Append_run path elements cs h Hp Hne). intros [= <- <-].
  apply (fresh_result_independent h path cs); [done|].
  by rewrite length_app, length_fmap.
Qed.

(** X18. [Append] after [New] holds what [New] of all the elements holds:
    the wrapped elements of both calls in order, and the path that [New]
    returned still holds its own. *)
Theorem New_Append elements1 elements2 h :
  ∃ p h1 res h2 res' h',
    path.New elements1 h = Some (p, h1) ∧
    path.Append p elements2 h1 = Some (res, h2) ∧
    path.New (elements1 ++ elements2) h = Some (res', h') ∧
    slices.keys h2 res = Some (path.wrap <$> (elements1 ++ elements2)) ∧
    slices.keys h' res' = Some (path.wrap <$> (elements1 ++ elements2)) ∧
    slices.keys h2 p = Some (path.wrap <$> elements1) ∧
    slices.frame h h2.
Proof.
  pose proof (New_spec elements1 h) as Hnew. simpl in Hnew.
  pose proof (make_spec 0 h) as [_ Ha]. simpl in Ha.
  set (p := slices.Slice (fresh (dom h)) 0 (length elements1)) in *.
  set (h1 := <[fresh (dom h) := Some <$> (path.wrap <$> elements1)]> h) in *.
  assert (slices.keys h1 p = Some (path.wrap <$> elements1)) as Hp.
  { apply keys_contents, contents_insert_eq. by rewrite !length_fmap. }
  pose proof (frame_insert h _ (Some <$> (path.wrap <$> elements1)) Ha) as Hf1.
  pose proof (New_spec (elements1 ++ elements2) h) as Hnew'. simpl in Hnew'.
  assert (slices.keys (<[fresh (dom h) := Some <$> (path.wrap <$> (elements1 ++ elements2))]> h)
            (slices.Slice (fresh (dom h)) 0 (length (elements1 ++ elements2)))
          = Some (path.wrap <$> (elements1 ++ elements2))) as Hk'.
  { apply keys_contents, contents_insert_eq. by rewrite !length_fmap. }
  destruct elements2 as [|e2 els2].
  - exists p, h1, p, h1. eexists _, _.
    split; [exact Hnew|]. split; [done|]. split; [exact Hnew'|].
    rewrite app_nil_r in *. by split_and!.
  - set (elements2 := e2 :: els2) in *.
    pose proof (proj1 (keys_contents _ _ _) Hp) as Hcs.
    pose proof (Append_run p elements2 _ h1 Hcs ltac:(done)) as Hrun.
    cbv zeta in Hrun. pose proof (make_spec 0 h1) as [_ Ha1]. simpl in Ha1.
    exists p, h1. eexists _, _, _, _.
    split; [exact Hnew|]. split; [exact Hrun|]. split; [exact Hnew'|].
    split_and!; [|done| |].
    + apply keys_contents. rewrite contents_insert_eq.
      * by rewrite !fmap_app, <- !list_fmap_compose.
      * by rewrite !length_app, !length_fmap.
    + eapply frame_keys; [by apply frame_insert | done].
    + intros s ds Hs. apply frame_insert; [done|]. by apply Hf1.
Qed.

(** X19. [Join] of one path against [Clone]: on a path that is not empty
    the two calls do the same, on an empty path [Join] returns the nil slice
    and leaves the heap as it is, where [Clone] allocates. [Join] of two
    paths against [Append]: when the second path is not empty, [Join] does
    what [Append] of the keys of the second path to the first does. *)
Theorem Join_Clone_Append p q cs qs h :
  slices.contents h p = Some cs → slices.keys h q = Some qs →
  (cs ≠ [] → path.Join [p] h = path.Clone p h) ∧
  (cs = [] → path.Join [p] h = Some (slices.Nil, h) ∧
             ∃ a h', path.Clone p h = Some (slices.Slice a 0 0, h') ∧ h !! a = None) ∧
  (qs ≠ [] → path.Join [p; q] h = path.Append p (key.IKey <$> qs) h).
Proof.
  intros Hp Hq. pose proof (proj1 (keys_contents _ _ _) Hq) as Hq'.
  pose proof (make_spec 0 h) as [_ Ha]. simpl in Ha.
  pose proof (contents_length _ _ _ Hp) as Hlen.
  assert (path.Join [p] h =
          if Nat.eqb (length cs) 0 then Some (slices.Nil, h)
          else Some (slices.Slice (fresh (dom h)) 0 (length cs), <[fresh (dom h) := cs]> h))
    as Hjoin.
  { rewrite (Join_run h [p] [cs]) by (by repeat constructor).
    simpl. by rewrite app_nil_r. }
  split_and!.
  - intros Hne. rewrite Hjoin, (Clone_run p cs h Hp), <- Hlen.
    by destruct cs.
  - intros ->. split; [done|]. eexists _, _. rewrite (Clone_run p [] h Hp), <- Hlen.
    by split.
  - intros Hne. rewrite (Join_run h [p; q] [cs; Some <$> qs]) by (by repeat constructor).
    rewrite (Append_run p (key.IKey <$> qs) cs h Hp) by (by destruct qs).
    simpl. rewrite app_nil_r, !length_app, !length_fmap, <- list_fmap_compose.
    destruct qs as [|q0 qs']; [done|].
    replace (Nat.eqb (length cs + length (q0 :: qs')) 0) with false; [done|].
    symmetry. apply Nat.eqb_neq. simpl. lia.
Qed.
End path_heap.

(** ** More of [FromString] *)

Section path_FromString_more.
Context {HK : Type} `{key.Hashable HK} `{path.Sentinel HK}.
Implicit Types (h : slices.heap HK) (s t : string).
#[local] Abbreviation token := (λ t : string, key.New (HK:=HK) (key.INative (key.NStr t))).
Open Scope string_scope.

Lemma stripped_no_slash s : (∀ rest, s ≠ String "/" rest) → stripped s = s.
Proof.
  destruct s as [|c s]; [done|]. intros Hs. unfold stripped.
  destruct (Ascii.ascii_dec c "/") as [->|Hc]; [by destruct (Hs s)|].
  destruct c as [[] [] [] [] [] [] [] []]; done.
Qed.

Lemma stripped_app s r : s ≠ "" → s ≠ "/" → stripped (s ++ r) = stripped s ++ r.
Proof.
  destruct s as [|c s]; [done|]. intros _ Hs. rewrite append_String.
  destruct (Ascii.ascii_dec c "/") as [->|Hc]; [done|].
  unfold stripped. destruct c as [[] [] [] [] [] [] [] []]; done.
Qed.

Lemma app_sep_not_root s t :
  s ≠ "" → String.eqb (s ++ String "/" t) "" || String.eqb (s ++ String "/" t) "/" = false.
Proof.
  destruct s as [|c s]; [done|]. intros _. rewrite append_String. simpl.
  destruct (Ascii.eqb c "/"); [|done]. destruct s; by rewrite ?append_String.
Qed.

(** The keys of [FromString], by cases on the string. *)
Lemma FromString_keys_tokens s h :
  s ≠ "" → s ≠ "/" →
  ∃ res h',
    path.FromString s h = Some (res, h') ∧ slices.frame h h' ∧
    slices.keys h' res = Some (token <$> strings_Split (stripped s) "/").
Proof.
  intros H1%String.eqb_neq H2%String.eqb_neq.
  destruct (FromString_keys s h) as (res & h' & Hrun & Hframe & Hks).
  rewrite H1, H2 in Hks. by exists res, h'.
Qed.

(** X20. A string that does not start with ['/'] yields the same path with
    and without a ['/'] in front of it. *)
Theorem FromString_leading_slash s h :
  (∀ rest, s ≠ String "/" rest) →
  path.FromString (String "/" s) h = path.FromString s h.
Proof.
  intros Hs. rewrite !FromString_run. cbv zeta.
  destruct s as [|c s]; [done|].
  change (stripped (String "/" (String c s))) with (String c s).
  rewrite (stripped_no_slash (String c s) Hs).
  assert (Ascii.eqb c "/" = false) as Hc.
  { apply Ascii.eqb_neq. intros ->. by destruct (Hs s). }
  simpl. by rewrite Hc.
Qed.

(** X21. The path of a string is a prefix of the path of that string
    followed by ['/'] and any string: [HasPrefix] of the two paths is true,
    and so are the weaker tests. *)
Theorem FromString_extend_HasPrefix s t h h0 :
  ∃ r1 h1 r2 h2 a b,
    path.FromString (s ++ String "/" t) h = Some (r1, h1) ∧
    path.FromString s h0 = Some (r2, h2) ∧
    slices.keys h1 r1 = Some a ∧ slices.keys h2 r2 = Some b ∧
    path.HasPrefix a b = Some true ∧
    path.MatchPrefix a b = Some true.
Proof.
  destruct (FromString_keys (s ++ String "/" t) h) as (r1 & h1 & Hr1 & _ & Hk1).
  destruct (FromString_keys s h0) as (r2 & h2 & Hr2 & _ & Hk2).
  eexists r1, h1, r2, h2, _, _.
  split; [exact Hr1|]. split; [exact Hr2|]. split; [exact Hk1|]. split; [exact Hk2|].
  assert (path.HasPrefix
            (if String.eqb (s ++ String "/" t) "" || String.eqb (s ++ String "/" t) "/"
             then [] else token <$> strings_Split (stripped (s ++ String "/" t)) "/")
            (if String.eqb s "" || String.eqb s "/"
             then [] else token <$> strings_Split (stripped s) "/") = Some true) as Hpre.
  { destruct (String.eqb s "" || String.eqb s "/") eqn:Hs.
    { apply HasPrefix_true. split; [simpl; lia|]. by intros i ai bi _ ?. }
    apply orb_false_iff in Hs as [H1%String.eqb_neq H2%String.eqb_neq].
    rewrite (app_sep_not_root s t H1), (stripped_app s _ H1 H2), strings_Split_app_sep.
    apply HasPrefix_true. rewrite !length_fmap, length_app. split; [lia|].
    intros i ai bi Hai Hbi. rewrite fmap_app, lookup_app_l in Hai
      by (by apply lookup_lt_Some in Hbi).
    rewrite Hai in Hbi. injection Hbi as <-.
    apply list_lookup_fmap_Some in Hai as (x & -> & _). simpl.
    by apply bool_decide_eq_true. }
  split; [exact Hpre|].
  apply MatchPrefix_true. apply HasPrefix_true in Hpre as [Hlen Hall].
  split; [done|]. intros i ai bi ??. right. by apply (Hall i).
Qed.

(** X22. [Join] of the paths of two strings is the path of the two strings
    with a ['/'] between them, when the first string is neither empty nor
    ["/"] and the second one is not empty and does not start with ['/']. *)
Theorem FromString_Join s t h h' :
  s ≠ "" → s ≠ "/" → t ≠ "" → (∀ rest, t ≠ String "/" rest) →
  ∃ r1 h1 r2 h2 r3 h3 r4 h4 ks,
    path.FromString s h = Some (r1, h1) ∧
    path.FromString t h1 = Some (r2, h2) ∧
    path.Join [r1; r2] h2 = Some (r3, h3) ∧
    path.FromString (s ++ String "/" t) h' = Some (r4, h4) ∧
    slices.keys h3 r3 = Some ks ∧ slices.keys h4 r4 = Some ks.
Proof.
  intros Hs1 Hs2 Ht1 Ht.
  assert (t ≠ "/") as Ht2 by apply Ht.
  destruct (FromString_keys_tokens s h Hs1 Hs2) as (r1 & h1 & Hr1 & _ & Hk1).
  destruct (FromString_keys_tokens t h1 Ht1 Ht2) as (r2 & h2 & Hr2 & Hf2 & Hk2).
  rewrite (stripped_no_slash t Ht) in Hk2.
  destruct (FromString_keys (s ++ String "/" t) h') as (r4 & h4 & Hr4 & _ & Hk4).
  rewrite (app_sep_not_root s t Hs1), (stripped_app s _ Hs1 Hs2),
    strings_Split_app_sep, fmap_app in Hk4.
  pose proof (frame_keys _ _ _ _ Hf2 Hk1) as Hk1'.
  set (a := token <$> strings_Split (stripped s) "/") in *.
  set (b := token <$> strings_Split t "/") in *.
  pose proof (Join_run h2 [r1; r2] [Some <$> a; Some <$> b]) as Hr3.
  rewrite concat_cons, concat_cons, concat_nil, app_nil_r, <- fmap_app in Hr3.
  replace (Nat.eqb (length (Some <$> (a ++ b)%list)) 0) with false in Hr3.
  2:{ symmetry. apply Nat.eqb_neq. unfold a.
      rewrite length_fmap, length_app, length_fmap, strings_Split_length. lia. }
  eexists r1, h1, r2, h2, _, _, r4, h4, _.
  split; [exact Hr1|]. split; [exact Hr2|]. split.
  { apply Hr3. constructor; [by apply keys_contents|].
    constructor; [by apply keys_contents|]. constructor. }
  split; [exact Hr4|]. split; [|exact Hk4].
  by apply keys_contents, contents_insert_eq.
Qed.
End path_FromString_more.

(** ** More of the tests of [Map] *)

Section formMap_more.
Import key.
Context {HK : Type} `{HashableLaws HK} {V : Type}.
Implicit Types (m : Map HK V) (k : Key HK) (l : list (Key HK * V)).

(** X23. [formMap] calls [Set] on the pairs in order, so the last pair
    with an [Equal] key wins: on the Map built from [l], [Get] of [k] finds
    the value of the last pair of [l] whose key is [Equal] to [k], and
    nothing when there is none. The Map keeps the invariant, and it has at
    most as many entries as there are pairs. *)
Theorem formMap_Get_last l k :
  Map_Get (formMap l) k = snd <$> last (filter (λ p, KeyEqual p.1 k = true) l) ∧
  wfb (formMap l) = true ∧
  key.length (formMap l) ≤ List.length l.
Proof.
  split_and!; [| apply formMap_wfb |].
  - induction l as [|[k0 x] l IH] using rev_ind; [by destruct k|].
    rewrite formMap_snoc, Map_Get_Set, filter_app, last_app, IH.
    rewrite filter_cons, filter_nil. simpl.
    destruct (KeyEqual k0 k) eqn:Hk.
    + by rewrite decide_True.
    + by rewrite decide_False.
  - induction l as [|[k0 x] l IH] using rev_ind; [done|].
    rewrite formMap_snoc, Map_Set_length, length_app. simpl.
    destruct (Map_Get (formMap l) k0); lia.
Qed.
End formMap_more.

Section formMap_dumbHashable.
Import key.
Context {V : Type}.
Implicit Types (l : list (dumbHashable * V)).

End formMap_dumbHashable.

(** ** The loop of [copyElements], [Join] on empty paths, elements of a prefix *)

Section path_more.
Context {HK : Type} `{key.HashableLaws HK} `{path.Sentinel HK}.
Implicit Types (h : slices.heap HK) (s : slices.slice) (cs ds : list (slices.cell HK)).
Implicit Types (a b : key.Path HK) (e : key.Key HK) (elements : list (key.iface HK)).

Lemma store_list_None arr off n i ds cs h :
  h !! arr = Some cs → off + n ≤ length cs → i ≤ n → n < i + length ds →
  slices.store_list (slices.Slice arr off n) i ds h = None.
Proof.
  revert i cs h. induction ds as [|d ds IH]; intros i cs h Ha Hn Hin Hi; simpl in *; [lia|].
  unfold slices.bind, slices.store. rewrite Ha. simpl.
  destruct (decide (i < n ∧ off + n ≤ length cs)) as [[Hlt _]|Hge]; [|done].
  apply (IH (S i) (<[off + i := d]> cs)); [by rewrite lookup_insert_eq| |lia..].
  by rewrite length_insert.
Qed.

(** X26. The loop of [copyElements] stores the wrapped elements at the
    indices 0, 1, ... of [dest]: it returns exactly when [dest] is at least
    as long as the elements, and then [dest] holds the wrapped elements
    followed by the cells it had beyond them; on a shorter [dest] it
    panics. *)
Theorem copyElements_spec dest cs elements h :
  slices.contents h dest = Some cs →
  (length elements ≤ slices.len dest →
   ∃ h', path.copyElements dest elements h = Some ((), h') ∧
         slices.contents h' dest
         = Some (((λ el, Some (path.wrap el)) <$> elements) ++ drop (length elements) cs)) ∧
  (slices.len dest < length elements → path.copyElements dest elements h = None).
Proof.
  intros Hd. unfold path.copyElements. rewrite copyElements_from_store_list.
  destruct dest as [|arr off n]; simpl in *.
  { injection Hd as <-. split.
    - intros Hlen. destruct elements; [|simpl in Hlen; lia]. by exists h.
    - intros Hlen. by destruct elements; [simpl in Hlen; lia|]. }
  destruct (h !! arr) as [row|] eqn:Hrow; simpl in Hd; [|done].
  destruct (decide (off + n ≤ length row)) as [Hn|]; [|done]. injection Hd as <-.
  split.
  - intros Hlen. eexists. split.
    + apply (store_list_spec arr off n 0 _ row); [done..|]. rewrite length_fmap. lia.
    + simpl. rewrite lookup_insert_eq. simpl. rewrite length_fmap, !Nat.add_0_r.
      rewrite decide_True
        by (rewrite !length_app, length_take, length_fmap, length_drop; lia).
      f_equal. rewrite drop_app_length' by (rewrite length_take; lia).
      rewrite take_app_ge by (rewrite length_fmap; lia). rewrite length_fmap.
      f_equal. replace n with (length elements + (n - length elements)) at 2 by lia.
      by rewrite <- take_drop_commute, drop_drop.
  - intros Hlen. apply (store_list_None arr off n 0 _ row); [done|done|lia|].
    rewrite length_fmap. lia.
Qed.

(** X27. [Join] skips empty paths: an empty path among the arguments,
    nil or not, changes neither the result nor the heap. *)
Theorem Join_skips_empty paths1 p paths2 (css1 css2 : list (list (slices.cell HK))) h :
  Forall2 (λ q cs, slices.contents h q = Some cs) paths1 css1 →
  Forall2 (λ q cs, slices.contents h q = Some cs) paths2 css2 →
  slices.contents h p = Some [] →
  path.Join (paths1 ++ p :: paths2) h = path.Join (paths1 ++ paths2) h.
Proof.
  intros Hall1 Hall2 Hp.
  rewrite (Join_run h (paths1 ++ p :: paths2) (css1 ++ [] :: css2))
    by (apply Forall2_app; [done | by constructor]).
  rewrite (Join_run h (paths1 ++ paths2) (css1 ++ css2)) by by apply Forall2_app.
  by rewrite !concat_app.
Qed.

(** X28. The elements of a path: its [Base] is one of them, the elements
    of its [Parent] are among them, and so are the elements of every path
    that [HasPrefix] accepts as a prefix of it. *)
Theorem HasElement_Base_Parent_prefix a b e :
  (∀ x, path.Base a = Some x → path.HasElement a x = true) ∧
  (path.HasElement (path.Parent a) e = true → path.HasElement a e = true) ∧
  (path.HasPrefix a b = Some true → path.HasElement b e = true →
   path.HasElement a e = true).
Proof.
  rewrite !HasElement_true, HasPrefix_true. split_and!.
  - intros x Hx. apply HasElement_true. unfold path.Base in Hx.
    case_decide; [|done]. exists (length a - 1), x. split; [done|].
    apply KeyEqual_refl.
  - intros (i & ai & Hai & Hae). rewrite Parent_take in Hai.
    apply lookup_take_Some in Hai as [Hai _]. by exists i, ai.
  - intros [Hlen Hall] (i & bi & Hbi & Hbe).
    destruct (lookup_lt_is_Some_2 a i) as [ai Hai].
    { apply lookup_lt_Some in Hbi. lia. }
    exists i, ai. split; [done|].
    apply KeyEqual_trans with bi; [|done]. apply KeyEqual_sym. by apply (Hall i).
Qed.
End path_more.

(** ** Instances of the statements above that have hypotheses *)

Lemma no_wildcard_plain_witness :
  Forall (λ ai, key.KeyEqual ai path.Wildcard = false)
    [string_key "a"; string_key "b"] ∧
  path.MatchPrefix [string_key "a"; string_key "b"] [string_key "a"]
  = path.HasPrefix [string_key "a"; string_key "b"] [string_key "a"].
Proof.
  assert (Forall (λ ai, key.KeyEqual ai path.Wildcard = false)
            [string_key "a"; string_key "b"]) as Hnw by (repeat constructor).
  split; [exact Hnw|].
  exact (proj1 (proj2 (no_wildcard_plain
                         [string_key "a"; string_key "b"] [string_key "a"] Hnw))).
Defined.

Lemma all_wildcards_match_witness :
  path.Match (replicate 2 path.Wildcard) [string_key "a"; string_key "b"] = Some true ∧
  path.MatchPrefixString (replicate 2 path.Wildcard) [string_key "a"] = Some true.
Proof.
  assert (key.KeyEqual (path.Wildcard (HK:=WildcardType)) path.Wildcard = true) as Hw
    by reflexivity.
  split.
  - apply (proj2 (all_wildcards_match 2 [string_key "a"; string_key "b"] Hw)).
    reflexivity.
  - apply (proj1 (all_wildcards_match 2 [string_key "a"] Hw)). simpl. lia.
Defined.

Lemma path_Equal_equivalence_witness :
  path.Equal [string_key "a"; path.Wildcard] [string_key "a"; path.Wildcard] = Some true ∧
  path.Equal [string_key "a"; path.Wildcard] [string_key "a"]
  = path.Equal [string_key "a"] [string_key "a"; path.Wildcard].
Proof.
  destruct (path_Equal_equivalence
              [string_key "a"; path.Wildcard] [string_key "a"] [])
    as (Hrefl & Hsym & _).
  split; [exact Hrefl | exact Hsym].
Defined.

Lemma path_HasPrefix_order_witness :
  path.HasPrefix [string_key "a"; path.Wildcard]
    (path.Parent [string_key "a"; path.Wildcard]) = Some true ∧
  path.HasPrefix ([string_key "a"; path.Wildcard] ++ [string_key "b"])
    [string_key "a"; path.Wildcard] = Some true.
Proof.
  destruct (path_HasPrefix_order
              [string_key "a"; path.Wildcard] [] [string_key "b"])
    as (_ & Hparent & Happ & _).
  split; [exact Hparent | exact Happ].
Defined.


Lemma Clone_result_witness :
  ∃ a h',
    path.Clone (slices.Slice 0 0 2) heap_ab = Some (slices.Slice a 0 2, h') ∧
    slices.contents h' (slices.Slice a 0 2)
    = Some [Some (string_key "a"); Some (string_key "b")] ∧
    slices.contents h' (slices.Slice 0 0 2)
    = Some [Some (string_key "a"); Some (string_key "b")].
Proof.
  destruct (Clone_result (slices.Slice 0 0 2)
              [Some (string_key "a"); Some (string_key "b")] heap_ab eq_refl)
    as (a & h' & Hrun & _ & Hres & Hpath & _).
  exists a, h'. split; [exact Hrun|]. split; [exact Hres | exact Hpath].
Defined.

Lemma Clone_independent_witness :
  ∃ res h1,
    path.Clone (slices.Slice 0 0 2) heap_ab = Some (res, h1) ∧
    ∀ h2, slices.store (slices.Slice 0 0 2) 0 None h1 = Some ((), h2) →
          slices.contents h2 res = Some [Some (string_key "a"); Some (string_key "b")].
Proof.
  pose proof (Clone_run (slices.Slice 0 0 2)
                [Some (string_key "a"); Some (string_key "b")] heap_ab eq_refl) as Hrun.
  eexists _, _. split; [exact Hrun|]. intros h2.
  exact (proj2 (Clone_independent (slices.Slice 0 0 2)
                  [Some (string_key "a"); Some (string_key "b")] heap_ab _ _
                  0 None h2 eq_refl Hrun)).
Defined.

Lemma Append_independent_witness :
  ∃ res h1,
    path.Append (slices.Slice 0 0 2) [key.INative (key.NStr "c")] heap_ab
    = Some (res, h1) ∧
    ∀ h2, slices.store res 2 None h1 = Some ((), h2) →
          slices.contents h2 (slices.Slice 0 0 2)
          = Some [Some (string_key "a"); Some (string_key "b")].
Proof.
  assert ([key.INative (HK:=WildcardType) (key.NStr "c")] ≠ []) as Hne by discriminate.
  pose proof (Append_run (slices.Slice 0 0 2) [key.INative (key.NStr "c")]
                [Some (string_key "a"); Some (string_key "b")] heap_ab eq_refl Hne)
    as Hrun.
  eexists _, _. split; [exact Hrun|]. intros h2.
  exact (proj1 (Append_independent (slices.Slice 0 0 2)
                  [Some (string_key "a"); Some (string_key "b")]
                  [key.INative (key.NStr "c")] heap_ab _ _
                  2 None h2 eq_refl Hne Hrun)).
Defined.

Lemma Join_Clone_Append_witness :
  path.Join [slices.Slice 0 0 2] heap_ab = path.Clone (slices.Slice 0 0 2) heap_ab ∧
  path.Join [slices.Slice 0 0 2; slices.Slice 0 1 1] heap_ab
  = path.Append (slices.Slice 0 0 2) [key.IKey (string_key "b")] heap_ab.
Proof.
  destruct (Join_Clone_Append (slices.Slice 0 0 2) (slices.Slice 0 1 1)
              [Some (string_key "a"); Some (string_key "b")] [string_key "b"]
              heap_ab eq_refl eq_refl) as (Hclone & _ & Happend).
  split; [apply Hclone | apply Happend]; discriminate.
Defined.

Lemma FromString_leading_slash_witness :
  path.FromString "/a/b" (∅ : slices.heap WildcardType)
  = path.FromString "a/b" (∅ : slices.heap WildcardType).
Proof.
  apply (FromString_leading_slash "a/b" (∅ : slices.heap WildcardType)).
  intros rest Heq. discriminate Heq.
Defined.

Lemma FromString_Join_witness :
  ∃ r1 h1 r2 h2 r3 h3 r4 h4 ks,
    path.FromString "a" (∅ : slices.heap WildcardType) = Some (r1, h1) ∧
    path.FromString "b" h1 = Some (r2, h2) ∧
    path.Join [r1; r2] h2 = Some (r3, h3) ∧
    path.FromString "a/b" (∅ : slices.heap WildcardType) = Some (r4, h4) ∧
    slices.keys h3 r3 = Some ks ∧ slices.keys h4 r4 = Some ks.
Proof.
  apply (FromString_Join "a" "b" (∅ : slices.heap WildcardType)
           (∅ : slices.heap WildcardType)); discriminate.
Defined.

Lemma formMap_Get_last_witness :
  key.Map_Get (key.formMap [(custom_key "k", int_val 1); (custom_key "k", int_val 2)])
    (custom_key "k") = Some (int_val 2).
Proof.
  exact (eq_trans
           (proj1 (formMap_Get_last
                     [(custom_key "k", int_val 1); (custom_key "k", int_val 2)]
                     (custom_key "k")))
           eq_refl).
Defined.


Lemma copyElements_spec_witness :
  path.copyElements (slices.Slice 0 0 2)
    [key.INative (key.NStr "x"); key.INative (key.NStr "y"); key.INative (key.NStr "z")]
    heap_ab = None ∧
  ∃ h', path.copyElements (slices.Slice 0 0 2) [key.INative (key.NStr "c")] heap_ab
        = Some ((), h') ∧
        slices.contents h' (slices.Slice 0 0 2)
        = Some [Some (string_key "c"); Some (string_key "b")].
Proof.
  split.
  - apply (copyElements_spec (slices.Slice 0 0 2)
             [Some (string_key "a"); Some (string_key "b")]
             [key.INative (key.NStr "x"); key.INative (key.NStr "y");
              key.INative (key.NStr "z")] heap_ab eq_refl).
    simpl. lia.
  - apply (copyElements_spec (slices.Slice 0 0 2)
             [Some (string_key "a"); Some (string_key "b")]
             [key.INative (key.NStr "c")] heap_ab eq_refl).
    simpl. lia.
Defined.

Lemma Join_skips_empty_witness :
  path.Join [slices.Slice 0 0 2; slices.Nil] heap_ab
  = path.Join [slices.Slice 0 0 2] heap_ab.
Proof.
  apply (Join_skips_empty [slices.Slice 0 0 2] slices.Nil []
           [[Some (string_key "a"); Some (string_key "b")]] [] heap_ab).
  - by repeat constructor.
  - constructor.
  - reflexivity.
Defined.

Lemma HasElement_Base_Parent_prefix_witness :
  path.HasElement [string_key "a"; string_key "b"] (string_key "a") = true ∧
  path.HasElement [string_key "a"; string_key "b"] (string_key "b") = true.
Proof.
  destruct (HasElement_Base_Parent_prefix
              [string_key "a"; string_key "b"] [string_key "a"] (string_key "a"))
    as (Hbase & _ & Hprefix).
  split; [apply Hprefix | apply Hbase]; reflexivity.
Defined.
